(** * The wollok-ts linker: merging, scopes and name resolution

    A shallow embedding of [src/linker.ts], followed by one of the node
    builders of [src/builders.ts].

    - Node objects are records.  What the linker attaches to a node after
      its construction (its scope, its cache) is kept in a store and found by
      the node's [id]: the rebuild of [link] gives every node an id of its
      own, and the properties of scope assignment are stated for
      environments whose ids are pairwise distinct.
    - Scope objects are mutable and shared: they live in a heap and are
      denoted by their index in it, so that a node's scope, the container of
      its children's scopes and the scopes included by imports and
      inheritance are one and the same object.
    - Code that may throw returns a [Result].
    - [model.ts] and [extensions.ts] are other modules of the repository;
      what the linker uses of them is modelled from the specification, and
      marked so. *)

From Stdlib Require Import Ascii String.
From stdpp Require Import gmap strings list fin_maps pretty.

Set Warnings "-register-all".

(** ** Nodes *)

Module Kind.
Inductive t :=
| Environment | Package | Import | Class | Singleton | Mixin | Program | Test
| Describe | Field | Method | Constructor | Fixture | Var | Param
| NamedArgument | Body | Return | Assignment | Reference | Self | Literal
| Send | Super | New | If | Throw | Try | Catch.

#[global] Instance eq_dec : EqDecision t.
Proof. solve_decision. Defined.
End Kind.

(** A node object.  Only the fields the linker reads are kept apart; every
    other child node of the object is in [others]. *)
Inductive Node : Type := mkNode {
  kind : Kind.t;
  id : string;
  name : option string;
  source : option string;
  isGeneric : bool;
  imports : list Node;
  members : list Node;
  entity : option Node;
  others : list Node;
}.

(** [node.is(category)], for the kinds and categories the linker asks for. *)
Definition is_a (k : Kind.t) (n : Node) : bool := bool_decide (kind n = k).

(** Modelled from the spec: the [Module] category of [model.ts] (glossary:
    a class, mixin, or singleton). *)
Definition is_Module (n : Node) : bool :=
  is_a Kind.Class n || is_a Kind.Singleton n || is_a Kind.Mixin n.

(** Modelled from the spec: the [Entity] category of [model.ts] (glossary:
    package, class, mixin, singleton, program, test). *)
Definition is_Entity (n : Node) : bool :=
  is_a Kind.Package n || is_a Kind.Program n || is_a Kind.Test n || is_Module n.

(** ** Results of code that may throw *)

Inductive Error :=
| CouldNotResolve (start : string)
| UnlinkedReference (name : option string) (source : option string)
| TypeError
| RangeError.

Inductive Result (A : Type) :=
| Ok (a : A)
| Throw (e : Error).
Arguments Ok {A} a.
Arguments Throw {A} e.

#[global] Instance Result_ret : MRet Result := @Ok.
#[global] Instance Result_bind : MBind Result := λ A B k r,
  match r with
  | Ok a => k a
  | Throw e => Throw e
  end.

(** ** Scopes *)

(** [class LocalScope]: scope objects are mutable and shared, so they live in
    a heap ([list LocalScope]) and refer to each other by index. *)
Record LocalScope := mkScope {
  contributions : gmap string Node;
  includedScopes : list nat;
  containerScope : option nat;
}.

(** [LocalScope.register]: the loop sets the contributions one by one. *)
Definition register (contribs : list (string * Node)) (this : LocalScope) : LocalScope :=
  mkScope
    (fold_left (fun m c => <[c.1 := c.2]> m) contribs (contributions this))
    (includedScopes this)
    (containerScope this).

(** [this.includedScopes.unshift(...scopes)] and
    [this.includedScopes.push(...scopes)]. *)
Definition unshift (scopes : list nat) (this : LocalScope) : LocalScope :=
  mkScope (contributions this) (scopes ++ includedScopes this) (containerScope this).

Definition push (scopes : list nat) (this : LocalScope) : LocalScope :=
  mkScope (contributions this) (includedScopes this ++ scopes) (containerScope this).

(** [LocalScope.resolve].  The recursion follows [containerScope], which the
    heap does not bound by itself: [fuel] is the call depth left, and running
    out of it is the engine's [RangeError]. *)
Fixpoint resolve_fuel (fuel : nat) (h : list LocalScope) (this : nat)
    (name : string) (allowLookup : bool) : Result (option Node) :=
  match fuel with
  | 0 => Throw RangeError
  | S fuel =>
    match h !! this with
    | None => Throw TypeError
    | Some scope =>
      let contributed := contributions scope !! name in
      if bool_decide (is_Some contributed) || negb allowLookup then Ok contributed
      else
        let fix loop (scopes : list nat) : Result (option Node) :=
          match scopes with
          | [] =>
            match containerScope scope with
            | Some container => resolve_fuel fuel h container name allowLookup
            | None => Ok None
            end
          | includedScope :: scopes =>
            inherited ← resolve_fuel fuel h includedScope name false;
            match inherited with
            | Some n => Ok (Some n)
            | None => loop scopes
            end
          end in
        loop (includedScopes scope)
    end
  end.

(** A chain of containers without a cycle is no longer than the heap, so
    this depth is enough for every heap the linker builds
    ([resolve_fuel_enough] below). *)
Definition resolve (h : list LocalScope) (this : nat) (name : string)
    (allowLookup : bool) : Result (option Node) :=
  resolve_fuel (S (length h)) h this name allowLookup.

(** Containers were created before the scopes they contain, and every
    reference points into the heap. *)
Definition heap_wf (h : list LocalScope) : Prop :=
  ∀ i scope, h !! i = Some scope →
    (∀ c, containerScope scope = Some c → c < i) ∧
    (∀ j, j ∈ includedScopes scope → j < length h).

(** The own bindings of the scope at [i]. *)
Definition local (h : list LocalScope) (name : string) (i : nat) : option Node :=
  scope ← h !! i; contributions scope !! name.

(** The first of [scopes] that binds [name] itself. *)
Fixpoint first_local (h : list LocalScope) (name : string) (scopes : list nat) : option Node :=
  match scopes with
  | [] => None
  | i :: scopes =>
    match local h name i with
    | Some n => Some n
    | None => first_local h name scopes
    end
  end.

(** ** Merging *)

(** The same package with another member list:
    [new Package({ ...existent, members })]. *)
Definition withMembers (existent : Node) (ms : list Node) : Node :=
  mkNode (kind existent) (id existent) (name existent) (source existent)
    (isGeneric existent) (imports existent) ms (entity existent) (others existent).

(** The predicate [mergePackage] hands to [members.find]. *)
Definition samePackage (isolated member : Node) : bool :=
  is_a Kind.Package member && bool_decide (name member = name isolated).

(** [mergePackage].  A member list holds each object once, so
    [members.filter(member => member !== existent)] drops exactly the
    position [find] stopped at. *)
Fixpoint mergePackage (members0 : list Node) (isolated : Node) {struct isolated} : list Node :=
  if negb (is_a Kind.Package isolated) then
    filter (λ member, name member ≠ name isolated) members0 ++ [isolated]
  else
    match list_find (λ member, samePackage isolated member = true) members0 with
    | Some (i, existent) =>
      delete i members0 ++
        [withMembers existent (fold_left mergePackage (members isolated) (members existent))]
    | None => members0 ++ [isolated]
    end.

(** No two entities of one member list share a name, in the list and in the
    member list of every package below it. *)
Fixpoint collisionFree (node : Node) : bool :=
  negb (is_a Kind.Package node) ||
  (bool_decide (NoDup (name <$> members node)) && forallb collisionFree (members node)).

Definition noCollisions (entities : list Node) : bool :=
  bool_decide (NoDup (name <$> entities)) && forallb collisionFree entities.

(** The same node with another import list. *)
Definition withImports (node : Node) (imports0 : list Node) : Node :=
  mkNode (kind node) (id node) (name node) (source node)
    (isGeneric node) imports0 (members node) (entity node) (others node).

(** ** The node store: caches and scope slots *)

(** What the linker attaches to node objects after their construction: the
    [_cache()] entries it sets, the scope slots, and the heap of scopes.
    The cache of a node is found by the node's id. *)
Record Store := mkStore {
  parentOf : gmap string Node;
  environmentOf : gmap string Node;
  nodeById : gmap string Node;
  scopeOf : gmap string nat;
  heap : list LocalScope;
}.

Definition emptyStore : Store := mkStore ∅ ∅ ∅ ∅ [].

Definition setHeap (h : list LocalScope) (st : Store) : Store :=
  mkStore (parentOf st) (environmentOf st) (nodeById st) (scopeOf st) h.

(** [new LocalScope(containerScope)]: the new object and the store that
    holds it. *)
Definition newLocalScope (containerScope0 : option nat) (st : Store) : nat * Store :=
  (length (heap st), setHeap (heap st ++ [mkScope ∅ [] containerScope0]) st).

(** [assign(node, { scope })]. *)
Definition assignScope (node : Node) (scope : nat) (st : Store) : Store :=
  mkStore (parentOf st) (environmentOf st) (nodeById st)
    (<[id node := scope]> (scopeOf st)) (heap st).

(** [node.scope], which is [undefined] until a scope has been assigned. *)
Definition scope (st : Store) (node : Node) : option nat := scopeOf st !! id node.

(** A method call on [node.scope]: calling it on [undefined] throws. *)
Definition theScope (st : Store) (node : Node) : Result nat :=
  match scope st node with
  | Some s => Ok s
  | None => Throw TypeError
  end.

(** [(scope as LocalScope).register(contributions)] on the stored object. *)
Definition registerIn (s : nat) (contribs : list (string * Node)) (st : Store) : Store :=
  setHeap (alter (register contribs) s (heap st)) st.

(** ** Qualified names *)

(** Modelled from the spec: [divideOn] of [extensions.ts], which splits a name
    at its first separator into head and rest. *)
Fixpoint divideOn (separator : ascii) (str : string) : string * string :=
  match str with
  | EmptyString => (EmptyString, EmptyString)
  | String c str =>
    if bool_decide (c = separator) then (EmptyString, str)
    else let '(head, rest) := divideOn separator str in (String c head, rest)
  end.

(** [LocalScope.resolveQualified]; [fuel] bounds the recursion on [rest]. *)
Fixpoint resolveQualified_fuel (fuel : nat) (st : Store) (this : nat)
    (qualifiedName : string) (allowLookup : bool) : Result Node :=
  match fuel with
  | 0 => Throw RangeError
  | S fuel =>
    let '(start, rest) := divideOn "."%char qualifiedName in
    root ← resolve (heap st) this start allowLookup;
    match root with
    | None => Throw (CouldNotResolve start)
    | Some root =>
      match String.length rest with
      | 0 => Ok root
      | _ => s ← theScope st root; resolveQualified_fuel fuel st s rest false
      end
    end
  end.

Definition resolveQualified (st : Store) (this : nat) (qualifiedName : string)
    (allowLookup : bool) : Result Node :=
  resolveQualified_fuel (S (String.length qualifiedName)) st this qualifiedName allowLookup.

(** ** Traversals *)

(** Modelled from the spec: [forEach] of [model.ts], one full traversal in
    (node, parent) pairs, top-down: a node comes before its children.  The
    callbacks of the linker never change the shape of the tree, so the
    traversal is the list of the pairs it visits. *)
Fixpoint pairs (parent : option Node) (node : Node) : list (Node * option Node) :=
  (node, parent) ::
    (flat_map (pairs (Some node)) (imports node) ++
     match entity node with
     | Some e => pairs (Some node) e
     | None => []
     end ++
     flat_map (pairs (Some node)) (others node) ++
     flat_map (pairs (Some node)) (members node)).

(** The child nodes of a node, in the order [pairs] visits them. *)
Definition children (node : Node) : list Node :=
  imports node ++ option_list (entity node) ++ others node ++ members node.

(** [forEach] with a callback that may throw. *)
Fixpoint forEach {S A : Type} (tx : S → A → Result S) (visited : list A) (st : S) : Result S :=
  match visited with
  | [] => Ok st
  | a :: visited => st ← tx st a; forEach tx visited st
  end.

(** The nodes of a tree, and their ids, in the order of the traversal. *)
Definition nodes (node : Node) : list Node := fst <$> pairs None node.
Definition ids (node : Node) : list string := id <$> nodes node.

Section transform.
(** The identifiers [uuid()] returns, call after call. *)
Context (uuid : nat → string).

Definition transformAll (transform : Node → nat → Node * nat) :=
  fix go (l : list Node) (calls : nat) : list Node * nat :=
    match l with
    | [] => ([], calls)
    | n :: l =>
      let '(n, calls) := transform n calls in
      let '(l, calls) := go l calls in
      (n :: l, calls)
    end.

(** Modelled from the spec: [transform] of [model.ts] with the callback
    [node => node.copy({ id: uuid() })], a rebuild of the whole tree in
    which every node gets a freshly generated id.  [calls] counts the calls
    of [uuid] made so far. *)
Fixpoint transform (node : Node) (calls : nat) : Node * nat :=
  let '(imports', calls1) := transformAll transform (imports node) (S calls) in
  let '(entity', calls2) :=
    match entity node with
    | Some e => let '(e, c) := transform e calls1 in (Some e, c)
    | None => (None, calls1)
    end in
  let '(others', calls3) := transformAll transform (others node) calls2 in
  let '(members', calls4) := transformAll transform (members node) calls3 in
  (mkNode (kind node) (uuid calls) (name node) (source node) (isGeneric node)
     imports' members' entity' others', calls4).
End transform.

(** The callback of the first traversal of [link], which fills the caches. *)
Definition cacheNode (environment : Node) (st : Store) (visited : Node * option Node) : Store :=
  let '(node, parent) := visited in
  mkStore
    (match parent with
     | Some parent => <[id node := parent]> (parentOf st)
     | None => parentOf st
     end)
    (<[id node := environment]> (environmentOf st))
    (<[id node := node]> (nodeById st))
    (scopeOf st) (heap st).

(** The store after the first traversal of [link]. *)
Definition cached (environment : Node) : Store :=
  fold_left (cacheNode environment) (pairs None environment) emptyStore.

(** Modelled from the spec: [Node.parent()] of [model.ts], the parent
    memoized for the node; it throws when nothing was memoized. *)
Definition parent (st : Store) (node : Node) : Result Node :=
  match parentOf st !! id node with
  | Some p => Ok p
  | None => Throw TypeError
  end.

(** Modelled from the spec: [Environment.getNodeById] of [model.ts], which
    answers from the index and has a distinguished not-found result. *)
Definition getNodeById (st : Store) (i : string) : option Node := nodeById st !! i.

(** ** Scope assignment *)

Definition scopeContribution (contributor : Node) : list (string * Node) :=
  if is_Entity contributor || is_a Kind.Field contributor || is_a Kind.Param contributor then
    match name contributor with
    | Some n => if bool_decide (n = EmptyString) then [] else [(n, contributor)]
    | None => []
    end
  else [].

(** First traversal of [assignScopes]. *)
Definition scopeSkeleton (st : Store) (visited : Node * option Node) : Result Store :=
  let '(node, parent0) := visited in
  container ←
    (if is_a Kind.Reference node then
       match parent0 with
       | None => Throw TypeError
       | Some p =>
         if is_a Kind.Class p || is_a Kind.Mixin p
         then grandparent ← parent st p; Ok (scope st grandparent)
         else Ok (scope st p)
       end
     else Ok (p ← parent0; scope st p));
  let '(s, st) := newLocalScope container st in
  let st := assignScope node s st in
  if is_Entity node then
    match parent0 with
    | None => Throw TypeError
    | Some p => ps ← theScope st p; Ok (registerIn ps (scopeContribution node) st)
    end
  else Ok st.

Definition GLOBAL_PACKAGES : list string := ["wollok.lang"; "wollok.lib"]%string.

(** Modelled from the spec: the kinds of [model.ts] that carry a member
    list; reading [members] of any other node gives [undefined], and calling a
    method on that throws. *)
Definition theMembers (node : Node) : Result (list Node) :=
  if is_a Kind.Environment node || is_a Kind.Package node || is_Module node
     || is_a Kind.Describe node
  then Ok (members node) else Throw TypeError.

(** Modelled from the spec: [discriminate] of [extensions.ts], the partition
    of a list by a predicate, each part in the order of the list. *)
Definition discriminate {A} (isA : A → bool) (l : list A) : list A * list A :=
  (filter (λ a, isA a = true) l, filter (λ a, isA a = false) l).

(** [imported.scope.resolveQualified(imported.entity.name)]. *)
Definition resolveImport (st : Store) (imported : Node) : Result Node :=
  s ← theScope st imported;
  match entity imported with
  | Some e =>
    match name e with
    | Some n => resolveQualified st s n true
    | None => Throw TypeError
    end
  | None => Throw TypeError
  end.

(** [imported.scope.resolveQualified(imported.entity.name)!.scope].  Every
    node of the environment has its scope once the first traversal is over;
    for a target without one the source would include [undefined] and
    throw at the next resolution through it, here it throws at once. *)
Definition importedScope (st : Store) (imported : Node) : Result nat :=
  target ← resolveImport st imported; theScope st target.

(** The binding a simple import gives, [[entity.name!, entity]].  An entity
    without a name is set under the key [undefined], which no lookup by a
    string reaches: it gives no binding here. *)
Definition importBinding (entity0 : Node) : list (string * Node) :=
  match name entity0 with
  | Some n => [(n, entity0)]
  | None => []
  end.

Section assignScopes.
(** Modelled from the spec: [Module.hierarchy()] of [model.ts], the ordered
    list of the module and its ancestors, most specific first.  It reads
    the scopes that exist when it is called, and may throw. *)
Context (hierarchy : Store → Node → Result (list Node)).
Context (environment : Node).

Definition linkEnvironment (st : Store) (node : Node) : Result Store :=
  s ← theScope st node;
  es ← theScope st environment;
  globals ← mapM (λ globalPackage,
      p ← resolveQualified st es globalPackage true;
      ms ← theMembers p;
      Ok (flat_map scopeContribution ms)) GLOBAL_PACKAGES;
  Ok (registerIn s (concat globals) st).

Definition linkImports (st : Store) (node : Node) : Result Store :=
  let '(genericImports, simpleImports) := discriminate isGeneric (imports node) in
  let packageScope := scope st node in
  let '(importScope, st) := newLocalScope None st in
  entities ← mapM (resolveImport st) simpleImports;
  let st := registerIn importScope (flat_map importBinding entities) st in
  match packageScope with
  | Some ps =>
    generics ← mapM (importedScope st) genericImports;
    Ok (setHeap (alter (unshift (importScope :: generics)) ps (heap st)) st)
  | None => Throw TypeError
  end.

(** As in [importedScope], an ancestor without a scope throws at once. *)
Definition linkHierarchy (st : Store) (node : Node) : Result Store :=
  s ← theScope st node;
  ancestors ← hierarchy st node;
  supertypes ← mapM (theScope st) (drop 1 ancestors);
  Ok (setHeap (alter (push supertypes) s (heap st)) st).

(** Second traversal of [assignScopes]. *)
Definition crossLinks (st : Store) (visited : Node * option Node) : Result Store :=
  let '(node, parent0) := visited in
  st ← (if is_a Kind.Environment node then linkEnvironment st node else Ok st);
  st ← (if is_a Kind.Package node && negb (bool_decide (imports node = []))
        then linkImports st node else Ok st);
  st ← (if is_Module node then linkHierarchy st node else Ok st);
  match parent0 with
  | Some p =>
    if negb (is_Entity node)
    then ps ← theScope st p; Ok (registerIn ps (scopeContribution node) st)
    else Ok st
  | None => Ok st
  end.

Definition assignScopes (st : Store) : Result Store :=
  st ← forEach scopeSkeleton (pairs None environment) st;
  forEach crossLinks (pairs None environment) st.
End assignScopes.

(** ** The linker *)

(** Modelled from the spec: [Reference.target()] of [model.ts], the node the
    reference's (possibly qualified) name resolves to starting from the
    reference's own scope, or [undefined] when it does not resolve. *)
Definition target (st : Store) (node : Node) : option Node :=
  s ← scope st node;
  n ← name node;
  match resolveQualified st s n true with
  | Ok t => Some t
  | Throw _ => None
  end.

(** [node.is('Reference') && !node.target()]. *)
Definition unlinked (st : Store) (visited : Node * option Node) : bool :=
  is_a Kind.Reference visited.1 && negb (bool_decide (is_Some (target st visited.1))).

(** The callback of the last traversal of [link]. *)
Definition checkReference (st : Store) (u : unit) (visited : Node * option Node) : Result unit :=
  if unlinked st visited
  then Throw (UnlinkedReference (name visited.1) (source visited.1))
  else Ok u.

Section link.
Context (uuid : nat → string).
Context (hierarchy : Store → Node → Result (list Node)).

(** The environment [link] builds before any cache or scope is set. *)
Definition newEnvironment (newPackages : list Node) (baseEnvironment : option Node) : Node :=
  (transform uuid
     (mkNode Kind.Environment (uuid 0) None None false []
        (fold_left mergePackage newPackages
           (match baseEnvironment with Some b => members b | None => [] end))
        None [])
     1).1.

(** The default export.  What it returns is the environment together with
    what was attached to its nodes. *)
Definition link (newPackages : list Node) (baseEnvironment : option Node)
    : Result (Node * Store) :=
  let environment := newEnvironment newPackages baseEnvironment in
  let st := cached environment in
  st ← assignScopes hierarchy environment st;
  _ ← forEach (checkReference st) (pairs None environment) ();
  Ok (environment, st).
End link.

(** ** What the traversals of [assignScopes] establish *)

(** The container the first traversal gives to the scope of a visited node. *)
Definition containerOf (st : Store) (visit : list (Node * option Node))
    (visited : Node * option Node) (sc : LocalScope) : Prop :=
  match visited.2 with
  | None => containerScope sc = None
  | Some p =>
    if is_a Kind.Reference visited.1 && (is_a Kind.Class p || is_a Kind.Mixin p) then
      ∃ grandparent,
        (p, Some grandparent) ∈ visit ∧
        is_Some (scope st grandparent) ∧ containerScope sc = scope st grandparent
    else is_Some (scope st p) ∧ containerScope sc = scope st p
  end.

(** The scope skeleton over the visited nodes: every node has its own scope
    object, whose container is as [containerOf] says. *)
Record skeleton (visit : list (Node * option Node)) (st : Store) : Prop := {
  sk_bound : ∀ i s, scopeOf st !! i = Some s → s < length (heap st);
  sk_inj : ∀ i j s, scopeOf st !! i = Some s → scopeOf st !! j = Some s → i = j;
  sk_wf : heap_wf (heap st);
  sk_container : ∀ v, v ∈ visit →
    ∃ s sc, scope st v.1 = Some s ∧ heap st !! s = Some sc ∧ containerOf st visit v sc;
}.

(** Between two visits of the first traversal, which started in [st0] and
    has visited [pre]. *)
Record skeletonSoFar (st0 : Store) (visit pre : list (Node * option Node))
    (st : Store) : Prop := {
  sf_parents : parentOf st = parentOf st0;
  sf_dom : ∀ i, is_Some (scopeOf st !! i) → i ∈ (λ v : Node * option Node, id v.1) <$> pre;
  sf_bound : ∀ i s, scopeOf st !! i = Some s → s < length (heap st);
  sf_inj : ∀ i j s, scopeOf st !! i = Some s → scopeOf st !! j = Some s → i = j;
  sf_wf : heap_wf (heap st);
  sf_included : ∀ i sc, heap st !! i = Some sc → includedScopes sc = [];
  sf_container : ∀ v, v ∈ pre →
    ∃ s sc, scope st v.1 = Some s ∧ heap st !! s = Some sc ∧ containerOf st visit v sc;
}.

(** What a step on the store may change: no scope slot, no cache, no
    container; the own bindings of the scopes in [C] and the included scopes
    of the scopes in [I] only. *)
Definition touches (C I : nat → Prop) (st st' : Store) : Prop :=
  scopeOf st' = scopeOf st ∧ parentOf st' = parentOf st ∧
  length (heap st) ≤ length (heap st') ∧
  ∀ i sc, heap st !! i = Some sc →
    ∃ sc', heap st' !! i = Some sc' ∧
      containerScope sc' = containerScope sc ∧
      (¬ C i → contributions sc' = contributions sc) ∧
      (¬ I i → includedScopes sc' = includedScopes sc).

(** The container of the scope of a visited node: the scope of its parent;
    for a Reference right under a Class or a Mixin, the scope of the parent of
    that parent, which is not the scope of the Class or Mixin. *)
Definition hasLexicalContainer (st : Store) (visit : list (Node * option Node))
    (visited : Node * option Node) : Prop :=
  ∃ s sc,
    scope st visited.1 = Some s ∧ heap st !! s = Some sc ∧
    match visited.2 with
    | None => containerScope sc = None
    | Some p =>
      ∃ sp, scope st p = Some sp ∧
        if is_a Kind.Reference visited.1 && (is_a Kind.Class p || is_a Kind.Mixin p) then
          ∃ grandparent sg,
            (p, Some grandparent) ∈ visit ∧ scope st grandparent = Some sg ∧
            containerScope sc = Some sg ∧ sg ≠ sp
        else containerScope sc = Some sp
    end.

(** Whether the visit of [v] in the second traversal registers the name [x]
    in the scope of the node [P]: [v] is a child of [P], not an entity, and
    contributes [x]. *)
Definition contributesTo (P : Node) (x : string) (v : Node * option Node) : bool :=
  match v.2 with
  | Some p => bool_decide (id p = id P)
  | None => false
  end && negb (is_Entity v.1) && bool_decide ((scopeContribution v.1).*1 = [x]).

(** During the second traversal: the last child of [P] visited so far that
    registers [x] is what the scope of [P] binds [x] to. *)
Definition lastContribution (P : Node) (x : string) (pre : list (Node * option Node))
    (st : Store) : Prop :=
  ∀ v, last (filter (λ v, contributesTo P x v = true) pre) = Some v →
    ∃ sp sc, scope st P = Some sp ∧ heap st !! sp = Some sc ∧
      contributions sc !! x = Some v.1.

(** What the visit of the package [P] in the second traversal leaves in the
    store [st], the imports having been resolved in the store [stp]: the
    scope of [P] includes the import scope, which holds the simple imports,
    and then the scopes of the targets of the generic imports, in order. *)
Definition importsLinked (stp st : Store) (P : Node) (sp : nat) (sc : LocalScope)
    (importScope : nat) (isc : LocalScope) (entities : list Node) (generics : list nat)
    : Prop :=
  scope st P = Some sp ∧ heap st !! sp = Some sc ∧ heap st !! importScope = Some isc ∧
  mapM (resolveImport stp) (discriminate isGeneric (imports P)).2 = Ok entities ∧
  mapM (importedScope stp) (discriminate isGeneric (imports P)).1 = Ok generics ∧
  contributions isc
    = fold_left (λ m c, <[c.1 := c.2]> m) (flat_map importBinding entities) ∅ ∧
  includedScopes sc = importScope :: generics ∧
  (∀ i, scopeOf st !! i ≠ Some importScope).

(** During the second traversal, started in [st1]: before the visit of [P]
    its scope includes nothing, after it the imports are linked. *)
Definition importsSoFar (hierarchy : Store → Node → Result (list Node))
    (environment : Node) (st1 : Store) (P : Node) (par : option Node)
    (pre : list (Node * option Node)) (st : Store) : Prop :=
  ((P, par) ∉ pre →
     ∀ sp sc, scope st P = Some sp → heap st !! sp = Some sc → includedScopes sc = []) ∧
  ((P, par) ∈ pre →
     ∃ pre0 suf0 stp sp sc importScope isc entities generics,
       pairs None environment = pre0 ++ (P, par) :: suf0 ∧
       forEach (crossLinks hierarchy environment) pre0 st1 = Ok stp ∧
       importsLinked stp st P sp sc importScope isc entities generics).

(** The ids of a rebuilt tree are the results of consecutive calls of [uuid],
    in the order of the traversal. *)
Definition freshIds (uuid : nat → string) (node : Node) : Prop :=
  ∀ calls par,
    calls < (transform uuid node calls).2 ∧
    (λ v : Node * option Node, id v.1) <$> pairs par (transform uuid node calls).1
      = uuid <$> seq calls ((transform uuid node calls).2 - calls).

(** Whether the visit of [v] in the first traversal registers the name [x]
    in the scope of the node [P]: [v] is a child of [P], an entity, and
    contributes [x]. *)
Definition registersEntity (P : Node) (x : string) (v : Node * option Node) : bool :=
  match v.2 with
  | Some p => bool_decide (id p = id P)
  | None => false
  end && is_Entity v.1 && bool_decide ((scopeContribution v.1).*1 = [x]).

(** During the first traversal: the last entity child of [P] visited so far
    that contributes [x] is what the scope of [P] binds [x] to. *)
Definition lastEntity (P : Node) (x : string) (pre : list (Node * option Node))
    (st : Store) : Prop :=
  ∀ v, last (filter (λ v, registersEntity P x v = true) pre) = Some v →
    ∃ sp sc, scope st P = Some sp ∧ heap st !! sp = Some sc ∧
      contributions sc !! x = Some v.1.

(** What [link] caches on the nodes. *)
Definition caches (st : Store) : gmap string Node * gmap string Node * gmap string Node :=
  (parentOf st, environmentOf st, nodeById st).
(** What the children of [P] visited so far declare for the name [x]: the
    last entity among them that contributes [x], which the first traversal
    registers, and the last child among them that is no entity and
    contributes [x], which the second traversal registers. *)
Definition entityBound (P : Node) (x : string) (pre : list (Node * option Node))
    : option Node :=
  fst <$> last (filter (λ v, registersEntity P x v = true) pre).

Definition memberBound (P : Node) (x : string) (pre : list (Node * option Node))
    : option Node :=
  fst <$> last (filter (λ v, contributesTo P x v = true) pre).

(** During the first traversal: the scope of [P] binds [x] to the last
    entity child visited so far that contributes it, and to nothing when
    there is none. *)
Definition entityBindings (P : Node) (x : string) (pre : list (Node * option Node))
    (st : Store) : Prop :=
  ∀ sp sc, scope st P = Some sp → heap st !! sp = Some sc →
    contributions sc !! x = entityBound P x pre.

(** During the second traversal: the scope of [P] binds [x] to the last
    child visited so far that is no entity and contributes it, and to what
    it was bound to before, [base], when there is none. *)
Definition memberBindings (base : option Node) (P : Node) (x : string)
    (pre : list (Node * option Node)) (st : Store) : Prop :=
  ∀ sp sc, scope st P = Some sp → heap st !! sp = Some sc →
    contributions sc !! x =
      match memberBound P x pre with
      | Some c => Some c
      | None => base
      end.
(** A tree with its ids blanked: what two trees that differ in their ids
    only have in common. *)
Fixpoint withoutIds (node : Node) : Node :=
  mkNode (kind node) EmptyString (name node) (source node) (isGeneric node)
    (map withoutIds (imports node)) (map withoutIds (members node))
    (option_map withoutIds (entity node)) (map withoutIds (others node)).
(** During the second traversal, started in [st1], for a node [N] that is
    not a package with imports: before the visit of [N] its scope includes
    nothing; after it, the scopes of the ancestors [hierarchy] answered at
    the visit, the node itself left out, when [N] is a module, and nothing
    otherwise. *)
Definition includesSoFar (hierarchy : Store → Node → Result (list Node))
    (environment : Node) (st1 : Store) (N : Node) (par : option Node)
    (pre : list (Node * option Node)) (st : Store) : Prop :=
  ((N, par) ∉ pre →
     ∀ s sc, scope st N = Some s → heap st !! s = Some sc → includedScopes sc = []) ∧
  ((N, par) ∈ pre →
     ∃ pre0 suf0 stp s sc,
       pairs None environment = pre0 ++ (N, par) :: suf0 ∧
       forEach (crossLinks hierarchy environment) pre0 st1 = Ok stp ∧
       scope st N = Some s ∧ heap st !! s = Some sc ∧
       if is_Module N then
         ∃ ancestors,
           hierarchy stp N = Ok ancestors ∧
           Forall2 (λ a t, scope st a = Some t) (drop 1 ancestors) (includedScopes sc)
       else includedScopes sc = []).

(** Whether the pair [v] of a traversal is a child of [P] with [P] as its
    parent. *)
Definition isChildOf (P : Node) (v : Node * option Node) : bool :=
  match v.2 with
  | Some p => bool_decide (id p = id P)
  | None => false
  end.

(** What a node declares for a name: the last of its children that is a
    Field or a Parameter and contributes the name; when there is none, the
    last of its children that is an entity and contributes the name. *)
Definition declaresMember (x : string) (c : Node) : bool :=
  negb (is_Entity c) && bool_decide ((scopeContribution c).*1 = [x]).

Definition declaresEntity (x : string) (c : Node) : bool :=
  is_Entity c && bool_decide ((scopeContribution c).*1 = [x]).

Definition declaredMember (P : Node) (x : string) : option Node :=
  last (filter (λ c, declaresMember x c = true) (children P)).

Definition declaredEntity (P : Node) (x : string) : option Node :=
  last (filter (λ c, declaresEntity x c = true) (children P)).

Definition declared (P : Node) (x : string) : option Node :=
  match declaredMember P x with
  | Some c => Some c
  | None => declaredEntity P x
  end.

(** Every scope of the heap binds nodes of the tree only, each under the
    name it contributes itself. *)
Definition bindsNodesOf (environment : Node) (h : list LocalScope) : Prop :=
  ∀ i sc x n, h !! i = Some sc → contributions sc !! x = Some n →
    n ∈ nodes environment ∧ scopeContribution n = [(x, n)].
(** What a qualified name walks to below a node: each segment names a
    child the node at hand declares. *)
Fixpoint descend (P : Node) (segments : list string) : Result Node :=
  match segments with
  | [] => Ok P
  | x :: segments =>
    match declared P x with
    | Some c => descend c segments
    | None => Throw (CouldNotResolve x)
    end
  end.

(** What an import resolves to in the store [st]: the qualified name of the
    entity it names, resolved from the scope of the Import node itself. *)
Definition importResolves (st : Store) (imported target : Node) : Prop :=
  ∃ s e q,
    scope st imported = Some s ∧ entity imported = Some e ∧ name e = Some q ∧
    resolveQualified st s q true = Ok target.

(** What the first of [targets] that declares [x] declares for it. *)
Fixpoint firstDeclared (x : string) (targets : list Node) : option Node :=
  match targets with
  | [] => None
  | t :: targets =>
    match declared t x with
    | Some c => Some c
    | None => firstDeclared x targets
    end
  end.

(** ** Samples *)

(** A check of [heap_wf] that computes. *)

Definition scope_wfb (len i : nat) (sc : LocalScope) : bool :=
  match containerScope sc with
  | Some c => bool_decide (c < i)
  | None => true
  end && forallb (λ j, bool_decide (j < len)) (includedScopes sc).

Definition heap_wfb (h : list LocalScope) : bool :=
  forallb (λ x, scope_wfb (length h) x.1 x.2) (imap pair h).

(** Sample nodes and a sample heap: an ancestor [1] of the scope [2] includes
    the scope [0], which is also the container of [2]. *)
Module Sample.
Definition entityNamed (k : Kind.t) (n : string) (ms : list Node) : Node :=
  mkNode k EmptyString (Some n) None false [] ms None [].

Definition nX : Node := entityNamed Kind.Class "X" [].
Definition nY : Node := entityNamed Kind.Class "Y" [].

Definition import (generic : bool) (n : string) : Node :=
  mkNode Kind.Import EmptyString None None generic [] []
    (Some (mkNode Kind.Reference EmptyString (Some n) None false [] [] None [])) [].

Definition package (n : string) (imports0 ms : list Node) : Node :=
  mkNode Kind.Package EmptyString (Some n) None false imports0 ms None [].

Definition field (n : string) : Node :=
  mkNode Kind.Field EmptyString (Some n) None false [] [] None [].

Definition scopes : list LocalScope :=
  [ mkScope {[ "Y"%string := nY ]} [] None;
    mkScope ∅ [0] None;
    mkScope {[ "X"%string := nX ]} [1] (Some 0) ].
End Sample.

Module SampleEnvironment.
Import Sample.

Definition reference (n : string) : Node :=
  mkNode Kind.Reference EmptyString (Some n) (Some "sample.wlk"%string) false [] [] None [].

Definition class (n : string) (supertypes ms : list Node) : Node :=
  mkNode Kind.Class EmptyString (Some n) None false [] ms None supertypes.

Definition wollok : Node :=
  package "wollok" []
    [package "lang" [] [class "Object" [] []]; package "lib" [] []].

(** Package [a] imports [b.X] by name and all of [c]; both [b] and [c] have a
    class [X].  Class [A] extends [X] and has a field [f]; class [B] has two
    fields named [g]. *)
Definition a : Node :=
  package "a" [import false "b.X"; import true "c"]
    [class "A" [reference "X"] [field "f"]; class "B" [] [field "g"; field "g"]].
Definition b : Node := package "b" [] [class "X" [] [field "inB"]].
Definition c : Node := package "c" [] [class "X" [] [field "inC"]; class "Y" [] []].

Definition uuid (calls : nat) : string := pretty calls.

Definition hierarchy (st : Store) (node : Node) : Result (list Node) := Ok [node].

Definition environment : Node := newEnvironment uuid [wollok; a; b; c] None.
End SampleEnvironment.

(** The sample packages, linked; and the same with a class whose supertype
    does not exist. *)
Module SampleLink.
Import Sample SampleEnvironment.

Definition linked : Result (Node * Store) := link uuid hierarchy [wollok; a; b; c] None.

Definition broken : Result (Node * Store) :=
  link uuid hierarchy [wollok; package "z" [] [class "Z" [reference "Nowhere"] []]] None.

(** The id of what [name] resolves to from the scope of the node with the id
    [from], in the linked sample. *)
Definition resolved (from name : string) : option string :=
  match linked with
  | Ok (_, st) =>
    s ← scopeOf st !! from;
    match resolve (heap st) s name true with
    | Ok (Some t) => Some (id t)
    | _ => None
    end
  | Throw _ => None
  end.
End SampleLink.

(** An environment without the global packages. *)
Module SampleBare.
Definition environment : Node :=
  newEnvironment SampleEnvironment.uuid [Sample.package "z" [] [Sample.nX]] None.
End SampleBare.

(** A package whose import names nothing. *)
Module SampleDangling.
Definition environment : Node :=
  newEnvironment SampleEnvironment.uuid
    [SampleEnvironment.wollok;
     Sample.package "z" [Sample.import false "nowhere.X"] [Sample.nX]] None.
End SampleDangling.

(** Package [p] declares a class [X] itself, imports [q.X] by name and all
    of [r]; both [q] and [r] have a class [X]. *)
Module SampleOwnBinding.
Import Sample SampleEnvironment.

Definition p : Node :=
  package "p" [import false "q.X"; import true "r"] [class "X" [] [field "inP"]].
Definition q : Node := package "q" [] [class "X" [] [field "inQ"]].
Definition r : Node := package "r" [] [class "X" [] [field "inR"]].

Definition environment : Node := newEnvironment uuid [wollok; p; q; r] None.
End SampleOwnBinding.
(** A [hierarchy] that follows the supertypes: the module, then what each
    of its supertype References resolves to. *)
Module SampleHierarchy.
Definition hierarchy (st : Store) (node : Node) : Result (list Node) :=
  Ok (node :: omap (target st) (others node)).
End SampleHierarchy.

(* ================================================================== *)
(** * The node builders of [src/builders.ts]

    The builders make plain objects.  An object is the list of its own
    properties in the order of their creation; a property that is set to
    [undefined] is a property all the same, which [keys] lists. *)

Module Builders.

Inductive Value :=
| Undefined
| Bool (b : bool)
| Num (n : nat)
| Str (s : string)
| Arr (items : list Value)
| Obj (props : list (string * Value)).

Definition Object := list (string * Value).

(** [o[key]]: the value of the property, [undefined] when there is none. *)
Fixpoint get (key : string) (o : Object) : Value :=
  match o with
  | [] => Undefined
  | (k, v) :: o => if bool_decide (k = key) then v else get key o
  end.

(** [keys(o).includes(key)]. *)
Definition has (key : string) (o : Object) : bool := bool_decide (key ∈ o.*1).

(** The assignment [o[key] = v] of an object literal or a spread: an
    existing property keeps its place and takes the value, a new one is put
    last. *)
Fixpoint set (key : string) (v : Value) (o : Object) : Object :=
  match o with
  | [] => [(key, v)]
  | (k, w) :: o => if bool_decide (k = key) then (k, v) :: o else (k, w) :: set key v o
  end.

(** [{ ...o, ...source }]: the properties of [source] are assigned in
    their order. *)
Definition spread (o source : Object) : Object :=
  fold_left (λ o p, set p.1 p.2 o) source o.

(** An optional argument that is an object: spreading [undefined] adds
    nothing. *)
Definition spreadOptional (o : Object) (payload : option Object) : Object :=
  match payload with
  | Some payload => spread o payload
  | None => o
  end.

(** [const { key, ...rest } = o]: [rest]. *)
Fixpoint omit (key : string) (o : Object) : Object :=
  match o with
  | [] => []
  | (k, v) :: o => if bool_decide (k = key) then omit key o else (k, v) :: omit key o
  end.

(** Whether a value counts as true in a condition. *)
Definition truthy (v : Value) : bool :=
  match v with
  | Undefined => false
  | Bool b => b
  | Num n => negb (bool_decide (n = 0))
  | Str s => negb (bool_decide (s = EmptyString))
  | Arr _ | Obj _ => true
  end.

(** [v === undefined]. *)
Definition isUndefined (v : Value) : bool :=
  match v with
  | Undefined => true
  | _ => false
  end.

(** An array of objects. *)
Definition objects (l : list Object) : Value := Arr (Obj <$> l).

(** [makeNode(kind)(payload)], which is [{ ...payload, kind }]. *)
Definition makeNode (kind : string) (payload : Object) : Object :=
  set "kind" (Str kind) (spread [] payload).

(** ** Common *)

Definition Reference (name : string) : Object :=
  makeNode "Reference" [("name", Str name)]%string.

Definition Parameter' (name : string) (payload : option Object) : Object :=
  makeNode "Parameter"
    (spreadOptional [("name", Str name); ("isVarArg", Bool false)]%string payload).

Definition NamedArgument (name : string) (value : Object) : Object :=
  makeNode "NamedArgument" [("name", Str name); ("value", Obj value)]%string.

Definition Import (reference : Object) (payload : option Object) : Object :=
  makeNode "Import"
    (spreadOptional [("reference", Obj reference); ("isGeneric", Bool false)]%string payload).

Definition Body (sentences : list Object) : Object :=
  makeNode "Body" [("sentences", objects sentences)]%string.

(** ** Entities *)

Definition Package (name : string) (payload : option Object) (members : list Object)
    : Object :=
  makeNode "Package"
    (spreadOptional
       [("name", Str name); ("members", objects members); ("imports", Arr [])]%string
       payload).

Definition Class (name : string) (payload : option Object) (members : list Object)
    : Object :=
  makeNode "Class"
    (spreadOptional
       [("name", Str name); ("members", objects members); ("mixins", Arr [])]%string
       payload).

(** The name of a singleton is optional, and a name that counts as false —
    [undefined], the empty string — gives no [name] property. *)
Definition Singleton (name : option string) (payload : option Object)
    (members : list Object) : Object :=
  makeNode "Singleton"
    (spreadOptional
       (spread [("members", objects members); ("mixins", Arr [])]%string
          (match name with
           | Some n => if truthy (Str n) then [("name", Str n)]%string else []
           | None => []
           end))
       payload).

Definition Mixin (name : string) (payload : option Object) (members : list Object)
    : Object :=
  makeNode "Mixin"
    (spreadOptional
       [("name", Str name); ("members", objects members); ("mixins", Arr [])]%string
       payload).

Definition Program (name : string) (payload : option Object) (sentences : list Object)
    : Object :=
  makeNode "Program"
    (spreadOptional [("name", Str name); ("body", Obj (Body sentences))]%string payload).

Definition Test (name : string) (payload : option Object) (sentences : list Object)
    : Object :=
  makeNode "Test"
    (spreadOptional [("name", Str name); ("body", Obj (Body sentences))]%string payload).

Definition Describe (name : string) (payload : option Object) (members : list Object)
    : Object :=
  makeNode "Describe"
    (spreadOptional [("name", Str name); ("members", objects members)]%string payload).

(** ** Members *)

Definition Field (name : string) (payload : option Object) : Object :=
  makeNode "Field"
    (spreadOptional
       [("name", Str name); ("isReadOnly", Bool false); ("isProperty", Bool false)]%string
       payload).

(** [Method]: the payload is split into its [body] and the rest; the method
    gets no body when the payload has a [body] property that is
    [undefined], and the body made of the sentences in every other case. *)
Definition Method (name : string) (payload : option Object) (sentences : list Object)
    : Object :=
  let source := default [("body", Undefined)]%string payload in
  let body := get "body" source in
  let otherPayload := omit "body" source in
  let noBody :=
    match payload with
    | Some payload => has "body" payload && isUndefined body
    | None => false
    end in
  makeNode "Method"
    (spread
       (spread
          [("name", Str name); ("isOverride", Bool false); ("isNative", Bool false);
           ("parameters", Arr [])]%string
          (if noBody then [] else [("body", Obj (Body sentences))]%string))
       otherPayload).

Definition Constructor (payload : option Object) (sentences : list Object) : Object :=
  makeNode "Constructor"
    (spreadOptional [("body", Obj (Body sentences)); ("parameters", Arr [])]%string payload).

(** The argument of [Fixture] is not read. *)
Definition Fixture (_ : option Object) (sentences : list Object) : Object :=
  makeNode "Fixture" [("body", Obj (Body sentences))]%string.

(** ** Sentences *)

Definition Variable' (name : string) (payload : option Object) : Object :=
  makeNode "Variable"
    (spreadOptional [("name", Str name); ("isReadOnly", Bool false)]%string payload).

(** [Return(value = undefined)]: the [value] property is always there. *)
Definition Return (value : option Object) : Object :=
  makeNode "Return"
    [("value", match value with Some v => Obj v | None => Undefined end)]%string.

Definition Assignment (reference value : Object) : Object :=
  makeNode "Assignment" [("reference", Obj reference); ("value", Obj value)]%string.

(** ** Expressions *)

Definition Self : Object := makeNode "Self" [].

Definition Literal (value : Value) : Object :=
  makeNode "Literal" [("value", value)]%string.

Definition Send (receiver : Object) (message : string) (args : option (list Object))
    : Object :=
  makeNode "Send"
    [("receiver", Obj receiver); ("message", Str message);
     ("args", objects (default [] args))]%string.

Definition Super (args : option (list Object)) : Object :=
  makeNode "Super" [("args", objects (default [] args))]%string.

Definition New (className : Object) (args : list Object) : Object :=
  makeNode "New" [("instantiated", Obj className); ("args", objects args)]%string.

(** [elseBody && Body(...elseBody)]: an array counts as true, also the
    empty one. *)
Definition If (condition : Object) (thenBody : list Object)
    (elseBody : option (list Object)) : Object :=
  makeNode "If"
    [("condition", Obj condition); ("thenBody", Obj (Body thenBody));
     ("elseBody", match elseBody with
                  | Some sentences => Obj (Body sentences)
                  | None => Undefined
                  end)]%string.

Definition Throw (arg : Object) : Object :=
  makeNode "Throw" [("exception", Obj arg)]%string.

(** [Try]: of the payload the properties [catches] and [always] are read,
    nothing else: [payload.catches || []], where an array counts as true,
    and [payload.always && Body(...payload.always)]. *)
Definition Try (sentences : list Object) (catches always : option (list Object))
    : Object :=
  makeNode "Try"
    [("body", Obj (Body sentences));
     ("catches", objects (default [] catches));
     ("always", match always with
                | Some sentences => Obj (Body sentences)
                | None => Undefined
                end)]%string.

Definition Catch (parameter : Object) (payload : option Object) (sentences : list Object)
    : Object :=
  makeNode "Catch"
    (spreadOptional [("body", Obj (Body sentences)); ("parameter", Obj parameter)]%string
       payload).

(** ** Synthetics *)

Definition Closure (parameters : list Object) (body : list Object) : Object :=
  Literal (Obj
    (Singleton None
       (Some [("superCall",
               Obj [("superclass", Obj (Reference "wollok.lang.Closure"));
                    ("args", Arr [])]%string)]%string)
       [Method "<apply>" (Some [("parameters", objects parameters)]%string) body])).

Definition ListOf (elems : list Object) : Object :=
  [("kind", Str "New");
   ("instantiated", Obj [("kind", Str "Reference"); ("name", Str "wollok.lang.List")]);
   ("args", objects elems)]%string.

Definition SetOf (elems : list Object) : Object :=
  [("kind", Str "New");
   ("instantiated", Obj [("kind", Str "Reference"); ("name", Str "wollok.lang.Set")]);
   ("args", objects elems)]%string.

Definition Environment (members : list Object) : Object :=
  [("members", objects members); ("kind", Str "Environment"); ("id", Str EmptyString)]%string.

(** ** Utils *)

Definition getter (name : string) : Object :=
  Method name None [Return (Some (Reference name))].

Definition setter (name : string) : Object :=
  Method name (Some [("parameters", objects [Parameter' "value" None])]%string)
    [Assignment (Reference name) (Reference "value")].

(** ** Evaluation *)

Section evaluationBuilders.
Context (environment : Object).

Definition RuntimeObject (id module : string) (fields : option Object)
    (innerValue : option Value) : Object :=
  [("id", Str id); ("module", Str module); ("fields", Obj (default [] fields));
   ("innerValue", default Undefined innerValue)]%string.

Definition Frame (payload : Object) : Object :=
  spread
    [("locals", Obj []); ("nextInstruction", Num 0); ("instructions", Arr []);
     ("resume", Arr []); ("operandStack", Arr [])]%string
    payload.

Definition Evaluation (instances : option Object) (frameStack : list Object) : Object :=
  [("environment", Obj environment); ("instances", Obj (default [] instances));
   ("frameStack", objects (reverse frameStack))]%string.
End evaluationBuilders.

End Builders.

(* ================================================================== *)
(** * Properties of the linker *)

(** ** Resolution: the call depth and the shape of the search *)

Section resolve_facts.
Context (h : list LocalScope) (name : string).

Lemma resolve_fuel_local fuel i :
  resolve_fuel (S fuel) h i name false =
    match h !! i with
    | Some scope => Ok (contributions scope !! name)
    | None => Throw TypeError
    end.
Proof.
  simpl. destruct (h !! i) as [scope|]; [|done].
  by rewrite orb_true_r.
Qed.

Lemma resolve_fuel_unfold fuel this scope allowLookup :
  h !! this = Some scope →
  (∀ j, j ∈ includedScopes scope → j < length h) →
  resolve_fuel (S (S fuel)) h this name allowLookup =
    match contributions scope !! name with
    | Some n => Ok (Some n)
    | None =>
      if allowLookup then
        match first_local h name (includedScopes scope) with
        | Some n => Ok (Some n)
        | None =>
          match containerScope scope with
          | Some container => resolve_fuel (S fuel) h container name allowLookup
          | None => Ok None
          end
        end
      else Ok None
    end.
Proof.
  intros Hthis Hincl.
  change (resolve_fuel (S (S fuel)) h this name allowLookup) with
    (match h !! this with
     | None => Throw TypeError
     | Some scope =>
       let contributed := contributions scope !! name in
       if bool_decide (is_Some contributed) || negb allowLookup then Ok contributed
       else
         (fix loop (scopes : list nat) : Result (option Node) :=
           match scopes with
           | [] =>
             match containerScope scope with
             | Some container => resolve_fuel (S fuel) h container name allowLookup
             | None => Ok None
             end
           | includedScope :: scopes =>
             inherited ← resolve_fuel (S fuel) h includedScope name false;
             match inherited with
             | Some n => Ok (Some n)
             | None => loop scopes
             end
           end) (includedScopes scope)
     end).
  rewrite Hthis. cbv zeta.
  destruct (contributions scope !! name) as [n|] eqn:Hc.
  { rewrite bool_decide_eq_true_2; [done | by eexists]. }
  rewrite bool_decide_eq_false_2; [| by intros [? ?]].
  destruct allowLookup; simpl negb; cbv iota; [|done].
  clear Hthis. revert Hincl.
  generalize (includedScopes scope) as scopes.
  induction scopes as [|i scopes IH]; intros Hincl; [done|].
  rewrite resolve_fuel_local. cbn [first_local]. unfold local.
  destruct (lookup_lt_is_Some_2 h i) as [sc Hsc]; [apply Hincl; left|].
  rewrite Hsc. cbn [mbind Result_bind option_bind].
  destruct (contributions sc !! name); [done|].
  apply IH. intros j Hj. apply Hincl. by right.
Qed.

(** In a well-formed heap the depth needed to resolve from [this] is at
    most [this + 2], and more fuel changes nothing. *)
Lemma resolve_fuel_enough :
  heap_wf h →
  ∀ this f1 f2 allowLookup, this + 2 ≤ f1 → this + 2 ≤ f2 →
    resolve_fuel f1 h this name allowLookup = resolve_fuel f2 h this name allowLookup.
Proof.
  intros Hwf this.
  induction (lt_wf this) as [this _ IH].
  intros f1 f2 allowLookup H1 H2.
  destruct f1 as [|[|f1]]; [lia..|]. destruct f2 as [|[|f2]]; [lia..|].
  destruct (h !! this) as [scope|] eqn:Hthis; [|by simpl; rewrite Hthis].
  destruct (Hwf _ _ Hthis) as [Hcont Hincl].
  rewrite !(resolve_fuel_unfold _ _ scope) by done.
  destruct (contributions scope !! name); [done|].
  destruct allowLookup; [|done].
  destruct (first_local h name (includedScopes scope)); [done|].
  destruct (containerScope scope) as [c|] eqn:Hc; [|done].
  specialize (Hcont c eq_refl). apply IH; lia.
Qed.

Lemma resolve_unfold this scope allowLookup :
  heap_wf h →
  h !! this = Some scope →
  resolve h this name allowLookup =
    match contributions scope !! name with
    | Some n => Ok (Some n)
    | None =>
      if allowLookup then
        match first_local h name (includedScopes scope) with
        | Some n => Ok (Some n)
        | None =>
          match containerScope scope with
          | Some container => resolve h container name allowLookup
          | None => Ok None
          end
        end
      else Ok None
    end.
Proof.
  intros Hwf Hthis. unfold resolve.
  destruct (Hwf _ _ Hthis) as [Hcont Hincl].
  pose proof (lookup_lt_Some _ _ _ Hthis) as Hlt.
  destruct (length h) as [|len] eqn:Hlen; [lia|].
  rewrite (resolve_fuel_unfold _ _ scope) by (rewrite ?Hlen; done).
  destruct (contributions scope !! name); [done|].
  destruct allowLookup; [|done].
  destruct (first_local h name (includedScopes scope)); [done|].
  destruct (containerScope scope) as [c|] eqn:Hc; [|done].
  specialize (Hcont c eq_refl). apply resolve_fuel_enough; [done|lia..].
Qed.

Lemma resolve_returns this allowLookup :
  heap_wf h → this < length h →
  ∃ r, resolve h this name allowLookup = Ok r.
Proof.
  intros Hwf. induction (lt_wf this) as [this _ IH]. intros Hlt.
  destruct (lookup_lt_is_Some_2 h this Hlt) as [scope Hthis].
  rewrite (resolve_unfold _ scope) by done.
  destruct (Hwf _ _ Hthis) as [Hcont _].
  destruct (contributions scope !! name); [by eexists|].
  destruct allowLookup; [|by eexists].
  destruct (first_local h name (includedScopes scope)); [by eexists|].
  destruct (containerScope scope) as [c|] eqn:Hc; [|by eexists].
  specialize (Hcont c eq_refl). apply IH; lia.
Qed.
End resolve_facts.

(** ** Qualified resolution *)

Lemma divideOn_rest_shorter sep q start rest :
  divideOn sep q = (start, rest) →
  String.length rest ≠ 0 → String.length rest < String.length q.
Proof.
  revert start rest. induction q as [|c q IH]; intros start rest; simpl.
  { intros [= <- <-]. done. }
  case_bool_decide.
  - intros [= <- <-] _. lia.
  - destruct (divideOn sep q) as [head rest'] eqn:Hq.
    intros [= <- <-] Hne. specialize (IH _ _ eq_refl Hne). lia.
Qed.

Lemma resolveQualified_fuel_enough st :
  ∀ f1 f2 q this allowLookup,
    String.length q < f1 → String.length q < f2 →
    resolveQualified_fuel f1 st this q allowLookup =
    resolveQualified_fuel f2 st this q allowLookup.
Proof.
  induction f1 as [|f1 IH]; intros [|f2] q this allowLookup H1 H2; [lia..|].
  simpl. destruct (divideOn "." q) as [start rest] eqn:Hq.
  destruct (resolve (heap st) this start allowLookup) as [[root|]|e]; simpl; [|done..].
  destruct (String.length rest) as [|len] eqn:Hlen; [done|].
  destruct (theScope st root) as [s|e]; simpl; [|done].
  pose proof (divideOn_rest_shorter _ _ _ _ Hq) as Hlt.
  apply IH; lia.
Qed.

Lemma resolveQualified_unfold st this q allowLookup :
  resolveQualified st this q allowLookup =
    let '(start, rest) := divideOn "." q in
    root ← resolve (heap st) this start allowLookup;
    match root with
    | None => Throw (CouldNotResolve start)
    | Some root =>
      match String.length rest with
      | 0 => Ok root
      | _ => s ← theScope st root; resolveQualified st s rest false
      end
    end.
Proof.
  unfold resolveQualified at 1. simpl.
  destruct (divideOn "." q) as [start rest] eqn:Hq.
  destruct (resolve (heap st) this start allowLookup) as [[root|]|e]; simpl; [|done..].
  destruct (String.length rest) as [|len] eqn:Hlen; [done|].
  destruct (theScope st root) as [s|e]; simpl; [|done].
  pose proof (divideOn_rest_shorter _ _ _ _ Hq) as Hlt.
  unfold resolveQualified. apply resolveQualified_fuel_enough; lia.
Qed.

Lemma resolve_local h this name :
  resolve h this name false =
    match h !! this with
    | Some sc => Ok (contributions sc !! name)
    | None => Throw TypeError
    end.
Proof. apply resolve_fuel_local. Qed.

Lemma heap_wfb_correct h : heap_wfb h = true → heap_wf h.
Proof.
  unfold heap_wfb. rewrite forallb_forall. intros Hall i sc Hi.
  assert (scope_wfb (length h) i sc = true) as Hsc.
  { apply (Hall (i, sc)). apply list_elem_of_In, list_elem_of_lookup.
    exists i. by rewrite list_lookup_imap, Hi. }
  unfold scope_wfb in Hsc. apply andb_true_iff in Hsc as [Hc Hincl].
  split.
  - intros c Heq. rewrite Heq in Hc. by apply bool_decide_eq_true_1 in Hc.
  - intros j Hj. rewrite forallb_forall in Hincl.
    apply list_elem_of_In, Hincl in Hj. by apply bool_decide_eq_true_1 in Hj.
Qed.

(** C1: [resolve] returns the scope's own binding for the name whenever there
    is one, whatever [allowLookup]; otherwise not-found at once when
    [allowLookup] is false; otherwise the first included scope, in order, that
    binds the name in its own table — [first_local] reads nothing else, so
    neither the included scopes nor the container of an included scope are
    searched; otherwise what the container's [resolve] gives with the same
    flag, or not-found when there is no container.  The call returns. *)
Theorem resolve_one_level_deep (h : list LocalScope) (this : nat) (sc : LocalScope)
    (name : string) (allowLookup : bool) :
  heap_wf h →
  h !! this = Some sc →
  (∃ r, resolve h this name allowLookup = Ok r) ∧
  resolve h this name allowLookup =
    match contributions sc !! name with
    | Some n => Ok (Some n)
    | None =>
      if allowLookup then
        match first_local h name (includedScopes sc) with
        | Some n => Ok (Some n)
        | None =>
          match containerScope sc with
          | Some container => resolve h container name allowLookup
          | None => Ok None
          end
        end
      else Ok None
    end.
Proof.
  intros Hwf Hthis. split.
  - apply resolve_returns; [done|]. by eapply lookup_lt_Some.
  - by apply resolve_unfold.
Qed.

Lemma resolve_one_level_deep_witness :
  (∃ r, resolve Sample.scopes 2 "Y" true = Ok r) ∧
  resolve Sample.scopes 2 "Y" true = resolve Sample.scopes 0 "Y" true.
Proof.
  exact (resolve_one_level_deep Sample.scopes 2 _ "Y" true
           (heap_wfb_correct Sample.scopes eq_refl) eq_refl).
Defined.

(** C5: [resolveQualified] splits the name at its first separator; when the
    head does not resolve through [resolve] it throws the linking error; when
    the rest is empty it returns the node the head resolved to; otherwise it
    goes on with the rest in that node's own scope with [allowLookup = false],
    and such a call reads nothing but the own bindings of the scope it is
    made on: not its included scopes, not its container. *)
Theorem resolveQualified_own_members (st : Store) (this : nat) (qualifiedName : string)
    (allowLookup : bool) :
  resolveQualified st this qualifiedName allowLookup =
    (let '(start, rest) := divideOn "." qualifiedName in
     match resolve (heap st) this start allowLookup with
     | Throw e => Throw e
     | Ok None => Throw (CouldNotResolve start)
     | Ok (Some root) =>
       if bool_decide (rest = EmptyString) then Ok root
       else
         match scope st root with
         | Some s => resolveQualified st s rest false
         | None => Throw TypeError
         end
     end) ∧
  resolveQualified st this qualifiedName false =
    (let '(start, rest) := divideOn "." qualifiedName in
     match heap st !! this with
     | None => Throw TypeError
     | Some sc =>
       match contributions sc !! start with
       | None => Throw (CouldNotResolve start)
       | Some root =>
         if bool_decide (rest = EmptyString) then Ok root
         else
           match scope st root with
           | Some s => resolveQualified st s rest false
           | None => Throw TypeError
           end
       end
     end).
Proof.
  assert (∀ allow,
    resolveQualified st this qualifiedName allow =
    (let '(start, rest) := divideOn "." qualifiedName in
     match resolve (heap st) this start allow with
     | Throw e => Throw e
     | Ok None => Throw (CouldNotResolve start)
     | Ok (Some root) =>
       if bool_decide (rest = EmptyString) then Ok root
       else
         match scope st root with
         | Some s => resolveQualified st s rest false
         | None => Throw TypeError
         end
     end)) as Hgen.
  { intros allow. rewrite resolveQualified_unfold.
    destruct (divideOn "." qualifiedName) as [start rest].
    destruct (resolve (heap st) this start allow) as [[root|]|e]; simpl; [|done..].
    unfold theScope. destruct rest as [|c rest]; simpl; [done|].
    by destruct (scope st root). }
  split; [apply Hgen|].
  rewrite Hgen. destruct (divideOn "." qualifiedName) as [start rest].
  rewrite resolve_local. destruct (heap st !! this) as [sc|]; [|done].
  by destruct (contributions sc !! start).
Qed.

(** ** Merging *)

Lemma mergePackage_unfold members0 isolated :
  mergePackage members0 isolated =
    if negb (is_a Kind.Package isolated) then
      filter (λ member, name member ≠ name isolated) members0 ++ [isolated]
    else
      match list_find (λ member, samePackage isolated member = true) members0 with
      | Some (i, existent) =>
        delete i members0 ++
          [withMembers existent (fold_left mergePackage (members isolated) (members existent))]
      | None => members0 ++ [isolated]
      end.
Proof. by destruct isolated. Qed.

(** One step of the merge: what is kept of the list, in its order, and what
    is put after it. *)
Lemma mergePackage_step members0 isolated :
  ∃ kept added,
    mergePackage members0 isolated = kept ++ [added] ∧
    sublist kept members0 ∧
    if negb (is_a Kind.Package isolated) then
      kept = filter (λ member, name member ≠ name isolated) members0 ∧ added = isolated
    else
      match list_find (λ member, samePackage isolated member = true) members0 with
      | Some (i, existent) =>
        kept = delete i members0 ∧
        added = withMembers existent
                  (fold_left mergePackage (members isolated) (members existent))
      | None => kept = members0 ∧ added = isolated
      end.
Proof.
  rewrite mergePackage_unfold.
  destruct (negb (is_a Kind.Package isolated)).
  { eexists _, _. split; [done|]. split; [apply sublist_filter|done]. }
  destruct (list_find _ members0) as [[i existent]|].
  - eexists _, _. split; [done|]. split; [apply sublist_delete|done].
  - eexists _, _. split; [done|]. split; [reflexivity|done].
Qed.

Lemma fold_mergePackage_order news : ∀ members0,
  ∃ kept added,
    fold_left mergePackage news members0 = kept ++ added ∧
    sublist kept members0 ∧ length added ≤ length news.
Proof.
  induction news as [|isolated news IH] using rev_ind; intros members0.
  { exists members0, []. simpl. rewrite app_nil_r. split; [done|]. split; [reflexivity|lia]. }
  rewrite fold_left_app. simpl.
  destruct (IH members0) as (kept & added & -> & Hkept & Hlen).
  destruct (mergePackage_step (kept ++ added) isolated) as (kept' & x & -> & Hsub & _).
  apply sublist_app_r in Hsub as (k1 & k2 & -> & Hk1 & Hk2).
  exists k1, (k2 ++ [x]). rewrite <- app_assoc. split; [done|].
  split; [by etrans|].
  apply sublist_length in Hk2. rewrite !length_app. simpl. lia.
Qed.

Lemma Node_members_ind (P : Node → Prop) :
  (∀ node, Forall P (members node) → P node) → ∀ node, P node.
Proof.
  intros Hstep. fix IH 1. intros [k i n src g imps ms e os].
  apply Hstep. simpl. clear -IH. revert ms.
  fix IHms 1. intros [|m ms]; constructor; [apply IH|apply IHms].
Qed.

Lemma withMembers_same node : withMembers node (members node) = node.
Proof. by destruct node. Qed.

Lemma samePackage_refl node : is_a Kind.Package node = true → samePackage node node = true.
Proof. intros H. unfold samePackage. rewrite H. by rewrite bool_decide_eq_true_2. Qed.

Lemma filter_other_names (x : Node) (l : list Node) :
  name x ∉ name <$> l → filter (λ member, name member ≠ name x) l = l.
Proof.
  induction l as [|y l IH]; [done|]. rewrite fmap_cons, not_elem_of_cons.
  intros [Hne Hnin]. rewrite filter_cons_True by done. by rewrite IH.
Qed.

Lemma find_other_names (x : Node) (l : list Node) :
  name x ∉ name <$> l →
  list_find (λ member, samePackage x member = true) l = None.
Proof.
  intros Hnin. apply list_find_None, Forall_forall. intros y Hy Hsame.
  unfold samePackage in Hsame. apply andb_true_iff in Hsame as [_ Hname].
  apply bool_decide_eq_true_1 in Hname. apply Hnin. rewrite <- Hname.
  by apply list_elem_of_fmap_2.
Qed.

(** An entity whose name is not taken yet is appended, whatever its kind. *)
Lemma mergePackage_fresh members0 isolated :
  name isolated ∉ name <$> members0 →
  mergePackage members0 isolated = members0 ++ [isolated].
Proof.
  intros Hnin. rewrite mergePackage_unfold.
  destruct (negb (is_a Kind.Package isolated)).
  - by rewrite filter_other_names.
  - by rewrite find_other_names.
Qed.

Lemma fold_mergePackage_fresh news : ∀ members0,
  NoDup (name <$> (members0 ++ news)) →
  fold_left mergePackage news members0 = members0 ++ news.
Proof.
  induction news as [|x news IH]; intros members0 Hnd; simpl.
  { by rewrite app_nil_r. }
  rewrite mergePackage_fresh.
  - rewrite IH; rewrite <- app_assoc; done.
  - rewrite fmap_app, fmap_cons in Hnd. apply NoDup_app in Hnd as (_ & Hdisj & _).
    intros Hin. apply (Hdisj _ Hin). left.
Qed.

(** Merging entities that are already in the list, in their own order, moves
    each of them to the end in turn and gives the list back. *)
Lemma fold_mergePackage_again news : ∀ others0,
  NoDup (name <$> (news ++ others0)) →
  Forall (λ x, is_a Kind.Package x = true →
               fold_left mergePackage (members x) (members x) = members x) news →
  fold_left mergePackage news (news ++ others0) = others0 ++ news.
Proof.
  induction news as [|x news IH]; intros others0 Hnd Hself; simpl.
  { by rewrite app_nil_r. }
  apply Forall_cons in Hself as [Hx Hself].
  change (NoDup (name x :: (name <$> news ++ others0))) in Hnd.
  apply NoDup_cons in Hnd as [Hnin Hnd].
  assert (mergePackage (x :: news ++ others0) x = news ++ others0 ++ [x]) as ->.
  { rewrite mergePackage_unfold.
    destruct (is_a Kind.Package x) eqn:Hpkg; simpl.
    - rewrite decide_True by (by apply samePackage_refl).
      simpl. rewrite (Hx eq_refl), withMembers_same. by rewrite <- app_assoc.
    - rewrite filter_cons_False by (by intros ?).
      rewrite filter_other_names by done. by rewrite <- app_assoc. }
  rewrite IH; [by rewrite <- app_assoc| |done].
  rewrite fmap_app, fmap_app, fmap_cons, fmap_nil.
  rewrite app_assoc. apply NoDup_app. split; [by rewrite <- fmap_app|].
  split; [|apply NoDup_singleton].
  intros n Hn. rewrite list_elem_of_singleton. intros ->.
  by rewrite <- fmap_app in Hn.
Qed.

Lemma collisionFree_unfold node :
  collisionFree node =
    negb (is_a Kind.Package node) ||
    (bool_decide (NoDup (name <$> members node)) && forallb collisionFree (members node)).
Proof. by destruct node. Qed.

Lemma mergePackage_members_again node :
  collisionFree node = true → is_a Kind.Package node = true →
  fold_left mergePackage (members node) (members node) = members node.
Proof.
  induction node as [node IH] using Node_members_ind.
  rewrite collisionFree_unfold. intros Hfree Hpkg. rewrite Hpkg in Hfree. simpl in Hfree.
  apply andb_true_iff in Hfree as [Hnd Hall].
  apply bool_decide_eq_true_1 in Hnd.
  rewrite forallb_forall in Hall.
  pose proof (fold_mergePackage_again (members node) []) as Hagain.
  rewrite !app_nil_r in Hagain. simpl in Hagain. apply Hagain; [done|].
  rewrite Forall_forall in IH |- *. intros x Hx.
  apply IH; [done|]. by apply Hall, list_elem_of_In.
Qed.

(** C2, as the code has it: the existing members that stay keep their
    relative order, and every new entity ends up after them.  An entity
    whose name is not taken is appended as it is; a non-package removes the
    existing entities of its name and is appended; a package that meets an
    existing package of its name removes that package from its position, and
    the merged package is appended at the end of the list. *)
Theorem mergePackage_appends (members0 news : list Node) (isolated : Node) :
  (∃ kept added,
     mergePackage members0 isolated = kept ++ [added] ∧
     sublist kept members0 ∧
     if negb (is_a Kind.Package isolated) then
       kept = filter (λ member, name member ≠ name isolated) members0 ∧ added = isolated
     else
       match list_find (λ member, samePackage isolated member = true) members0 with
       | Some (i, existent) =>
         kept = delete i members0 ∧
         added = withMembers existent
                   (fold_left mergePackage (members isolated) (members existent))
       | None => kept = members0 ∧ added = isolated
       end) ∧
  (name isolated ∉ name <$> members0 →
     mergePackage members0 isolated = members0 ++ [isolated]) ∧
  (∃ kept added,
     fold_left mergePackage news members0 = kept ++ added ∧
     sublist kept members0 ∧ length added ≤ length news).
Proof.
  split; [apply mergePackage_step|].
  split; [apply mergePackage_fresh|apply fold_mergePackage_order].
Qed.

(** C2 as stated fails: the package merged into the existing package ["a"],
    found at position 0, is not put at position 0 but after ["b"]. *)
Lemma mergePackage_not_in_place :
  let existing := [Sample.package "a" [] []; Sample.package "b" [] []] in
  let isolated := Sample.package "a" [] [Sample.nX] in
  let merged := Sample.package "a" [] [Sample.nX] in
  list_find (λ member, samePackage isolated member = true) existing
    = Some (0, Sample.package "a" [] []) ∧
  mergePackage existing isolated = [Sample.package "b" [] []; merged] ∧
  mergePackage existing isolated ≠ <[0 := merged]> existing.
Proof.
  split; [reflexivity|]. split; [reflexivity|].
  vm_compute. intros H. discriminate H.
Qed.

(** C8, as the code has it: when no two entities share a name, neither in
    the list nor in the member list of any package below it, merging the list
    into the result of merging it gives the result of merging it once. *)
Theorem mergePackage_idempotent (entities : list Node) :
  noCollisions entities = true →
  fold_left mergePackage entities (fold_left mergePackage entities [])
    = fold_left mergePackage entities [].
Proof.
  unfold noCollisions. intros Hfree.
  apply andb_true_iff in Hfree as [Hnd Hall].
  apply bool_decide_eq_true_1 in Hnd. rewrite forallb_forall in Hall.
  rewrite (fold_mergePackage_fresh entities []) by done. simpl.
  pose proof (fold_mergePackage_again entities []) as Hagain.
  rewrite !app_nil_r in Hagain. simpl in Hagain. apply Hagain; [done|].
  apply Forall_forall. intros x Hx.
  apply mergePackage_members_again. by apply Hall, list_elem_of_In.
Qed.

Lemma mergePackage_idempotent_witness :
  let entities :=
    [Sample.package "p" [] [Sample.nX; Sample.package "q" [] [Sample.nY]]; Sample.nY] in
  fold_left mergePackage entities (fold_left mergePackage entities [])
    = fold_left mergePackage entities [].
Proof.
  exact (mergePackage_idempotent
           [Sample.package "p" [] [Sample.nX; Sample.package "q" [] [Sample.nY]]; Sample.nY]
           eq_refl).
Defined.

(** C8 as stated fails: names that do not collide at the top level are not
    enough.  Two classes named ["X"] inside the one package ["p"]: merging the
    list once keeps both, merging it again keeps the later one only. *)
Lemma mergePackage_not_idempotent :
  let x1 := Sample.entityNamed Kind.Class "X" [] in
  let x2 := Sample.entityNamed Kind.Class "X" [Sample.field "f"] in
  let entities := [Sample.package "p" [] [x1; x2]] in
  NoDup (name <$> entities) ∧
  fold_left mergePackage entities [] = entities ∧
  fold_left mergePackage entities (fold_left mergePackage entities [])
    = [Sample.package "p" [] [x2]] ∧
  fold_left mergePackage entities (fold_left mergePackage entities [])
    ≠ fold_left mergePackage entities [].
Proof.
  split; [apply NoDup_singleton|]. split; [reflexivity|]. split; [reflexivity|].
  vm_compute. intros H. discriminate H.
Qed.

(** C9: when [mergePackage] meets an existing package of the name of the new
    one, the merged package has every field of the existing package but its
    member list — its imports among them — and the imports of the new package
    have no part in the result. *)
Theorem mergePackage_keeps_existent (members0 : list Node) (isolated : Node)
    (i : nat) (existent : Node) :
  is_a Kind.Package isolated = true →
  list_find (λ member, samePackage isolated member = true) members0 = Some (i, existent) →
  ∃ merged,
    mergePackage members0 isolated = delete i members0 ++ [merged] ∧
    kind merged = kind existent ∧ id merged = id existent ∧
    name merged = name existent ∧ source merged = source existent ∧
    isGeneric merged = isGeneric existent ∧ entity merged = entity existent ∧
    others merged = others existent ∧
    imports merged = imports existent ∧
    members merged = fold_left mergePackage (members isolated) (members existent) ∧
    ∀ imports0,
      mergePackage members0 (withImports isolated imports0) = mergePackage members0 isolated.
Proof.
  intros Hpkg Hfind.
  exists (withMembers existent (fold_left mergePackage (members isolated) (members existent))).
  split.
  { rewrite mergePackage_unfold, Hpkg. simpl. by rewrite Hfind. }
  do 9 (split; [done|]).
  intros imports0. rewrite !mergePackage_unfold.
  assert (is_a Kind.Package (withImports isolated imports0) = true) as -> by exact Hpkg.
  rewrite Hpkg. cbn [negb].
  change (list_find (λ member, samePackage (withImports isolated imports0) member = true)
            members0)
    with (list_find (λ member, samePackage isolated member = true) members0).
  rewrite Hfind. reflexivity.
Qed.

Lemma mergePackage_keeps_existent_witness :
  let existing :=
    [Sample.package "b" [] []; Sample.package "a" [Sample.import true "b"] [Sample.nY]] in
  let isolated := Sample.package "a" [Sample.import false "c.Z"] [Sample.nX] in
  ∃ merged,
    mergePackage existing isolated = delete 1 existing ++ [merged] ∧
    kind merged = Kind.Package ∧ id merged = EmptyString ∧
    name merged = Some "a"%string ∧ source merged = None ∧
    isGeneric merged = false ∧ entity merged = None ∧
    others merged = [] ∧
    imports merged = [Sample.import true "b"] ∧
    members merged = [Sample.nY; Sample.nX] ∧
    ∀ imports0,
      mergePackage existing (withImports isolated imports0) = mergePackage existing isolated.
Proof.
  exact (mergePackage_keeps_existent
           [Sample.package "b" [] []; Sample.package "a" [Sample.import true "b"] [Sample.nY]]
           (Sample.package "a" [Sample.import false "c.Z"] [Sample.nX])
           1 (Sample.package "a" [Sample.import true "b"] [Sample.nY])
           eq_refl eq_refl).
Defined.

(** ** Traversals *)

Lemma Node_children_ind (P : Node → Prop) :
  (∀ node, Forall P (children node) → P node) → ∀ node, P node.
Proof.
  intros Hstep. fix IH 1. intros [k i n src g imps ms e os].
  apply Hstep. unfold children. simpl.
  assert (∀ l : list Node, Forall P l) as Hall.
  { fix IHl 1. intros [|m l]; constructor; [apply IH|apply IHl]. }
  rewrite !Forall_app. split; [apply Hall|]. split; [|split; apply Hall].
  destruct e as [e|]; simpl; [|constructor].
  constructor; [apply IH|constructor].
Qed.

Lemma pairs_unfold par node :
  pairs par node = (node, par) :: flat_map (pairs (Some node)) (children node).
Proof.
  destruct node as [k i n src g imps ms e os]. unfold children. simpl.
  f_equal. rewrite !flat_map_app. f_equal. f_equal.
  destruct e as [e|]; simpl; [by rewrite app_nil_r|done].
Qed.

(** A node is visited after its parent: before a pair with parent [p] comes
    the pair of [p] itself. *)
Lemma pairs_parent_before node :
  ∀ par pre n p suf,
    pairs par node = pre ++ (n, Some p) :: suf →
    (pre = [] ∧ n = node ∧ par = Some p) ∨ (∃ pp, (p, pp) ∈ pre).
Proof.
  induction node as [node IH] using Node_children_ind.
  intros par pre n p suf. rewrite pairs_unfold.
  destruct pre as [|x pre]; simpl.
  { intros [= <- <- _]. by left. }
  intros [= <- Hrest]. right.
  enough (p = node ∨ ∃ pp, (p, pp) ∈ pre) as [->|[pp Hpp]].
  { exists par. left. }
  { exists pp. by right. }
  revert pre Hrest. induction IH as [|c cs Hc _ IHcs]; intros pre; simpl.
  { intros Hnil. by destruct pre. }
  intros Happ. apply app_eq_app in Happ as [l [[Hc1 Hc2]|[Hc1 Hc2]]].
  - destruct l as [|y l]; simpl in Hc2.
    + rewrite app_nil_r in Hc1. subst pre.
      destruct (IHcs [] (eq_sym Hc2)) as [?|[pp Hpp]]; [by left|].
      by apply elem_of_nil in Hpp.
    + injection Hc2 as <- _. destruct (Hc _ _ _ _ _ Hc1) as [(_ & _ & [= <-])|[pp Hpp]].
      * by left.
      * right. by exists pp.
  - subst pre. destruct (IHcs _ Hc2) as [?|[pp Hpp]]; [by left|].
    right. exists pp. apply elem_of_app. by right.
Qed.

Lemma pairs_root_parent_before environment pre n p suf :
  pairs None environment = pre ++ (n, Some p) :: suf → ∃ pp, (p, pp) ∈ pre.
Proof.
  intros H. by destruct (pairs_parent_before _ _ _ _ _ _ H) as [(_ & _ & ?)|?].
Qed.

Lemma forEach_app {S A} (tx : S → A → Result S) l1 l2 st :
  forEach tx (l1 ++ l2) st = (st ← forEach tx l1 st; forEach tx l2 st).
Proof.
  revert st. induction l1 as [|a l1 IH]; intros st; simpl; [done|].
  destruct (tx st a); simpl; [apply IH|done].
Qed.

(** An invariant of the visited prefix, carried along a traversal. *)
Lemma forEach_prefix_invariant {S A} (tx : S → A → Result S) (Inv : list A → S → Prop)
    (l : list A) (st0 st' : S) :
  Inv [] st0 →
  (∀ pre a suf st st1,
     l = pre ++ a :: suf → Inv pre st → tx st a = Ok st1 → Inv (pre ++ [a]) st1) →
  forEach tx l st0 = Ok st' →
  Inv l st'.
Proof.
  intros H0 Hstep.
  enough (∀ suf pre st, l = pre ++ suf → Inv pre st → forEach tx suf st = Ok st' → Inv l st')
    as Hgen by (by apply (Hgen l [] st0)).
  induction suf as [|a suf IH]; intros pre st Hl Hpre; simpl.
  { intros [= <-]. by rewrite Hl, app_nil_r. }
  destruct (tx st a) as [st1|e] eqn:Htx; simpl; [|done].
  apply (IH (pre ++ [a])); [by rewrite <- app_assoc|by eapply Hstep].
Qed.

Lemma ids_pairs environment : ids environment = (λ v, id v.1) <$> pairs None environment.
Proof. unfold ids, nodes. by rewrite <- list_fmap_compose. Qed.

Lemma NoDup_fmap_eq {A B} (f : A → B) (l : list A) x y :
  NoDup (f <$> l) → x ∈ l → y ∈ l → f x = f y → x = y.
Proof.
  induction l as [|a l IH]; simpl; [by intros _ ?%elem_of_nil|].
  rewrite NoDup_cons. intros [Hnin Hnd] Hx Hy Heq.
  apply elem_of_cons in Hx as [->|Hx]; apply elem_of_cons in Hy as [->|Hy]; [done| | |by apply IH].
  - destruct Hnin. rewrite Heq. by apply list_elem_of_fmap_2.
  - destruct Hnin. rewrite <- Heq. by apply list_elem_of_fmap_2.
Qed.

Lemma cached_scopes environment :
  scopeOf (cached environment) = ∅ ∧ heap (cached environment) = [].
Proof.
  unfold cached. generalize (pairs None environment) as l.
  assert (∀ l st, scopeOf st = ∅ ∧ heap st = [] →
            scopeOf (fold_left (cacheNode environment) l st) = ∅ ∧
            heap (fold_left (cacheNode environment) l st) = []) as H.
  { induction l as [|[n par] l IH]; intros st Hst; [done|]. simpl. apply IH. by simpl. }
  intros l. by apply H.
Qed.

Lemma cached_parentOf environment i g :
  parentOf (cached environment) !! i = Some g →
  ∃ m, (m, Some g) ∈ pairs None environment ∧ id m = i.
Proof.
  unfold cached. generalize (pairs None environment) as l.
  assert (∀ l st,
            parentOf (fold_left (cacheNode environment) l st) !! i = Some g →
            parentOf st !! i = Some g ∨ ∃ m, (m, Some g) ∈ l ∧ id m = i) as H.
  { induction l as [|[n par] l IH]; intros st; simpl; [by left|].
    intros [Hst|(m & Hm & Hid)]%IH.
    - destruct par as [p|]; simpl in Hst; [|by left].
      destruct (decide (id n = i)) as [Heq|Hne].
      + rewrite Heq, lookup_insert_eq in Hst. injection Hst as ->.
        right. exists n. split; [left|done].
      + rewrite lookup_insert_ne in Hst by done. by left.
    - right. exists m. split; [by right|done]. }
  intros l [Habs|?]%H; [|done]. simpl in Habs. by rewrite lookup_empty in Habs.
Qed.

Lemma register_shape contribs sc :
  containerScope (register contribs sc) = containerScope sc ∧
  includedScopes (register contribs sc) = includedScopes sc.
Proof. done. Qed.

(** What one visit of the first traversal does to the store. *)
Lemma scopeSkeleton_effect st n par st1 :
  scopeSkeleton st (n, par) = Ok st1 →
  ∃ container,
    match par with
    | None => container = None
    | Some p =>
      if is_a Kind.Reference n && (is_a Kind.Class p || is_a Kind.Mixin p) then
        ∃ grandparent, parentOf st !! id p = Some grandparent ∧ container = scope st grandparent
      else container = scope st p
    end ∧
    parentOf st1 = parentOf st ∧
    scopeOf st1 = <[id n := length (heap st)]> (scopeOf st) ∧
    length (heap st1) = S (length (heap st)) ∧
    (∀ i sc, heap st !! i = Some sc →
       ∃ sc', heap st1 !! i = Some sc' ∧
         containerScope sc' = containerScope sc ∧ includedScopes sc' = includedScopes sc) ∧
    (∃ sc', heap st1 !! length (heap st) = Some sc' ∧
       containerScope sc' = container ∧ includedScopes sc' = []).
Proof.
  unfold scopeSkeleton.
  destruct ((if is_a Kind.Reference n then _ else _) : Result (option nat))
    as [container|e] eqn:Hcont; simpl; [|done].
  intros Hrest. exists container. split.
  { destruct par as [p|].
    - destruct (is_a Kind.Reference n); simpl in *.
      + destruct (is_a Kind.Class p || is_a Kind.Mixin p).
        * unfold parent in Hcont. destruct (parentOf st !! id p) as [gp|]; simpl in Hcont; [|done].
          injection Hcont as <-. by exists gp.
        * by injection Hcont as <-.
      + by injection Hcont as <-.
    - destruct (is_a Kind.Reference n); simpl in *; [done|]. by injection Hcont as <-. }
  set (new := mkScope ∅ [] container) in *.
  assert (∀ h1, (∀ i sc, (heap st ++ [new]) !! i = Some sc → ∃ sc', h1 !! i = Some sc' ∧
              containerScope sc' = containerScope sc ∧ includedScopes sc' = includedScopes sc) →
            length h1 = S (length (heap st)) →
            length h1 = S (length (heap st)) ∧
            (∀ i sc, heap st !! i = Some sc → ∃ sc', h1 !! i = Some sc' ∧
               containerScope sc' = containerScope sc ∧ includedScopes sc' = includedScopes sc) ∧
            (∃ sc', h1 !! length (heap st) = Some sc' ∧
               containerScope sc' = container ∧ includedScopes sc' = [])) as Hshape.
  { intros h1 Hh1 Hlen. split; [done|]. split.
    - intros i sc Hi. apply Hh1. by apply lookup_app_l_Some.
    - apply (Hh1 (length (heap st)) new). by rewrite list_lookup_middle. }
  destruct (is_Entity n).
  - destruct par as [p|]; [|done].
    destruct (theScope _ p) as [ps|e] eqn:Hps; simpl in Hrest; [|done].
    injection Hrest as <-. simpl. split; [done|]. split; [done|].
    apply Hshape; [|by rewrite length_alter, length_app; simpl; lia].
    intros i sc Hi. destruct (decide (ps = i)) as [->|Hne].
    + exists (register (scopeContribution n) sc). rewrite list_lookup_alter_eq, Hi. done.
    + exists sc. by rewrite list_lookup_alter_ne.
  - injection Hrest as <-. simpl. split; [done|]. split; [done|].
    apply Hshape; [|by rewrite length_app; simpl; lia].
    intros i sc Hi. by exists sc.
Qed.

(** ** The first traversal of [assignScopes] *)

Section first_traversal.
Context (environment : Node) (st0 : Store).
Local Abbreviation visit := (pairs None environment).
Context (Hnd : NoDup (ids environment)).
Context (Hscopes : scopeOf st0 = ∅) (Hheap : heap st0 = []).
Context (Hparents : ∀ i g, parentOf st0 !! i = Some g → ∃ m, (m, Some g) ∈ visit ∧ id m = i).

Lemma visit_id_eq v w : v ∈ visit → w ∈ visit → id v.1 = id w.1 → v = w.
Proof.
  intros Hv Hw Heq. rewrite ids_pairs in Hnd.
  by apply (NoDup_fmap_eq (λ v : Node * option Node, id v.1) visit).
Qed.

Lemma visit_fresh pre v suf :
  visit = pre ++ v :: suf → id v.1 ∉ (λ v : Node * option Node, id v.1) <$> pre.
Proof.
  intros Hsplit Hin. rewrite ids_pairs, Hsplit, fmap_app, fmap_cons in Hnd.
  apply NoDup_app in Hnd as (_ & Hdisj & _). apply (Hdisj _ Hin). left.
Qed.

Lemma skeletonSoFar_start : skeletonSoFar st0 visit [] st0.
Proof.
  split; try done.
  - intros i [s Hs]. by rewrite Hscopes, lookup_empty in Hs.
  - intros i s Hs. by rewrite Hscopes, lookup_empty in Hs.
  - intros i j s Hs. by rewrite Hscopes, lookup_empty in Hs.
  - intros i sc Hi. by rewrite Hheap in Hi.
  - intros i sc Hi. by rewrite Hheap in Hi.
  - intros v Hv. by apply elem_of_nil in Hv.
Qed.

Lemma skeletonSoFar_step pre n par suf st st1 :
  visit = pre ++ (n, par) :: suf →
  skeletonSoFar st0 visit pre st →
  scopeSkeleton st (n, par) = Ok st1 →
  skeletonSoFar st0 visit (pre ++ [(n, par)]) st1.
Proof.
  intros Hsplit [Hpar Hdom Hbound Hinj Hwf Hincl Hcont] Hstep.
  apply scopeSkeleton_effect in Hstep
    as (container & Hcontainer & Hpar1 & Hscope1 & Hlen1 & Hold & (new & Hnew & Hnewc & Hnewi)).
  pose proof (visit_fresh _ _ _ Hsplit) as Hfresh. simpl in Hfresh.
  assert (scopeOf st !! id n = None) as Hnone.
  { destruct (scopeOf st !! id n) eqn:Hn; [|done]. destruct Hfresh. apply Hdom. by eexists. }
  assert (∀ m, is_Some (scope st m) → scope st1 m = scope st m) as Hkeep.
  { intros m [s Hs]. unfold scope in *. rewrite Hscope1.
    rewrite lookup_insert_ne; [done|]. intros Heq. rewrite Heq in Hnone. congruence. }
  assert (∀ p, par = Some p → is_Some (scope st p)) as Hparent.
  { intros p ->. destruct (pairs_root_parent_before _ _ _ _ _ Hsplit) as [pp Hpp].
    destruct (Hcont _ Hpp) as (s & _ & Hs & _). by eexists. }
  split.
  - congruence.
  - intros i. rewrite Hscope1, fmap_app, elem_of_app. simpl.
    destruct (decide (id n = i)) as [<-|Hne].
    + intros _. right. left.
    + rewrite lookup_insert_ne by done. intros Hi. left. by apply Hdom.
  - intros i s. rewrite Hscope1, Hlen1.
    destruct (decide (id n = i)) as [<-|Hne].
    + rewrite lookup_insert_eq. intros [= <-]. lia.
    + rewrite lookup_insert_ne by done. intros Hi%Hbound. lia.
  - intros i j s. rewrite Hscope1.
    destruct (decide (id n = i)) as [<-|Hi]; destruct (decide (id n = j)) as [<-|Hj];
      rewrite ?lookup_insert_eq, ?lookup_insert_ne by done; [done| | |by apply Hinj].
    + intros [= <-] Hs%Hbound. lia.
    + intros Hs%Hbound [= <-]. lia.
  - intros i sc Hi.
    destruct (decide (i < length (heap st))) as [Hlt|Hge].
    + destruct (lookup_lt_is_Some_2 _ _ Hlt) as [sc0 Hsc0].
      destruct (Hold _ _ Hsc0) as (sc' & Hsc' & Hc & Hi').
      rewrite Hsc' in Hi. injection Hi as <-. rewrite Hc, Hi', (Hincl _ _ Hsc0).
      destruct (Hwf _ _ Hsc0) as [Hc0 _]. split; [done|]. by intros j ?%elem_of_nil.
    + assert (i = length (heap st)) as ->.
      { apply lookup_lt_Some in Hi. lia. }
      rewrite Hnew in Hi. injection Hi as <-. rewrite Hnewc, Hnewi.
      split; [|by intros j ?%elem_of_nil].
      intros c ->. destruct par as [p|]; [|done].
      destruct (is_a Kind.Reference n && _).
      * destruct Hcontainer as (gp & _ & Hgp). symmetry in Hgp. by apply Hbound in Hgp.
      * symmetry in Hcontainer. by apply Hbound in Hcontainer.
  - intros i sc Hi.
    destruct (decide (i < length (heap st))) as [Hlt|Hge].
    + destruct (lookup_lt_is_Some_2 _ _ Hlt) as [sc0 Hsc0].
      destruct (Hold _ _ Hsc0) as (sc' & Hsc' & Hc & Hi').
      rewrite Hsc' in Hi. injection Hi as <-. rewrite Hi'. by eapply Hincl.
    + assert (i = length (heap st)) as ->.
      { apply lookup_lt_Some in Hi. lia. }
      rewrite Hnew in Hi. by injection Hi as <-.
  - intros v [Hv|Hv%list_elem_of_singleton]%elem_of_app.
    + destruct (Hcont _ Hv) as (s & sc & Hs & Hsc & Hc).
      destruct (Hold _ _ Hsc) as (sc' & Hsc' & Hc' & _).
      exists s, sc'. split; [by rewrite Hkeep|]. split; [done|].
      unfold containerOf in *. destruct (v.2) as [p|]; [|congruence].
      destruct (is_a Kind.Reference v.1 && _).
      * destruct Hc as (gp & Hgp & Hsome & Heq). exists gp.
        rewrite (Hkeep _ Hsome). split; [done|]. split; [done|congruence].
      * destruct Hc as [Hsome Heq]. rewrite (Hkeep _ Hsome). split; [done|congruence].
    + subst v. exists (length (heap st)), new. simpl.
      split; [by unfold scope; rewrite Hscope1, lookup_insert_eq|]. split; [done|].
      unfold containerOf. simpl. destruct par as [p|]; [|congruence].
      specialize (Hparent p eq_refl).
      destruct (is_a Kind.Reference n && _).
      * destruct Hcontainer as (gp & Hgp & ->). exists gp.
        rewrite Hpar in Hgp. destruct (Hparents _ _ Hgp) as (m & Hm & Hid).
        destruct (pairs_root_parent_before _ _ _ _ _ Hsplit) as [pp Hpp].
        assert ((m, Some gp) = (p, pp)) as Hmp.
        { apply visit_id_eq; [done| |done]. rewrite Hsplit. apply elem_of_app. by left. }
        injection Hmp as -> <-.
        apply list_elem_of_split in Hpp as (pre1 & pre2 & ->).
        rewrite <- app_assoc in Hsplit. simpl in Hsplit.
        destruct (pairs_root_parent_before _ _ _ _ _ Hsplit) as [gpp Hgpp].
        destruct (Hcont (gp, gpp)) as (sg & _ & Hsg & _).
        { apply elem_of_app. by left. }
        assert (is_Some (scope st gp)) as Hsome by (by eexists).
        rewrite (Hkeep _ Hsome). split; [done|]. split; [done|congruence].
      * subst container. rewrite (Hkeep _ Hparent). split; [done|congruence].
Qed.

(** After the first traversal every visited node has its scope. *)
Lemma scopeSkeleton_skeleton st1 :
  forEach scopeSkeleton visit st0 = Ok st1 →
  skeletonSoFar st0 visit visit st1.
Proof.
  apply (forEach_prefix_invariant scopeSkeleton (skeletonSoFar st0 visit)).
  - apply skeletonSoFar_start.
  - intros pre [n par] suf st st'. apply skeletonSoFar_step.
Qed.
End first_traversal.

(** ** Steps on the store *)

Lemma touches_refl C I st : touches C I st st.
Proof. repeat split; try done. intros i sc Hi. by exists sc. Qed.

Lemma touches_trans C1 I1 C2 I2 st st1 st2 :
  touches C1 I1 st st1 → touches C2 I2 st1 st2 →
  touches (λ i, C1 i ∨ C2 i) (λ i, I1 i ∨ I2 i) st st2.
Proof.
  intros (Hs1 & Hp1 & Hl1 & H1) (Hs2 & Hp2 & Hl2 & H2).
  split; [congruence|]. split; [congruence|]. split; [lia|].
  intros i sc Hi. destruct (H1 _ _ Hi) as (sc1 & Hi1 & Hc1 & Hb1 & Hi1').
  destruct (H2 _ _ Hi1) as (sc2 & Hi2 & Hc2 & Hb2 & Hi2').
  exists sc2. split; [done|]. split; [congruence|]. split.
  - intros Hn. rewrite Hb2, Hb1; [done|tauto..].
  - intros Hn. rewrite Hi2', Hi1'; [done|tauto..].
Qed.

Lemma touches_weaken (C1 I1 C2 I2 : nat → Prop) st st1 :
  (∀ i, C1 i → C2 i) → (∀ i, I1 i → I2 i) →
  touches C1 I1 st st1 → touches C2 I2 st st1.
Proof.
  intros HC HI (Hs1 & Hp1 & Hl1 & H1). repeat split; try done.
  intros i sc Hi. destruct (H1 _ _ Hi) as (sc1 & Hi1 & Hc1 & Hb1 & Hi1').
  exists sc1. repeat split; try done; intros Hn; [apply Hb1|apply Hi1'];
    intros ?; apply Hn; auto.
Qed.

Lemma alter_touches (f : LocalScope → LocalScope) (C I : nat → Prop) s st :
  (∀ sc, containerScope (f sc) = containerScope sc) →
  (∀ sc, ¬ C s → contributions (f sc) = contributions sc) →
  (∀ sc, ¬ I s → includedScopes (f sc) = includedScopes sc) →
  touches C I st (setHeap (alter f s (heap st)) st).
Proof.
  intros Hc Hb Hi. repeat split; simpl; try done.
  { by rewrite length_alter. }
  intros i sc Hsc. destruct (decide (s = i)) as [->|Hne].
  - exists (f sc). rewrite list_lookup_alter_eq, Hsc. simpl. split; [done|].
    split; [done|]. split; intros Hn; [by apply Hb|by apply Hi].
  - exists sc. by rewrite list_lookup_alter_ne.
Qed.

Lemma registerIn_touches s contribs st :
  touches (λ i, i = s) (λ _, False) st (registerIn s contribs st).
Proof. by apply alter_touches. Qed.

Lemma unshift_touches s scopes st :
  touches (λ _, False) (λ i, i = s) st (setHeap (alter (unshift scopes) s (heap st)) st).
Proof. by apply alter_touches. Qed.

Lemma push_touches s scopes st :
  touches (λ _, False) (λ i, i = s) st (setHeap (alter (push scopes) s (heap st)) st).
Proof. by apply alter_touches. Qed.

Lemma newLocalScope_touches c st :
  touches (λ _, False) (λ _, False) st (newLocalScope c st).2.
Proof.
  repeat split; simpl; try done.
  { rewrite length_app. lia. }
  intros i sc Hi. exists sc. split; [by apply lookup_app_l_Some|done].
Qed.

Lemma heap_wf_alter h s (f : LocalScope → LocalScope) :
  heap_wf h →
  (∀ sc, containerScope (f sc) = containerScope sc) →
  (∀ sc j, h !! s = Some sc → j ∈ includedScopes (f sc) → j < length h) →
  heap_wf (alter f s h).
Proof.
  intros Hwf Hc Hi i sc. rewrite length_alter.
  destruct (decide (s = i)) as [->|Hne].
  - rewrite list_lookup_alter_eq.
    destruct (h !! i) as [sc0|] eqn:Hsc0; simpl; [|done]. intros [= <-].
    rewrite Hc. destruct (Hwf _ _ Hsc0) as [Hcont _]. split; [done|].
    intros j. by apply Hi.
  - rewrite list_lookup_alter_ne by done. apply Hwf.
Qed.

Lemma heap_wf_snoc h sc :
  heap_wf h →
  (∀ c, containerScope sc = Some c → c < length h) →
  includedScopes sc = [] →
  heap_wf (h ++ [sc]).
Proof.
  intros Hwf Hc Hi i sc'. rewrite length_app. simpl.
  destruct (decide (i < length h)) as [Hlt|Hge].
  - rewrite lookup_app_l by done. intros Hsc'. destruct (Hwf _ _ Hsc') as [H1 H2].
    split; [done|]. intros j Hj%H2. lia.
  - intros Hsc'. assert (i = length h) as ->.
    { apply lookup_lt_Some in Hsc'. rewrite length_app in Hsc'. simpl in Hsc'. lia. }
    rewrite list_lookup_middle in Hsc' by done. injection Hsc' as <-.
    split; [done|]. rewrite Hi. by intros j ?%elem_of_nil.
Qed.

Lemma heap_wf_register h s contribs :
  heap_wf h → heap_wf (alter (register contribs) s h).
Proof.
  intros Hwf. apply heap_wf_alter; [done..|].
  intros sc j Hsc Hj. destruct (Hwf _ _ Hsc) as [_ H2]. by apply H2.
Qed.

Lemma skeleton_touches visit C I st st1 :
  skeleton visit st → touches C I st st1 → heap_wf (heap st1) → skeleton visit st1.
Proof.
  intros [Hbound Hinj Hwf Hcont] (Hs & Hp & Hl & Hh) Hwf1.
  split; [| |done|].
  - intros i s. rewrite Hs. intros ?%Hbound. lia.
  - intros i j s. rewrite Hs. apply Hinj.
  - intros v Hv. destruct (Hcont _ Hv) as (s & sc & Hsv & Hsc & Hc).
    destruct (Hh _ _ Hsc) as (sc' & Hsc' & Hc' & _).
    exists s, sc'. unfold scope in *. rewrite Hs. split; [done|]. split; [done|].
    unfold containerOf, scope in *. rewrite Hs, Hc'. done.
Qed.

Lemma mapM_Ok_Forall2 {A B} (f : A → Result B) (l : list A) (ys : list B) :
  mapM f l = Ok ys → Forall2 (λ x y, f x = Ok y) l ys.
Proof.
  revert ys. induction l as [|x l IH]; intros ys; simpl.
  { intros [= <-]. constructor. }
  destruct (f x) as [y|e] eqn:Hx; simpl; [|done].
  destruct (mapM f l) as [k|e]; simpl; [|done].
  intros [= <-]. constructor; [done|by apply IH].
Qed.

Lemma theScope_Ok st node s : theScope st node = Ok s ↔ scope st node = Some s.
Proof. unfold theScope. destruct (scope st node); split; congruence. Qed.

(** ** Resolution does not see the scopes allocated later *)

Section agree.
Context (h h' : list LocalScope).
Context (Hwf : heap_wf h) (Hwf' : heap_wf h').
Context (Hagree : ∀ i, i < length h → h' !! i = h !! i).

Lemma first_local_agree name scopes :
  (∀ j, j ∈ scopes → j < length h) →
  first_local h' name scopes = first_local h name scopes.
Proof.
  induction scopes as [|i scopes IH]; intros Hlt; [done|]. simpl.
  unfold local. rewrite Hagree by (apply Hlt; left).
  rewrite IH; [done|]. intros j Hj. apply Hlt. by right.
Qed.

Lemma resolve_agree name allowLookup this :
  this < length h →
  resolve h' this name allowLookup = resolve h this name allowLookup.
Proof.
  induction (lt_wf this) as [this _ IH]. intros Hlt.
  destruct (lookup_lt_is_Some_2 h this Hlt) as [sc Hsc].
  assert (h' !! this = Some sc) as Hsc' by (by rewrite Hagree).
  rewrite (resolve_unfold h' name this sc), (resolve_unfold h name this sc) by done.
  destruct (Hwf _ _ Hsc) as [Hcont Hincl].
  rewrite first_local_agree by done.
  destruct (contributions sc !! name); [done|]. destruct allowLookup; [|done].
  destruct (first_local h name (includedScopes sc)); [done|].
  destruct (containerScope sc) as [c|] eqn:Hc; [|done].
  specialize (Hcont c eq_refl). apply IH; [done|lia].
Qed.
End agree.

Lemma resolveQualified_agree st st' :
  heap_wf (heap st) → heap_wf (heap st') →
  (∀ i, i < length (heap st) → heap st' !! i = heap st !! i) →
  scopeOf st' = scopeOf st →
  (∀ i s, scopeOf st !! i = Some s → s < length (heap st)) →
  ∀ q this allowLookup, this < length (heap st) →
    resolveQualified st' this q allowLookup = resolveQualified st this q allowLookup.
Proof.
  intros Hwf Hwf' Hagree Hscope Hbound q.
  remember (String.length q) as len eqn:Hlen.
  revert q Hlen. induction (lt_wf len) as [len _ IH]. intros q -> this allowLookup Hlt.
  rewrite !resolveQualified_unfold.
  destruct (divideOn "." q) as [start rest] eqn:Hq.
  rewrite (resolve_agree (heap st) (heap st')) by done.
  destruct (resolve (heap st) this start allowLookup) as [[root|]|e]; simpl; [|done..].
  destruct (String.length rest) as [|n] eqn:Hrest; [done|].
  unfold theScope, scope. rewrite Hscope.
  destruct (scopeOf st !! id root) as [s|] eqn:Hs; simpl; [|done].
  pose proof (divideOn_rest_shorter _ _ _ _ Hq) as Hshort.
  eapply IH; [|done|by eapply Hbound]. lia.
Qed.

Lemma resolveImport_agree st st' imported :
  heap_wf (heap st) → heap_wf (heap st') →
  (∀ i, i < length (heap st) → heap st' !! i = heap st !! i) →
  scopeOf st' = scopeOf st →
  (∀ i s, scopeOf st !! i = Some s → s < length (heap st)) →
  resolveImport st' imported = resolveImport st imported.
Proof.
  intros Hwf Hwf' Hagree Hscope Hbound. unfold resolveImport, theScope, scope.
  rewrite Hscope. destruct (scopeOf st !! id imported) as [s|] eqn:Hs; simpl; [|done].
  destruct (entity imported) as [e|]; [|done]. destruct (name e) as [n|]; [|done].
  apply resolveQualified_agree; try done. by eapply Hbound.
Qed.

Lemma mapM_ext {A B} (f g : A → Result B) (l : list A) :
  (∀ x, f x = g x) → mapM f l = mapM g l.
Proof.
  intros Hfg. induction l as [|x l IH]; simpl; [done|]. by rewrite Hfg, IH.
Qed.

Lemma touches_restrict C I st st1 :
  touches C I st st1 →
  touches (λ i, C i ∧ i < length (heap st)) (λ i, I i ∧ i < length (heap st)) st st1.
Proof.
  intros (Hs1 & Hp1 & Hl1 & H1). repeat split; try done.
  intros i sc Hi. destruct (H1 _ _ Hi) as (sc1 & Hi1 & Hc1 & Hb1 & Hi1').
  apply lookup_lt_Some in Hi.
  exists sc1. repeat split; try done; intros Hn; [apply Hb1|apply Hi1'];
    intros ?; apply Hn; auto.
Qed.

(** ** The steps of the second traversal *)

Lemma linkEnvironment_effect environment st node st1 :
  linkEnvironment environment st node = Ok st1 →
  ∃ s contribs, scope st node = Some s ∧ st1 = registerIn s contribs st.
Proof.
  unfold linkEnvironment.
  destruct (theScope st node) as [s|e] eqn:Hs; [|done].
  destruct (theScope st environment) as [es|e]; [|done].
  cbn [mbind Result_bind].
  match goal with |- context [mapM ?f GLOBAL_PACKAGES] =>
    destruct (mapM f GLOBAL_PACKAGES) as [globals|e] end; [|done].
  intros [= <-]. exists s, (concat globals). by apply theScope_Ok in Hs.
Qed.

Lemma linkHierarchy_effect hierarchy st node st1 :
  linkHierarchy hierarchy st node = Ok st1 →
  ∃ s ancestors supertypes,
    scope st node = Some s ∧ hierarchy st node = Ok ancestors ∧
    Forall2 (λ a t, scope st a = Some t) (drop 1 ancestors) supertypes ∧
    st1 = setHeap (alter (push supertypes) s (heap st)) st.
Proof.
  unfold linkHierarchy.
  destruct (theScope st node) as [s|e] eqn:Hs; simpl; [|done].
  destruct (hierarchy st node) as [ancestors|e]; simpl; [|done].
  destruct (mapM (theScope st) (drop 1 ancestors)) as [supertypes|e] eqn:Hsup;
    simpl; [|done].
  intros [= <-]. exists s, ancestors, supertypes. apply theScope_Ok in Hs.
  repeat split; try done. apply mapM_Ok_Forall2 in Hsup.
  eapply Forall2_impl; [done|]. intros a t. by rewrite theScope_Ok.
Qed.

(** The store in which the targets of the generic imports are resolved:
    the import scope exists and holds the simple imports. *)
Lemma linkImports_effect visit st node st1 :
  skeleton visit st →
  linkImports st node = Ok st1 →
  ∃ ps entities generics,
    scope st node = Some ps ∧
    mapM (resolveImport st) (discriminate isGeneric (imports node)).2 = Ok entities ∧
    mapM (importedScope st) (discriminate isGeneric (imports node)).1 = Ok generics ∧
    st1 = setHeap
            (alter (unshift (length (heap st) :: generics)) ps
               (alter (register (flat_map importBinding entities)) (length (heap st))
                  (heap st ++ [mkScope ∅ [] None])))
            st.
Proof.
  intros [Hbound Hinj Hwf Hcont]. unfold linkImports, discriminate. simpl.
  set (sta := setHeap (heap st ++ [mkScope ∅ [] None]) st).
  assert (heap_wf (heap sta)) as Hwfa by (by apply heap_wf_snoc).
  assert (∀ i, i < length (heap st) → heap sta !! i = heap st !! i) as Hagreea.
  { intros i Hi. simpl. by rewrite lookup_app_l. }
  rewrite (mapM_ext (resolveImport sta) (resolveImport st))
    by (intros x; by apply resolveImport_agree).
  destruct (mapM (resolveImport st) _) as [entities|e]; simpl; [|done].
  set (stb := registerIn (length (heap st)) (flat_map importBinding entities) sta).
  assert (heap_wf (heap stb)) as Hwfb by (by apply heap_wf_register).
  assert (∀ i, i < length (heap st) → heap stb !! i = heap st !! i) as Hagreeb.
  { intros i Hi. simpl. rewrite list_lookup_alter_ne by lia. by rewrite lookup_app_l. }
  destruct (scope st node) as [ps|]; simpl; [|done].
  rewrite (mapM_ext (importedScope stb) (importedScope st)).
  2:{ intros x. unfold importedScope. rewrite (resolveImport_agree st stb) by done.
      destruct (resolveImport st x); done. }
  destruct (mapM (importedScope st) _) as [generics|e]; simpl; [|done].
  intros [= <-]. by exists ps, entities, generics.
Qed.

Lemma importedScope_bound visit st imported s :
  skeleton visit st → importedScope st imported = Ok s → s < length (heap st).
Proof.
  intros [Hbound _ _ _]. unfold importedScope.
  destruct (resolveImport st imported) as [t|e]; simpl; [|done].
  rewrite theScope_Ok. apply Hbound.
Qed.

Section second_traversal.
Context (hierarchy : Store → Node → Result (list Node)) (environment : Node).
Local Abbreviation visit := (pairs None environment).

Lemma crossLinks_steps st node par st4 :
  crossLinks hierarchy environment st (node, par) = Ok st4 →
  ∃ st1 st2 st3,
    (if is_a Kind.Environment node
     then linkEnvironment environment st node = Ok st1 else st1 = st) ∧
    (if is_a Kind.Package node && negb (bool_decide (imports node = []))
     then linkImports st1 node = Ok st2 else st2 = st1) ∧
    (if is_Module node then linkHierarchy hierarchy st2 node = Ok st3 else st3 = st2) ∧
    match par with
    | Some p =>
      if negb (is_Entity node)
      then ∃ ps, scope st3 p = Some ps ∧ st4 = registerIn ps (scopeContribution node) st3
      else st4 = st3
    | None => st4 = st3
    end.
Proof.
  unfold crossLinks.
  destruct (if is_a Kind.Environment node then _ else _) as [st1|e] eqn:H1;
    cbn [mbind Result_bind]; [|done].
  destruct (if is_a Kind.Package node && _ then _ else _) as [st2|e] eqn:H2;
    cbn [mbind Result_bind]; [|done].
  destruct (if is_Module node then _ else _) as [st3|e] eqn:H3;
    cbn [mbind Result_bind]; [|done].
  intros H4. exists st1, st2, st3.
  split. { destruct (is_a Kind.Environment node); congruence. }
  split. { destruct (is_a Kind.Package node && _); congruence. }
  split. { destruct (is_Module node); congruence. }
  destruct par as [p|]; [|congruence].
  destruct (negb (is_Entity node)); [|congruence].
  destruct (theScope st3 p) as [ps|e] eqn:Hps; cbn [mbind Result_bind] in H4; [|done].
  exists ps. apply theScope_Ok in Hps. split; congruence.
Qed.

Lemma registerIn_frame st s contribs :
  skeleton visit st →
  skeleton visit (registerIn s contribs st) ∧
  touches (λ i, i = s) (λ _, False) st (registerIn s contribs st).
Proof.
  intros Hsk. split; [|apply registerIn_touches].
  eapply skeleton_touches; [done|apply registerIn_touches|].
  apply heap_wf_register, Hsk.
Qed.

Lemma linkEnvironment_frame st node st1 :
  skeleton visit st →
  linkEnvironment environment st node = Ok st1 →
  skeleton visit st1 ∧ touches (λ i, scope st node = Some i) (λ _, False) st st1.
Proof.
  intros Hsk (s & contribs & Hs & ->)%linkEnvironment_effect.
  destruct (registerIn_frame st s contribs Hsk) as [Hsk1 Ht].
  split; [done|]. eapply touches_weaken; [| |done]; [by intros i ->|done].
Qed.

Lemma linkHierarchy_frame st node st1 :
  skeleton visit st →
  linkHierarchy hierarchy st node = Ok st1 →
  skeleton visit st1 ∧ touches (λ _, False) (λ i, scope st node = Some i) st st1.
Proof.
  intros Hsk (s & ancestors & supertypes & Hs & _ & Hsup & ->)%linkHierarchy_effect.
  assert (touches (λ _, False) (λ i, scope st node = Some i) st
            (setHeap (alter (push supertypes) s (heap st)) st)) as Ht.
  { eapply touches_weaken; [| |apply push_touches]; [done|by intros i ->]. }
  split; [|done]. eapply skeleton_touches; [done..|]. simpl.
  apply heap_wf_alter; [apply Hsk|done|].
  intros sc j Hsc. simpl. rewrite elem_of_app. intros [Hj|Hj].
  - destruct (sk_wf _ _ Hsk _ _ Hsc) as [_ H2]. by apply H2.
  - apply list_elem_of_lookup in Hj as [k Hk].
    destruct (Forall2_lookup_r _ _ _ _ _ Hsup Hk) as (a & _ & Ha).
    by eapply (sk_bound _ _ Hsk).
Qed.

Lemma linkImports_precise st node st1 :
  skeleton visit st →
  linkImports st node = Ok st1 →
  (skeleton visit st1 ∧ touches (λ _, False) (λ i, scope st node = Some i) st st1) ∧
  ∃ ps entities generics,
    scope st node = Some ps ∧
    mapM (resolveImport st) (discriminate isGeneric (imports node)).2 = Ok entities ∧
    mapM (importedScope st) (discriminate isGeneric (imports node)).1 = Ok generics ∧
    heap st1 !! length (heap st)
      = Some (register (flat_map importBinding entities) (mkScope ∅ [] None)) ∧
    ∀ sc, heap st !! ps = Some sc →
      heap st1 !! ps = Some (unshift (length (heap st) :: generics) sc).
Proof.
  intros Hsk Hlink.
  destruct (linkImports_effect _ _ _ _ Hsk Hlink)
    as (ps & entities & generics & Hps & Hents & Hgens & ->).
  pose proof (sk_bound _ _ Hsk _ _ Hps) as Hlt.
  set (N := length (heap st)) in *.
  set (bindings := flat_map importBinding entities).
  assert (touches (λ _, False) (λ i, scope st node = Some i) st
            (setHeap (alter (unshift (N :: generics)) ps
               (alter (register bindings) N (heap st ++ [mkScope ∅ [] None]))) st)) as Ht.
  { eapply touches_weaken; [| |apply touches_restrict].
    3:{ eapply touches_trans; [apply (newLocalScope_touches None st)|].
        eapply touches_trans;
          [apply (registerIn_touches N bindings (newLocalScope None st).2)|].
        exact (unshift_touches ps (N :: generics)
                 (registerIn N bindings (newLocalScope None st).2)). }
    - simpl. intros i [[[]|[-> |[]]] Hi]. fold N in Hi. lia.
    - simpl. intros i [[[]|[[]| ->]] _]. done. }
  split.
  { split; [|done]. eapply skeleton_touches; [done..|]. simpl.
    apply heap_wf_alter; [|done|].
    - apply heap_wf_register, heap_wf_snoc; [apply Hsk|done..].
    - intros sc j. rewrite length_alter, length_app. simpl. fold N.
      rewrite list_lookup_alter_ne by lia. rewrite lookup_app_l by done.
      intros Hsc [->|[Hj|Hj]%elem_of_app]%elem_of_cons; [lia| |].
      + apply list_elem_of_lookup in Hj as [k Hk].
        apply mapM_Ok_Forall2 in Hgens.
        destruct (Forall2_lookup_r _ _ _ _ _ Hgens Hk) as (a & _ & Ha).
        apply (importedScope_bound _ _ _ _ Hsk) in Ha. fold N in Ha. lia.
      + destruct (sk_wf _ _ Hsk _ _ Hsc) as [_ H2]. apply H2 in Hj. fold N in Hj. lia. }
  exists ps, entities, generics. repeat split; try done; simpl.
  - rewrite list_lookup_alter_ne by lia. rewrite list_lookup_alter_eq.
    by rewrite list_lookup_middle.
  - intros sc Hsc. rewrite list_lookup_alter_eq, list_lookup_alter_ne by lia.
    by rewrite lookup_app_l, Hsc.
Qed.

Lemma touches_scope C I st st1 node : touches C I st st1 → scope st1 node = scope st node.
Proof. intros (Hs & _). unfold scope. by rewrite Hs. Qed.

(** One visit of the second traversal, up to the registration in the scope
    of the parent that ends it. *)
Lemma crossLinks_split st node par st4 :
  skeleton visit st →
  crossLinks hierarchy environment st (node, par) = Ok st4 →
  ∃ st3,
    skeleton visit st3 ∧
    touches (λ i, is_a Kind.Environment node = true ∧ scope st node = Some i)
      (λ i, scope st node = Some i) st st3 ∧
    match par with
    | Some p =>
      if negb (is_Entity node)
      then ∃ ps, scope st p = Some ps ∧ st4 = registerIn ps (scopeContribution node) st3
      else st4 = st3
    | None => st4 = st3
    end.
Proof.
  intros Hsk (st1 & st2 & st3 & H1 & H2 & H3 & H4)%crossLinks_steps.
  assert (skeleton visit st1 ∧
          touches (λ i, is_a Kind.Environment node = true ∧ scope st node = Some i)
            (λ _, False) st st1) as [Hsk1 Ht1].
  { destruct (is_a Kind.Environment node).
    - edestruct linkEnvironment_frame as [? Ht]; [exact Hsk|exact H1|].
      split; [done|]. eapply touches_weaken; [| |done]; [by intros i ?|done].
    - subst st1. split; [done|apply touches_refl]. }
  assert (skeleton visit st2 ∧
          touches (λ _, False) (λ i, scope st node = Some i) st1 st2) as [Hsk2 Ht2].
  { destruct (is_a Kind.Package node && _).
    - edestruct linkImports_precise as [[? Ht] _]; [exact Hsk1|exact H2|]. split; [done|].
      eapply touches_weaken; [| |done]; [done|].
      intros i. by rewrite (touches_scope _ _ _ _ _ Ht1).
    - subst st2. split; [done|apply touches_refl]. }
  assert (skeleton visit st3 ∧
          touches (λ _, False) (λ i, scope st node = Some i) st2 st3) as [Hsk3 Ht3].
  { destruct (is_Module node).
    - edestruct linkHierarchy_frame as [? Ht]; [exact Hsk2|exact H3|]. split; [done|].
      eapply touches_weaken; [| |done]; [done|].
      intros i. by rewrite (touches_scope _ _ _ _ _ Ht2), (touches_scope _ _ _ _ _ Ht1).
    - subst st3. split; [done|apply touches_refl]. }
  exists st3. split; [done|]. split.
  { eapply touches_weaken;
      [| |exact (touches_trans _ _ _ _ _ _ _ Ht1 (touches_trans _ _ _ _ _ _ _ Ht2 Ht3))];
      simpl; intros i; tauto. }
  destruct par as [p|]; [|done]. destruct (negb (is_Entity node)); [|done].
  destruct H4 as (ps & Hps & ->). exists ps. split; [|done].
  by rewrite <- (touches_scope _ _ _ _ _ Ht1), <- (touches_scope _ _ _ _ _ Ht2),
    <- (touches_scope _ _ _ _ _ Ht3).
Qed.

(** One visit of the second traversal keeps the skeleton; it changes the own
    bindings of the scope of the environment and of the parent of a node that
    is not an entity, and the included scopes of the visited node, only. *)
Lemma crossLinks_frame st node par st4 :
  skeleton visit st →
  crossLinks hierarchy environment st (node, par) = Ok st4 →
  skeleton visit st4 ∧
  touches
    (λ i, (is_a Kind.Environment node = true ∧ scope st node = Some i) ∨
          (∃ p, par = Some p ∧ is_Entity node = false ∧ scope st p = Some i))
    (λ i, scope st node = Some i) st st4.
Proof.
  intros Hsk Hstep.
  destruct (crossLinks_split _ _ _ _ Hsk Hstep) as (st3 & Hsk3 & Ht3 & Hfinal).
  assert (skeleton visit st4 ∧
          touches (λ i, ∃ p, par = Some p ∧ is_Entity node = false ∧ scope st p = Some i)
            (λ _, False) st3 st4) as [Hsk4 Ht4].
  { destruct par as [p|]; [|subst st4; split; [done|apply touches_refl]].
    destruct (is_Entity node) eqn:Hent; simpl in Hfinal;
      [subst st4; split; [done|apply touches_refl]|].
    destruct Hfinal as (ps & Hps & ->).
    destruct (registerIn_frame st3 ps (scopeContribution node) Hsk3) as [? Ht].
    split; [done|]. eapply touches_weaken; [| |done]; [|done].
    intros i ->. by exists p. }
  split; [done|].
  eapply touches_weaken; [| |exact (touches_trans _ _ _ _ _ _ _ Ht3 Ht4)];
    simpl; intros i; tauto.
Qed.

(** The second traversal keeps the skeleton. *)
Lemma crossLinks_skeleton l st st1 :
  skeleton visit st →
  forEach (crossLinks hierarchy environment) l st = Ok st1 →
  skeleton visit st1 ∧ scopeOf st1 = scopeOf st.
Proof.
  revert st. induction l as [|[node par] l IH]; intros st Hsk.
  { intros [= <-]. by split. }
  cbn [forEach].
  destruct (crossLinks hierarchy environment st (node, par)) as [st2|e] eqn:Hstep;
    cbn [mbind Result_bind]; [|done].
  destruct (crossLinks_frame _ _ _ _ Hsk Hstep) as [Hsk2 (Hs & _)].
  intros [Hsk1 Hs1]%IH; [|done]. split; [done|congruence].
Qed.
End second_traversal.

Lemma skeletonSoFar_skeleton st0 visit st :
  skeletonSoFar st0 visit visit st → skeleton visit st.
Proof. intros [? ? ? ? ? ? ?]. by split. Qed.

Lemma assignScopes_steps hierarchy environment st0 st' :
  assignScopes hierarchy environment st0 = Ok st' →
  ∃ st1,
    forEach scopeSkeleton (pairs None environment) st0 = Ok st1 ∧
    forEach (crossLinks hierarchy environment) (pairs None environment) st1 = Ok st'.
Proof.
  unfold assignScopes.
  destruct (forEach scopeSkeleton _ st0) as [st1|e]; cbn [mbind Result_bind]; [|done].
  intros H. by exists st1.
Qed.

Lemma assignScopes_skeleton hierarchy environment st' :
  NoDup (ids environment) →
  assignScopes hierarchy environment (cached environment) = Ok st' →
  ∃ st1,
    forEach scopeSkeleton (pairs None environment) (cached environment) = Ok st1 ∧
    forEach (crossLinks hierarchy environment) (pairs None environment) st1 = Ok st' ∧
    skeletonSoFar (cached environment) (pairs None environment) (pairs None environment) st1 ∧
    skeleton (pairs None environment) st' ∧ scopeOf st' = scopeOf st1.
Proof.
  intros Hnd (st1 & H1 & H2)%assignScopes_steps. exists st1.
  destruct (cached_scopes environment) as [Hs Hh].
  pose proof (scopeSkeleton_skeleton environment (cached environment) Hnd Hs Hh
                (cached_parentOf environment) st1 H1) as Hsf.
  destruct (crossLinks_skeleton _ _ _ _ _ (skeletonSoFar_skeleton _ _ _ Hsf) H2) as [Hsk Hsc].
  done.
Qed.

(** ** The container of a scope *)

Section lexical_container.
Context (environment : Node) (Hnd : NoDup (ids environment)).
Local Abbreviation visit := (pairs None environment).

Lemma skeleton_hasLexicalContainer st v :
  skeleton visit st → v ∈ visit → hasLexicalContainer st visit v.
Proof.
  intros Hsk Hv. destruct (sk_container _ _ Hsk _ Hv) as (s & sc & Hs & Hsc & Hc).
  exists s, sc. split; [done|]. split; [done|].
  unfold containerOf in Hc. destruct v as [node [p|]]; simpl in *; [|done].
  apply list_elem_of_split in Hv as (pre & suf & Hsplit).
  destruct (pairs_root_parent_before _ _ _ _ _ Hsplit) as [pp Hpp].
  destruct (sk_container _ _ Hsk (p, pp)) as (sp & _ & Hsp & _).
  { rewrite Hsplit. apply elem_of_app. by left. }
  simpl in Hsp. exists sp. split; [done|].
  destruct (is_a Kind.Reference node && _).
  - destruct Hc as (gp & Hgp & [sg Hsg] & Hcont). exists gp, sg.
    split; [done|]. split; [done|]. split; [congruence|].
    intros ->. pose proof (sk_inj _ _ Hsk _ _ _ Hsg Hsp) as Hid.
    apply list_elem_of_split in Hgp as (pre1 & suf1 & Hsplit1).
    destruct (pairs_root_parent_before _ _ _ _ _ Hsplit1) as [gpp Hgpp].
    apply (visit_fresh environment Hnd _ _ _ Hsplit1). simpl. rewrite <- Hid.
    by apply (list_elem_of_fmap_2 (λ v : Node * option Node, id v.1) _ (gp, gpp)).
  - destruct Hc as [_ Hc]. congruence.
Qed.

Lemma skeleton_own_scope st v w :
  skeleton visit st → v ∈ visit → w ∈ visit → scope st v.1 = scope st w.1 → v = w.
Proof.
  intros Hsk Hv Hw Heq.
  destruct (sk_container _ _ Hsk _ Hv) as (s & _ & Hs & _).
  rewrite Hs in Heq. symmetry in Heq.
  apply (visit_id_eq environment Hnd); [done..|].
  by apply (sk_inj _ _ Hsk _ _ s).
Qed.
End lexical_container.

(** C4: in the first traversal of [assignScopes] every visited node gets a
    fresh scope of its own; the container of that scope is the scope of the
    node's parent, except for a Reference whose parent is a Class or a Mixin,
    whose container is the scope of the grandparent and never the scope of
    the Class or Mixin itself.  The second traversal leaves that as it is. *)
Theorem reference_container_is_grandparent (environment : Node) (st1 : Store) :
  NoDup (ids environment) →
  forEach scopeSkeleton (pairs None environment) (cached environment) = Ok st1 →
  (∀ v, v ∈ pairs None environment → hasLexicalContainer st1 (pairs None environment) v) ∧
  (∀ v w, v ∈ pairs None environment → w ∈ pairs None environment →
     scope st1 v.1 = scope st1 w.1 → v = w) ∧
  (∀ hierarchy st',
     forEach (crossLinks hierarchy environment) (pairs None environment) st1 = Ok st' →
     ∀ v, v ∈ pairs None environment → hasLexicalContainer st' (pairs None environment) v).
Proof.
  intros Hnd H1.
  destruct (cached_scopes environment) as [Hs Hh].
  pose proof (scopeSkeleton_skeleton environment (cached environment) Hnd Hs Hh
                (cached_parentOf environment) st1 H1) as Hsf.
  apply skeletonSoFar_skeleton in Hsf.
  split; [|split].
  - intros v Hv. by apply skeleton_hasLexicalContainer.
  - intros v w. by apply skeleton_own_scope.
  - intros hierarchy st' H2 v Hv.
    destruct (crossLinks_skeleton _ _ _ _ _ Hsf H2) as [Hsk _].
    by apply skeleton_hasLexicalContainer.
Qed.

Lemma sample_ids_NoDup : NoDup (ids SampleEnvironment.environment).
Proof. refine (bool_decide_unpack _ _). vm_compute. exact I. Defined.

Lemma reference_container_is_grandparent_witness :
  ∃ st1,
    forEach scopeSkeleton (pairs None SampleEnvironment.environment)
      (cached SampleEnvironment.environment) = Ok st1 ∧
    (∀ v, v ∈ pairs None SampleEnvironment.environment →
       hasLexicalContainer st1 (pairs None SampleEnvironment.environment) v).
Proof.
  assert (∃ st1, forEach scopeSkeleton (pairs None SampleEnvironment.environment)
                   (cached SampleEnvironment.environment) = Ok st1) as [st1 H1].
  { eexists. vm_compute. reflexivity. }
  exists st1. split; [exact H1|].
  exact (proj1 (reference_container_is_grandparent SampleEnvironment.environment st1
                  sample_ids_NoDup H1)).
Defined.

(** ** Registration and shadowing *)

Lemma fold_insert_other (rest : list (string * Node)) (m : gmap string Node) n :
  n ∉ rest.*1 →
  fold_left (λ m c, <[c.1:=c.2]> m) rest m !! n = m !! n.
Proof.
  revert m. induction rest as [|[k w] rest IH]; intros m Hnin; simpl; [done|].
  rewrite fmap_cons, not_elem_of_cons in Hnin. destruct Hnin as [Hne Hnin].
  rewrite IH by done. simpl in *. by rewrite lookup_insert_ne.
Qed.

Lemma register_last_wins contribs n v rest sc :
  n ∉ rest.*1 →
  contributions (register (contribs ++ (n, v) :: rest) sc) !! n = Some v.
Proof.
  intros Hnin. unfold register. simpl. rewrite fold_left_app. simpl.
  rewrite fold_insert_other by done. apply lookup_insert_eq.
Qed.

Lemma register_other contribs n sc :
  n ∉ contribs.*1 →
  contributions (register contribs sc) !! n = contributions sc !! n.
Proof. intros Hnin. unfold register. simpl. by apply fold_insert_other. Qed.

Lemma scopeContribution_cases node :
  scopeContribution node = [] ∨ ∃ y, scopeContribution node = [(y, node)].
Proof.
  unfold scopeContribution. destruct (_ || _); [|by left].
  destruct (name node) as [y|]; [|by left].
  case_bool_decide; [by left|]. right. by exists y.
Qed.

Section shadowing.
Context (hierarchy : Store → Node → Result (list Node)) (environment : Node).
Context (Hnd : NoDup (ids environment)).
Local Abbreviation visit := (pairs None environment).

Context (P : Node) (x : string).

Lemma lastContribution_step pre node par suf st st4 :
  visit = pre ++ (node, par) :: suf →
  skeleton visit st →
  lastContribution P x pre st →
  crossLinks hierarchy environment st (node, par) = Ok st4 →
  lastContribution P x (pre ++ [(node, par)]) st4.
Proof.
  intros Hsplit Hsk Hinv Hstep.
  destruct (crossLinks_split _ _ _ _ _ _ Hsk Hstep) as (st3 & Hsk3 & Ht3 & Hfinal).
  pose proof Ht3 as (Hscope3 & _ & Hlen3 & Hheap3).
  intros v. rewrite filter_app, filter_cons, filter_nil.
  destruct (decide (contributesTo P x (node, par) = true)) as [Hc|Hc].
  - rewrite last_snoc. intros [= <-]. simpl.
    unfold contributesTo in Hc. simpl in Hc. destruct par as [p|]; [|done].
    apply andb_true_iff in Hc as [[Hid Hne]%andb_true_iff Hnames].
    apply bool_decide_eq_true_1 in Hid. apply bool_decide_eq_true_1 in Hnames.
    rewrite Hne in Hfinal. destruct Hfinal as (ps & Hps & ->).
    pose proof (sk_bound _ _ Hsk _ _ Hps) as Hlt.
    destruct (lookup_lt_is_Some_2 (heap st3) ps) as [sc3 Hsc3]; [lia|].
    exists ps, (register (scopeContribution node) sc3).
    split. { unfold scope in *. simpl. rewrite Hscope3, <- Hid. done. }
    split. { simpl. rewrite list_lookup_alter_eq, Hsc3. reflexivity. }
    destruct (scopeContribution_cases node) as [Hnil|[y Hy]]; rewrite ?Hnil, ?Hy in *; [done|].
    injection Hnames as ->.
    apply (register_last_wins [] x node [] sc3). by intros ?%elem_of_nil.
  - rewrite app_nil_r. intros Hlast.
    destruct (Hinv v Hlast) as (sp & sc & Hsp & Hsc & Hx).
    assert (v ∈ pre ∧ contributesTo P x v = true) as [Hv Hcv].
    { apply last_Some_elem_of in Hlast. by apply list_elem_of_filter in Hlast as [? ?]. }
    destruct (Hheap3 _ _ Hsc) as (sc3 & Hsc3 & _ & Hcont3 & _).
    assert (contributions sc3 = contributions sc) as Hsame.
    { apply Hcont3. intros [_ Hnode].
      pose proof (sk_inj _ _ Hsk _ _ _ Hnode Hsp) as Hid.
      destruct v as [c [p'|]]; unfold contributesTo in Hcv; simpl in Hcv; [|done].
      apply andb_true_iff in Hcv as [[Hid' _]%andb_true_iff _].
      apply bool_decide_eq_true_1 in Hid'.
      apply list_elem_of_split in Hv as (pre1 & pre2 & ->).
      rewrite <- app_assoc in Hsplit. simpl in Hsplit.
      destruct (pairs_root_parent_before _ _ _ _ _ Hsplit) as [pp Hpp].
      rewrite app_comm_cons, app_assoc in Hsplit.
      apply (visit_fresh environment Hnd _ _ _ Hsplit). simpl.
      rewrite Hid, <- Hid'. rewrite fmap_app, elem_of_app. left.
      by apply (list_elem_of_fmap_2 (λ v : Node * option Node, id v.1) _ (p', pp)). }
    assert (scope st4 P = Some sp) as Hsp4.
    { destruct par as [p|]; [destruct (negb (is_Entity node))|];
        try destruct Hfinal as (ps & _ & ->); subst; unfold scope in *; simpl;
        by rewrite Hscope3. }
    exists sp. destruct par as [p|]; [|subst st4; exists sc3; by rewrite Hsame].
    destruct (negb (is_Entity node)) eqn:Hne; [|subst st4; exists sc3; by rewrite Hsame].
    destruct Hfinal as (ps & Hps & ->). simpl.
    destruct (decide (ps = sp)) as [->|Hps'].
    + exists (register (scopeContribution node) sc3).
      split; [done|]. split; [rewrite list_lookup_alter_eq, Hsc3; reflexivity|].
      rewrite register_other, Hsame; [done|].
      intros Hin. apply Hc. unfold contributesTo. simpl.
      pose proof (sk_inj _ _ Hsk _ _ _ Hps Hsp) as Hid.
      rewrite Hne, (bool_decide_eq_true_2 _ Hid). simpl. apply bool_decide_eq_true_2.
      destruct (scopeContribution_cases node) as [Hnil|[y Hy]]; rewrite ?Hnil, ?Hy in *.
      * by apply elem_of_nil in Hin.
      * simpl in Hin. apply list_elem_of_singleton in Hin. by subst y.
    + exists sc3. split; [done|]. split; [by rewrite list_lookup_alter_ne|].
      by rewrite Hsame.
Qed.

Lemma crossLinks_lastContribution st1 st' :
  skeleton visit st1 →
  forEach (crossLinks hierarchy environment) visit st1 = Ok st' →
  skeleton visit st' ∧ lastContribution P x visit st'.
Proof.
  intros Hsk.
  apply (forEach_prefix_invariant (crossLinks hierarchy environment)
           (λ pre st, skeleton visit st ∧ lastContribution P x pre st)).
  - split; [done|]. by intros v.
  - intros pre [node par] suf st st2 Hsplit [Hsk0 Hinv] Hstep. split.
    + by destruct (crossLinks_frame _ _ _ _ _ _ Hsk0 Hstep).
    + by eapply lastContribution_step.
Qed.
End shadowing.

Lemma contributesTo_field P f x :
  (is_a Kind.Field f || is_a Kind.Param f) = true →
  name f = Some x → x ≠ EmptyString →
  contributesTo P x (f, Some P) = true.
Proof.
  intros Hkind Hname Hx. unfold contributesTo. simpl.
  rewrite bool_decide_eq_true_2 by done. simpl.
  assert (is_Entity f = false) as Hent.
  { unfold is_Entity, is_Module, is_a in *.
    destruct (kind f); simpl in *; try done. }
  rewrite Hent. simpl. apply bool_decide_eq_true_2.
  unfold scopeContribution. rewrite Hent, Hname. simpl.
  rewrite Hkind. by rewrite bool_decide_eq_false_2.
Qed.

Lemma scopeSkeleton_registers st n par st1 :
  scopeSkeleton st (n, par) = Ok st1 →
  ∃ container,
    scopeOf st1 = <[id n := length (heap st)]> (scopeOf st) ∧
    if is_Entity n then
      ∃ p ps, par = Some p ∧ scope st1 p = Some ps ∧
        heap st1 = alter (register (scopeContribution n)) ps
                     (heap st ++ [mkScope ∅ [] container])
    else heap st1 = heap st ++ [mkScope ∅ [] container].
Proof.
  unfold scopeSkeleton.
  destruct ((if is_a Kind.Reference n then _ else _) : Result (option nat))
    as [container|e]; simpl; [|done].
  intros Hrest. exists container. destruct (is_Entity n).
  - destruct par as [p|]; [|done].
    destruct (theScope _ p) as [ps|e] eqn:Hps; simpl in Hrest; [|done].
    injection Hrest as <-. split; [done|]. exists p, ps. apply theScope_Ok in Hps. done.
  - by injection Hrest as <-.
Qed.

Section entities.
Context (environment : Node) (st0 : Store).
Local Abbreviation visit := (pairs None environment).
Context (Hnd : NoDup (ids environment)).
Context (P : Node) (x : string).

Lemma lastEntity_step pre n par suf st st1 :
  visit = pre ++ (n, par) :: suf →
  skeletonSoFar st0 visit pre st →
  lastEntity P x pre st →
  scopeSkeleton st (n, par) = Ok st1 →
  lastEntity P x (pre ++ [(n, par)]) st1.
Proof.
  intros Hsplit Hsf Hinv Hstep.
  destruct (scopeSkeleton_registers _ _ _ _ Hstep) as (container & Hscope1 & Hheap1).
  pose proof (visit_fresh environment Hnd _ _ _ Hsplit) as Hfresh. simpl in Hfresh.
  assert (∀ m s, scope st m = Some s → id m ≠ id n) as Hold.
  { intros m s Hs Heq. apply Hfresh, (sf_dom _ _ _ _ Hsf). rewrite <- Heq. by eexists. }
  assert (∀ m s, scope st m = Some s → scope st1 m = Some s) as Hkeep.
  { intros m s Hs. unfold scope in *. rewrite Hscope1, lookup_insert_ne; [done|].
    intros Heq. by apply (Hold m s). }
  assert (∀ p, par = Some p → ∃ ps, scope st p = Some ps ∧ ps < length (heap st)) as Hpar.
  { intros p ->. destruct (pairs_root_parent_before _ _ _ _ _ Hsplit) as [pp Hpp].
    destruct (sf_container _ _ _ _ Hsf _ Hpp) as (ps & _ & Hps & _). exists ps.
    split; [done|]. by apply (sf_bound _ _ _ _ Hsf) in Hps. }
  intros v. rewrite filter_app, filter_cons, filter_nil.
  destruct (decide (registersEntity P x (n, par) = true)) as [Hc|Hc].
  - rewrite last_snoc. intros [= <-]. simpl.
    unfold registersEntity in Hc. simpl in Hc. destruct par as [p|]; [|done].
    apply andb_true_iff in Hc as [[Hid Hent]%andb_true_iff Hnames].
    apply bool_decide_eq_true_1 in Hid. apply bool_decide_eq_true_1 in Hnames.
    rewrite Hent in Hheap1. destruct Hheap1 as (p' & ps & [= <-] & Hps & Hheap1).
    destruct (Hpar p eq_refl) as (ps' & Hps' & Hlt).
    rewrite (Hkeep _ _ Hps') in Hps. injection Hps as <-.
    destruct (lookup_lt_is_Some_2 _ _ Hlt) as [sc Hsc].
    exists ps', (register (scopeContribution n) sc).
    split. { unfold scope in *. by rewrite <- Hid, <- (Hkeep _ _ Hps'). }
    split. { rewrite Hheap1, list_lookup_alter_eq, lookup_app_l, Hsc by done. done. }
    destruct (scopeContribution_cases n) as [Hnil|[y Hy]]; rewrite ?Hnil, ?Hy in *; [done|].
    injection Hnames as ->.
    apply (register_last_wins [] x n [] sc). by intros ?%elem_of_nil.
  - rewrite app_nil_r. intros Hlast.
    destruct (Hinv v Hlast) as (sp & sc & Hsp & Hsc & Hx).
    pose proof (lookup_lt_Some _ _ _ Hsc) as Hlt.
    exists sp. destruct (is_Entity n) eqn:Hent.
    + destruct Hheap1 as (p & ps & -> & Hps & Hheap1).
      destruct (Hpar p eq_refl) as (ps' & Hps' & _).
      rewrite (Hkeep _ _ Hps') in Hps. injection Hps as <-.
      destruct (decide (ps' = sp)) as [->|Hne].
      * exists (register (scopeContribution n) sc). split; [by apply Hkeep|].
        split. { rewrite Hheap1, list_lookup_alter_eq, lookup_app_l, Hsc by done. done. }
        rewrite register_other; [done|]. intros Hin. apply Hc.
        unfold registersEntity. simpl.
        pose proof (sf_inj _ _ _ _ Hsf _ _ _ Hps' Hsp) as Hid.
        rewrite Hent, (bool_decide_eq_true_2 _ Hid). simpl. apply bool_decide_eq_true_2.
        destruct (scopeContribution_cases n) as [Hnil|[y Hy]]; rewrite ?Hnil, ?Hy in *.
        -- by apply elem_of_nil in Hin.
        -- simpl in Hin. apply list_elem_of_singleton in Hin. by subst y.
      * exists sc. split; [by apply Hkeep|]. split; [|done].
        by rewrite Hheap1, list_lookup_alter_ne, lookup_app_l.
    + exists sc. split; [by apply Hkeep|]. split; [|done].
      by rewrite Hheap1, lookup_app_l.
Qed.
End entities.

Lemma scopeSkeleton_lastEntity environment st1 P x :
  NoDup (ids environment) →
  forEach scopeSkeleton (pairs None environment) (cached environment) = Ok st1 →
  lastEntity P x (pairs None environment) st1.
Proof.
  intros Hnd Hrun. destruct (cached_scopes environment) as [Hs Hh].
  enough (skeletonSoFar (cached environment) (pairs None environment)
            (pairs None environment) st1 ∧
          lastEntity P x (pairs None environment) st1) as [_ ?] by done.
  revert Hrun.
  apply (forEach_prefix_invariant scopeSkeleton
           (λ pre st, skeletonSoFar (cached environment) (pairs None environment) pre st ∧
                      lastEntity P x pre st)).
  - split; [by apply skeletonSoFar_start|]. by intros v.
  - intros pre [n par] suf st st2 Hsplit [Hsf Hinv] Hstep. split.
    + eapply skeletonSoFar_step; [done|apply cached_parentOf|done..].
    + by eapply lastEntity_step.
Qed.

(** C10: [register] overwrites: of the contributions of a batch the last one
    listed for a name is what the name is bound to afterwards, whatever was
    bound before.  The first traversal of [assignScopes] binds, in the scope
    of a node, the name of an entity child to the last entity child of that
    name.  After the second traversal a name contributed by a Field or
    Parameter is bound in the scope of its parent to the last child of that
    parent, in traversal order, that is not an entity and contributes the
    name — not to an entity of that name any more — and that is what
    [resolve] from that scope answers from then on. *)
Theorem field_shadows_entity (hierarchy : Store → Node → Result (list Node))
    (environment : Node) (st' : Store) (P f : Node) (x : string) :
  NoDup (ids environment) →
  assignScopes hierarchy environment (cached environment) = Ok st' →
  (f, Some P) ∈ pairs None environment →
  (is_a Kind.Field f || is_a Kind.Param f) = true →
  name f = Some x → x ≠ EmptyString →
  (∀ contribs n v rest sc,
     n ∉ rest.*1 →
     contributions (register (contribs ++ (n, v) :: rest) sc) !! n = Some v) ∧
  ∃ st1 sp sc1 sc c,
    forEach scopeSkeleton (pairs None environment) (cached environment) = Ok st1 ∧
    scope st1 P = Some sp ∧ heap st1 !! sp = Some sc1 ∧
    (∀ e, last (filter (λ v, registersEntity P x v = true) (pairs None environment))
            = Some e →
          is_Entity e.1 = true ∧ contributions sc1 !! x = Some e.1) ∧
    scope st' P = Some sp ∧ heap st' !! sp = Some sc ∧
    last (filter (λ v, contributesTo P x v = true) (pairs None environment))
      = Some (c, Some P) ∧
    is_Entity c = false ∧
    contributions sc !! x = Some c ∧
    ∀ allowLookup, resolve (heap st') sp x allowLookup = Ok (Some c).
Proof.
  intros Hnd Hassign Hf Hkind Hname Hx.
  split; [apply register_last_wins|].
  destruct (assignScopes_skeleton _ _ _ Hnd Hassign) as (st1 & H1 & H2 & Hsf & _ & Hscopes).
  pose proof (scopeSkeleton_lastEntity environment st1 P x Hnd H1) as Hentity.
  apply skeletonSoFar_skeleton in Hsf.
  destruct (crossLinks_lastContribution hierarchy environment Hnd P x st1 st' Hsf H2)
    as [Hsk Hlast].
  destruct (last (filter (λ v, contributesTo P x v = true) (pairs None environment)))
    as [[c par]|] eqn:Hl.
  2:{ apply last_None in Hl.
      assert ((f, Some P) ∈ filter (λ v, contributesTo P x v = true)
                (pairs None environment)) as Hin.
      { apply list_elem_of_filter. split; [by apply contributesTo_field|done]. }
      rewrite Hl in Hin. by apply elem_of_nil in Hin. }
  destruct (Hlast _ Hl) as (sp & sc & Hsp & Hsc & Hbound). simpl in Hbound.
  pose proof (last_Some_elem_of _ _ Hl) as Hc.
  apply list_elem_of_filter in Hc as [Hc Hcin].
  unfold contributesTo in Hc. simpl in Hc. destruct par as [p|]; [|done].
  apply andb_true_iff in Hc as [[Hid Hne]%andb_true_iff _].
  apply bool_decide_eq_true_1 in Hid. apply negb_true_iff in Hne.
  assert (p = P) as ->.
  { apply list_elem_of_split in Hcin as (pre & suf & Hsplit).
    destruct (pairs_root_parent_before _ _ _ _ _ Hsplit) as [pp Hpp].
    apply list_elem_of_split in Hf as (pre' & suf' & Hsplit').
    destruct (pairs_root_parent_before _ _ _ _ _ Hsplit') as [pp' Hpp'].
    assert ((p, pp) = (P, pp')) as [= -> _]; [|done].
    apply (visit_id_eq environment Hnd); [| |done].
    - rewrite Hsplit. apply elem_of_app. by left.
    - rewrite Hsplit'. apply elem_of_app. by left. }
  assert (scope st1 P = Some sp) as Hsp1 by (unfold scope in *; by rewrite <- Hscopes).
  destruct (lookup_lt_is_Some_2 _ _ (sk_bound _ _ Hsf _ _ Hsp1)) as [sc1 Hsc1].
  exists st1, sp, sc1, sc, c. do 3 (split; [done|]). split.
  { intros e He. split.
    - apply last_Some_elem_of, list_elem_of_filter in He as [He _].
      unfold registersEntity in He.
      by apply andb_true_iff in He as [[_ ?]%andb_true_iff _].
    - destruct (Hentity _ He) as (sp' & sc' & Hsp' & Hsc' & Hbound').
      rewrite Hsp1 in Hsp'. injection Hsp' as <-. congruence. }
  do 5 (split; [done|]).
  intros allowLookup. rewrite (resolve_unfold _ _ _ sc); [|apply Hsk|done].
  by rewrite Hbound.
Qed.

Lemma field_shadows_entity_witness :
  ∃ st' P f,
    pairs None SampleEnvironment.environment !! 15 = Some (f, Some P) ∧
    assignScopes SampleEnvironment.hierarchy SampleEnvironment.environment
      (cached SampleEnvironment.environment) = Ok st' ∧
    ∃ sp sc c,
      scope st' P = Some sp ∧ heap st' !! sp = Some sc ∧
      last (filter (λ v, contributesTo P "g" v = true)
              (pairs None SampleEnvironment.environment)) = Some (c, Some P) ∧
      is_Entity c = false ∧
      contributions sc !! "g"%string = Some c ∧
      ∀ allowLookup, resolve (heap st') sp "g" allowLookup = Ok (Some c).
Proof.
  destruct (pairs None SampleEnvironment.environment !! 15) as [[f [P|]]|] eqn:Hk;
    [|vm_compute in Hk; discriminate Hk..].
  destruct (assignScopes SampleEnvironment.hierarchy SampleEnvironment.environment
              (cached SampleEnvironment.environment)) as [st'|e] eqn:Ha;
    [|vm_compute in Ha; discriminate Ha].
  exists st', P, f. split; [reflexivity|]. split; [reflexivity|].
  pose proof (list_elem_of_lookup_2 _ _ _ Hk) as Hin.
  vm_compute in Hk. injection Hk as <- <-.
  edestruct (proj2 (field_shadows_entity SampleEnvironment.hierarchy
                      SampleEnvironment.environment st' _ _ "g"
                      sample_ids_NoDup Ha Hin eq_refl eq_refl
                      (λ H : "g"%string = EmptyString, eq_ind "g"%string
                         (λ s, match s with EmptyString => False | _ => True end) I _ H)))
    as (st1 & sp & sc1 & sc & c & _ & _ & _ & _ & Hsp & Hsc & Hlast & Hent & Hc & Hres).
  exists sp, sc, c. exact (conj Hsp (conj Hsc (conj Hlast (conj Hent (conj Hc Hres))))).
Defined.

(** ** Imports *)

Lemma importScope_binding (entities : list Node) (n : string) :
  fold_left (λ m c, <[c.1 := c.2]> m) (flat_map importBinding entities)
    (∅ : gmap string Node) !! n
  = last (filter (λ e, name e = Some n) entities).
Proof.
  induction entities as [|e entities IH] using rev_ind; [done|].
  rewrite flat_map_app, fold_left_app, filter_app.
  rewrite filter_cons, filter_nil.
  destruct (decide (name e = Some n)) as [Hn|Hn].
  - rewrite last_snoc. unfold importBinding at 1. simpl. rewrite Hn. simpl.
    apply lookup_insert_eq.
  - rewrite app_nil_r, <- IH. unfold importBinding at 1. simpl.
    destruct (name e) as [k|]; simpl; [|done].
    rewrite lookup_insert_ne; [done|congruence].
Qed.

Lemma is_Package_kinds node :
  is_a Kind.Package node = true →
  is_a Kind.Environment node = false ∧ is_Module node = false ∧ is_Entity node = true.
Proof.
  unfold is_Entity, is_Module, is_a. intros Hk%bool_decide_eq_true_1. by rewrite Hk.
Qed.

Section imports.
Context (hierarchy : Store → Node → Result (list Node)) (environment : Node).
Context (Hnd : NoDup (ids environment)).
Local Abbreviation visit := (pairs None environment).
Context (st1 : Store) (P : Node) (par : option Node).
Context (HP : (P, par) ∈ visit).
Context (Hpkg : is_a Kind.Package P = true) (Himports : imports P ≠ []).

Lemma importsSoFar_step pre node par0 suf st st4 :
  visit = pre ++ (node, par0) :: suf →
  forEach (crossLinks hierarchy environment) pre st1 = Ok st →
  skeleton visit st →
  importsSoFar hierarchy environment st1 P par pre st →
  crossLinks hierarchy environment st (node, par0) = Ok st4 →
  importsSoFar hierarchy environment st1 P par (pre ++ [(node, par0)]) st4.
Proof.
  intros Hsplit Hrun Hsk [Hbefore Hafter] Hstep.
  assert ((node, par0) ∈ visit) as Hin.
  { rewrite Hsplit. apply elem_of_app. right. left. }
  destruct (decide (id node = id P)) as [Hid|Hid].
  - (* the visit of [P] itself *)
    assert ((node, par0) = (P, par)) as [= -> ->] by (by apply (visit_id_eq environment Hnd)).
    assert ((P, par) ∉ pre) as Hnotin.
    { intros Hpre. apply (visit_fresh environment Hnd _ _ _ Hsplit).
      by apply (list_elem_of_fmap_2 (λ v : Node * option Node, id v.1) _ (P, par)). }
    split; [intros Hn; destruct Hn; apply elem_of_app; right; left|]. intros _.
    destruct (is_Package_kinds _ Hpkg) as (Henv & Hmod & Hent).
    apply crossLinks_steps in Hstep as (sta & stb & stc & Ha & Hb & Hc & Hd).
    rewrite Henv in Ha. subst sta. rewrite Hmod in Hc. subst stc.
    rewrite Hpkg, (bool_decide_eq_false_2 _ Himports) in Hb. simpl in Hb.
    assert (st4 = stb) as ->.
    { destruct par as [p|]; [|done]. by rewrite Hent in Hd. }
    destruct (linkImports_precise environment _ _ _ Hsk Hb)
      as [[Hskb (Hscopeb & _)] (ps & entities & generics & Hps & Hents & Hgens & Hnew & Hold)].
    pose proof (sk_bound _ _ Hsk _ _ Hps) as Hlt.
    destruct (lookup_lt_is_Some_2 _ _ Hlt) as [sc0 Hsc0].
    exists pre, suf, st, ps, (unshift (length (heap st) :: generics) sc0),
      (length (heap st)), (register (flat_map importBinding entities) (mkScope ∅ [] None)),
      entities, generics.
    split; [done|]. split; [done|].
    split. { unfold scope in *. by rewrite Hscopeb. }
    split; [by apply Hold|]. split; [done|]. split; [done|]. split; [done|].
    split; [done|]. split.
    { simpl. by rewrite (Hbefore Hnotin _ _ Hps Hsc0), app_nil_r. }
    rewrite Hscopeb. intros i Hi. apply (sk_bound _ _ Hsk) in Hi. lia.
  - (* the visit of another node *)
    assert ((node, par0) ≠ (P, par)) as Hne by congruence.
    destruct (crossLinks_frame _ _ _ _ _ _ Hsk Hstep) as [Hsk4 Ht].
    pose proof Ht as (Hscope4 & _ & Hlen4 & Hheap4).
    assert (∀ sp, scope st P = Some sp → scope st node ≠ Some sp) as Hother.
    { intros sp Hsp Hnode. apply Hid. by apply (sk_inj _ _ Hsk _ _ sp). }
    split.
    + intros Hnotin sp sc4 Hsp4 Hsc4.
      assert (scope st P = Some sp) as Hsp by (unfold scope in *; by rewrite <- Hscope4).
      destruct (lookup_lt_is_Some_2 _ _ (sk_bound _ _ Hsk _ _ Hsp)) as [sc Hsc].
      destruct (Hheap4 _ _ Hsc) as (sc' & Hsc' & _ & _ & Hincl).
      rewrite Hsc4 in Hsc'. injection Hsc' as <-.
      rewrite Hincl by (by apply Hother). apply (Hbefore) with sp; [|done..].
      intros Hpre. apply Hnotin, elem_of_app. by left.
    + intros [Hpre|Hlast%list_elem_of_singleton]%elem_of_app; [|congruence].
      destruct (Hafter Hpre) as (pre0 & suf0 & stp & sp & sc & importScope & isc & entities
        & generics & Hsplit0 & Hrun0 & Hsp & Hsc & Hisc & Hents & Hgens & Hbind & Hincl & Hfresh).
      destruct (Hheap4 _ _ Hsc) as (sc4 & Hsc4 & _ & _ & Hincl4).
      destruct (Hheap4 _ _ Hisc) as (isc4 & Hisc4 & _ & Hcont4 & _).
      exists pre0, suf0, stp, sp, sc4, importScope, isc4, entities, generics.
      split; [done|]. split; [done|].
      split. { unfold scope in *. by rewrite Hscope4. }
      split; [done|]. split; [done|]. split; [done|]. split; [done|].
      split. { rewrite Hcont4; [done|]. unfold scope. intros [[_ H]|(p & _ & _ & H)];
               by apply Hfresh in H. }
      split. { rewrite Hincl4; [done|]. by apply Hother. }
      by rewrite Hscope4.
Qed.

Lemma crossLinks_importsSoFar st' :
  skeleton visit st1 →
  (∀ i sc, heap st1 !! i = Some sc → includedScopes sc = []) →
  forEach (crossLinks hierarchy environment) visit st1 = Ok st' →
  skeleton visit st' ∧ importsSoFar hierarchy environment st1 P par visit st'.
Proof.
  intros Hsk Hnone Hrun.
  enough (forEach (crossLinks hierarchy environment) visit st1 = Ok st' ∧
          skeleton visit st' ∧ importsSoFar hierarchy environment st1 P par visit st')
    as (_ & ? & ?) by done.
  revert Hrun.
  apply (forEach_prefix_invariant (crossLinks hierarchy environment)
           (λ pre st, forEach (crossLinks hierarchy environment) pre st1 = Ok st ∧
                      skeleton visit st ∧
                      importsSoFar hierarchy environment st1 P par pre st)).
  - split; [done|]. split; [done|]. split.
    + intros _ sp sc _ Hsc. by eapply Hnone.
    + by intros ?%elem_of_nil.
  - intros pre [node par0] suf st st2 Hsplit (Hrun & Hsk0 & Hinv) Hstep.
    split; [by rewrite forEach_app, Hrun; cbn [forEach mbind Result_bind]; rewrite Hstep|].
    split; [by destruct (crossLinks_frame _ _ _ _ _ _ Hsk0 Hstep)|].
    by eapply importsSoFar_step.
Qed.
End imports.

(** ** The rebuild of the tree *)

Section identifiers.
Context (uuid : nat → string).

Lemma transform_unfold node calls :
  transform uuid node calls =
    let '(imports', calls1) := transformAll (transform uuid) (imports node) (S calls) in
    let '(entity', calls2) :=
      match entity node with
      | Some e => let '(e, c) := transform uuid e calls1 in (Some e, c)
      | None => (None, calls1)
      end in
    let '(others', calls3) := transformAll (transform uuid) (others node) calls2 in
    let '(members', calls4) := transformAll (transform uuid) (members node) calls3 in
    (mkNode (kind node) (uuid calls) (name node) (source node) (isGeneric node)
       imports' members' entity' others', calls4).
Proof. by destruct node. Qed.

Lemma transformAll_freshIds l :
  Forall (freshIds uuid) l →
  ∀ calls par,
    calls ≤ (transformAll (transform uuid) l calls).2 ∧
    (λ v : Node * option Node, id v.1) <$>
      flat_map (pairs par) (transformAll (transform uuid) l calls).1
      = uuid <$> seq calls ((transformAll (transform uuid) l calls).2 - calls).
Proof.
  induction 1 as [|n l Hn _ IH]; intros calls par; simpl.
  { split; [done|]. by rewrite Nat.sub_diag. }
  destruct (Hn calls par) as [Hlt Hids].
  destruct (transform uuid n calls) as [n' c1]. simpl in *.
  destruct (IH c1 par) as [Hle Hids'].
  destruct (transformAll (transform uuid) l c1) as [l' c2]. simpl in *.
  split; [lia|].
  rewrite fmap_app, Hids, Hids'.
  replace (c2 - calls) with ((c1 - calls) + (c2 - c1)) by lia.
  rewrite seq_app, fmap_app. do 3 f_equal. lia.
Qed.

Lemma transform_freshIds node : freshIds uuid node.
Proof.
  induction node as [node IH] using Node_children_ind.
  unfold children in IH.
  apply Forall_app in IH as [Himports IH]. apply Forall_app in IH as [Hentity IH].
  apply Forall_app in IH as [Hothers Hmembers].
  intros calls par. rewrite transform_unfold.
  pose proof (transformAll_freshIds _ Himports (S calls)) as H1. revert H1.
  destruct (transformAll (transform uuid) (imports node) (S calls)) as [imports' c1].
  simpl. intros H1.
  assert (∃ entity' c2,
            match entity node with
            | Some e => let '(e, c) := transform uuid e c1 in (Some e, c)
            | None => (None, c1)
            end = (entity', c2) ∧ c1 ≤ c2 ∧
            ∀ par, (λ v : Node * option Node, id v.1) <$>
                     match entity' with Some e => pairs par e | None => [] end
                   = uuid <$> seq c1 (c2 - c1)) as (entity' & c2 & -> & Hc2 & H2).
  { destruct (entity node) as [e|]; simpl in Hentity.
    - apply Forall_cons in Hentity as [He _]. unfold freshIds in He.
      destruct (transform uuid e c1) as [e' c2] eqn:Het. exists (Some e'), c2.
      split; [done|]. split.
      + specialize (He c1 None). rewrite Het in He. simpl in He. lia.
      + intros par'. specialize (He c1 par'). rewrite Het in He. by destruct He.
    - exists None, c1. split; [done|]. split; [done|]. intros _. by rewrite Nat.sub_diag. }
  pose proof (transformAll_freshIds _ Hothers c2) as H3. revert H3.
  destruct (transformAll (transform uuid) (others node) c2) as [others' c3].
  simpl. intros H3.
  pose proof (transformAll_freshIds _ Hmembers c3) as H4. revert H4.
  destruct (transformAll (transform uuid) (members node) c3) as [members' c4].
  simpl. intros H4.
  set (node' := mkNode _ _ _ _ _ _ _ _ _).
  destruct (H1 (Some node')) as [Hc1 E1]. destruct (H3 (Some node')) as [Hc3 E3].
  destruct (H4 (Some node')) as [Hc4 E4]. specialize (H2 (Some node')).
  split; [lia|].
  rewrite !fmap_app, E1, H2, E3, E4.
  replace (c4 - calls) with (1 + ((c1 - S calls) + ((c2 - c1) + ((c3 - c2) + (c4 - c3)))))
    by lia.
  rewrite (seq_app 1). simpl. f_equal.
  rewrite !seq_app, !fmap_app.
  repeat (f_equal; try lia).
Qed.
End identifiers.

Lemma forEach_preserves {S A B} (tx : S → A → Result S) (f : S → B) (l : list A) st st' :
  (∀ st a st1, tx st a = Ok st1 → f st1 = f st) →
  forEach tx l st = Ok st' → f st' = f st.
Proof.
  intros Hstep. revert st. induction l as [|a l IH]; intros st; cbn [forEach].
  { by intros [= <-]. }
  destruct (tx st a) as [st1|e] eqn:Hst1; cbn [mbind Result_bind]; [|done].
  intros H%IH. rewrite H. by eapply Hstep.
Qed.

Lemma scopeSkeleton_nodeById st v st1 :
  scopeSkeleton st v = Ok st1 → nodeById st1 = nodeById st.
Proof.
  destruct v as [node par]. unfold scopeSkeleton.
  destruct ((if is_a Kind.Reference node then _ else _) : Result (option nat))
    as [container|e]; simpl; [|done].
  destruct (is_Entity node); [|by intros [= <-]].
  destruct par as [p|]; [|done].
  destruct (theScope _ p) as [ps|e]; simpl; [|done]. by intros [= <-].
Qed.

Lemma linkImports_nodeById st node st1 :
  linkImports st node = Ok st1 → nodeById st1 = nodeById st.
Proof.
  unfold linkImports, discriminate. simpl.
  match goal with |- context [mapM ?f ?l] => destruct (mapM f l) as [entities|e] end;
    simpl; [|done].
  destruct (scope st node) as [ps|]; [|done].
  match goal with |- context [mapM ?f ?l] => destruct (mapM f l) as [generics|e] end;
    simpl; [|done].
  by intros [= <-].
Qed.

Lemma crossLinks_nodeById hierarchy environment st v st4 :
  crossLinks hierarchy environment st v = Ok st4 → nodeById st4 = nodeById st.
Proof.
  destruct v as [node par].
  intros (st1 & st2 & st3 & H1 & H2 & H3 & H4)%crossLinks_steps.
  assert (nodeById st1 = nodeById st) as E1.
  { destruct (is_a Kind.Environment node); [|by subst].
    by apply linkEnvironment_effect in H1 as (s & contribs & _ & ->). }
  assert (nodeById st2 = nodeById st1) as E2.
  { destruct (is_a Kind.Package node && _); [|by subst]. by apply linkImports_nodeById in H2. }
  assert (nodeById st3 = nodeById st2) as E3.
  { destruct (is_Module node); [|by subst].
    by apply linkHierarchy_effect in H3 as (s & a & t & _ & _ & _ & ->). }
  assert (nodeById st4 = nodeById st3) as E4.
  { destruct par as [p|]; [|by subst]. destruct (negb (is_Entity node)); [|by subst].
    by destruct H4 as (ps & _ & ->). }
  congruence.
Qed.

Lemma assignScopes_nodeById hierarchy environment st st' :
  assignScopes hierarchy environment st = Ok st' → nodeById st' = nodeById st.
Proof.
  intros (st1 & H1 & H2)%assignScopes_steps.
  apply (forEach_preserves _ nodeById) in H1; [|apply scopeSkeleton_nodeById].
  apply (forEach_preserves _ nodeById) in H2; [|apply crossLinks_nodeById].
  congruence.
Qed.

Lemma cacheNode_nodeById environment l st i :
  nodeById (fold_left (cacheNode environment) l st) !! i =
    match last (filter (λ v : Node * option Node, id v.1 = i) l) with
    | Some v => Some v.1
    | None => nodeById st !! i
    end.
Proof.
  induction l as [|[node par] l IH] using rev_ind; [done|].
  rewrite fold_left_app, filter_app, filter_cons, filter_nil. simpl.
  destruct (decide (id node = i)) as [<-|Hne].
  - by rewrite last_snoc, lookup_insert_eq.
  - rewrite app_nil_r, lookup_insert_ne by done. apply IH.
Qed.

Lemma cached_nodeById environment :
  NoDup (ids environment) →
  (∀ n, n ∈ nodes environment → nodeById (cached environment) !! id n = Some n) ∧
  (∀ i, i ∉ ids environment → nodeById (cached environment) !! i = None).
Proof.
  intros Hnd. unfold cached. split.
  - intros n Hn. rewrite cacheNode_nodeById.
    apply list_elem_of_fmap in Hn as ([n' par] & -> & Hin). simpl.
    destruct (last _) as [v|] eqn:Hlast.
    + apply last_Some_elem_of, list_elem_of_filter in Hlast as [Hid Hv].
      by rewrite (visit_id_eq environment Hnd _ _ Hv Hin Hid).
    + apply last_None in Hlast.
      assert ((n', par) ∈ filter (λ v : Node * option Node, id v.1 = id n')
                (pairs None environment)) as Hf by (by apply list_elem_of_filter).
      rewrite Hlast in Hf. by apply elem_of_nil in Hf.
  - intros i Hi. rewrite cacheNode_nodeById.
    destruct (last _) as [v|] eqn:Hlast; [|done].
    apply last_Some_elem_of, list_elem_of_filter in Hlast as [Hid Hv].
    destruct Hi. rewrite ids_pairs, <- Hid.
    by apply (list_elem_of_fmap_2 (λ v : Node * option Node, id v.1)).
Qed.

(** ** The linker and its ids *)

Lemma link_Ok uuid hierarchy newPackages baseEnvironment environment st :
  link uuid hierarchy newPackages baseEnvironment = Ok (environment, st) →
  environment = newEnvironment uuid newPackages baseEnvironment ∧
  assignScopes hierarchy environment (cached environment) = Ok st ∧
  forEach (checkReference st) (pairs None environment) () = Ok ().
Proof.
  unfold link.
  destruct (assignScopes _ _ _) as [st1|e] eqn:Hassign; cbn [mbind Result_bind]; [|done].
  destruct (forEach (checkReference st1) _ ()) as [[]|e] eqn:Hcheck;
    cbn [mbind Result_bind]; [|done].
  by intros [= <- <-].
Qed.

Lemma transform_root uuid node calls :
  kind (transform uuid node calls).1 = kind node ∧
  id (transform uuid node calls).1 = uuid calls.
Proof.
  rewrite transform_unfold.
  destruct (transformAll _ (imports node) _) as [imports' c1].
  destruct (match entity node with Some _ => _ | None => _ end) as [entity' c2].
  destruct (transformAll _ (others node) _) as [others' c3].
  by destruct (transformAll _ (members node) _) as [members' c4].
Qed.

Lemma newEnvironment_ids uuid newPackages baseEnvironment :
  ids (newEnvironment uuid newPackages baseEnvironment)
    = uuid <$> seq 1 (length (ids (newEnvironment uuid newPackages baseEnvironment))).
Proof.
  rewrite ids_pairs. unfold newEnvironment.
  destruct (transform_freshIds uuid
              (mkNode Kind.Environment (uuid 0) None None false []
                 (fold_left mergePackage newPackages
                    match baseEnvironment with Some b => members b | None => [] end)
                 None []) 1 None) as [_ Hids].
  rewrite Hids. by rewrite !length_fmap, length_seq.
Qed.

(** C7: after a successful link every node of the returned environment, the
    environment itself included, carries an id that [uuid] generated for it
    during the rebuild; given that [uuid] never returns the same id twice,
    the ids are pairwise distinct, looking up the id of a node of the tree
    gives that node, and looking up an id that is not in the tree gives the
    not-found result. *)
Theorem link_ids_unique (uuid : nat → string)
    (hierarchy : Store → Node → Result (list Node))
    (newPackages : list Node) (baseEnvironment : option Node)
    (environment : Node) (st : Store) :
  Inj (=) (=) uuid →
  link uuid hierarchy newPackages baseEnvironment = Ok (environment, st) →
  kind environment = Kind.Environment ∧ id environment = uuid 1 ∧
  environment ∈ nodes environment ∧
  ids environment = uuid <$> seq 1 (length (ids environment)) ∧
  NoDup (ids environment) ∧
  (∀ n, n ∈ nodes environment → getNodeById st (id n) = Some n) ∧
  (∀ i, i ∉ ids environment → getNodeById st i = None).
Proof.
  intros Hinj (-> & Hassign & _)%link_Ok.
  set (environment := newEnvironment uuid newPackages baseEnvironment) in *.
  assert (NoDup (ids environment)) as Hnd.
  { unfold environment. rewrite newEnvironment_ids.
    apply NoDup_fmap_2; [done|apply NoDup_seq]. }
  destruct (cached_nodeById environment Hnd) as [Hfound Hmissing].
  pose proof (assignScopes_nodeById _ _ _ _ Hassign) as Hindex.
  split; [apply transform_root|]. split; [apply transform_root|].
  split. { unfold nodes. rewrite pairs_unfold. left. }
  split; [apply newEnvironment_ids|]. split; [done|].
  unfold getNodeById. rewrite Hindex. by split.
Qed.

Lemma link_ids_unique_witness :
  ∃ environment st,
    link SampleEnvironment.uuid SampleEnvironment.hierarchy
      [SampleEnvironment.wollok; SampleEnvironment.a; SampleEnvironment.b;
       SampleEnvironment.c] None = Ok (environment, st) ∧
    NoDup (ids environment) ∧
    (∀ n, n ∈ nodes environment → getNodeById st (id n) = Some n) ∧
    (∀ i, i ∉ ids environment → getNodeById st i = None).
Proof.
  destruct (link SampleEnvironment.uuid SampleEnvironment.hierarchy
              [SampleEnvironment.wollok; SampleEnvironment.a; SampleEnvironment.b;
               SampleEnvironment.c] None) as [[environment st]|e] eqn:Hlink;
    [|vm_compute in Hlink; discriminate Hlink].
  exists environment, st. split; [reflexivity|].
  exact (proj2 (proj2 (proj2 (proj2
           (link_ids_unique SampleEnvironment.uuid SampleEnvironment.hierarchy _ None
              environment st pretty_nat_inj Hlink))))).
Defined.

(** ** Validation *)

Lemma forEach_checkReference st l :
  forEach (checkReference st) l () =
    match list_find (λ v, unlinked st v = true) l with
    | Some (_, v) => Throw (UnlinkedReference (name v.1) (source v.1))
    | None => Ok ()
    end.
Proof.
  induction l as [|v l IH]; [done|]. cbn [forEach list_find].
  assert (checkReference st () v =
          if unlinked st v then Throw (UnlinkedReference (name v.1) (source v.1)) else Ok ())
    as -> by done.
  destruct (decide (unlinked st v = true)) as [Hv|Hv].
  - by rewrite Hv.
  - apply not_true_is_false in Hv. rewrite Hv. cbn [mbind Result_bind]. rewrite IH.
    by destruct (list_find _ l) as [[k w]|].
Qed.

Lemma target_Some st node t :
  target st node = Some t →
  ∃ s n, scope st node = Some s ∧ name node = Some n ∧
    resolveQualified st s n true = Ok t ∧
    (divideOn "." n = (n, EmptyString) → resolve (heap st) s n true = Ok (Some t)).
Proof.
  unfold target. destruct (scope st node) as [s|]; [|done].
  destruct (name node) as [n|]; [|done]. simpl.
  destruct (resolveQualified st s n true) as [t'|e] eqn:Hq; [|done].
  intros [= ->]. exists s, n. do 3 (split; [done|]).
  intros Hsimple. rewrite resolveQualified_unfold, Hsimple in Hq.
  destruct (resolve (heap st) s n true) as [[root|]|e]; simpl in Hq; congruence.
Qed.

(** C6: once the scopes are assigned, [link] throws as soon as the traversal
    meets a Reference whose name does not resolve from its own scope — the
    error carries the name and the source location of that Reference, and
    nothing else is returned; when every Reference resolves, [link] returns
    the environment with its store, and the target of each Reference is what
    its own scope resolves its name to. *)
Theorem link_validates (uuid : nat → string)
    (hierarchy : Store → Node → Result (list Node))
    (newPackages : list Node) (baseEnvironment : option Node) (st : Store) :
  let environment := newEnvironment uuid newPackages baseEnvironment in
  assignScopes hierarchy environment (cached environment) = Ok st →
  match list_find (λ v, unlinked st v = true) (pairs None environment) with
  | Some (_, (r, _)) =>
    r ∈ nodes environment ∧ is_a Kind.Reference r = true ∧ target st r = None ∧
    link uuid hierarchy newPackages baseEnvironment
      = Throw (UnlinkedReference (name r) (source r))
  | None =>
    link uuid hierarchy newPackages baseEnvironment = Ok (environment, st) ∧
    ∀ r, r ∈ nodes environment → is_a Kind.Reference r = true →
      ∃ t s n,
        target st r = Some t ∧ scope st r = Some s ∧ name r = Some n ∧
        resolveQualified st s n true = Ok t ∧
        (divideOn "." n = (n, EmptyString) → resolve (heap st) s n true = Ok (Some t))
  end.
Proof.
  intros environment Hassign.
  assert (link uuid hierarchy newPackages baseEnvironment =
          (_ ← forEach (checkReference st) (pairs None environment) ();
           Ok (environment, st))) as ->.
  { unfold link. fold environment. by rewrite Hassign. }
  rewrite forEach_checkReference.
  destruct (list_find _ (pairs None environment)) as [[k [r p]]|] eqn:Hfind.
  - apply list_find_Some in Hfind as (Hk & Hr & _).
    unfold unlinked in Hr. simpl in Hr. apply andb_true_iff in Hr as [Href Hnone].
    split. { apply list_elem_of_lookup_2 in Hk. by apply (list_elem_of_fmap_2 fst) in Hk. }
    split; [done|]. split; [|done].
    apply negb_true_iff, bool_decide_eq_false_1 in Hnone.
    destruct (target st r); [|done]. destruct Hnone. by eexists.
  - split; [done|]. intros r Hr Href.
    apply list_elem_of_fmap in Hr as ([r' p] & -> & Hin). simpl in *.
    rewrite list_find_None, Forall_forall in Hfind. specialize (Hfind _ Hin).
    unfold unlinked in Hfind. simpl in Hfind. rewrite Href in Hfind. simpl in Hfind.
    destruct (target st r') as [t|] eqn:Ht.
    + exists t. destruct (target_Some _ _ _ Ht) as (s & n & ?). by exists s, n.
    + destruct Hfind. apply negb_true_iff, bool_decide_eq_false_2. by intros [? ?].
Qed.

Lemma link_validates_witness :
  ∃ st,
    assignScopes SampleEnvironment.hierarchy SampleEnvironment.environment
      (cached SampleEnvironment.environment) = Ok st ∧
    link SampleEnvironment.uuid SampleEnvironment.hierarchy
      [SampleEnvironment.wollok; SampleEnvironment.a; SampleEnvironment.b;
       SampleEnvironment.c] None = Ok (SampleEnvironment.environment, st) ∧
    ∀ r, r ∈ nodes SampleEnvironment.environment → is_a Kind.Reference r = true →
      ∃ t, target st r = Some t.
Proof.
  destruct (assignScopes SampleEnvironment.hierarchy SampleEnvironment.environment
              (cached SampleEnvironment.environment)) as [st|e] eqn:Ha;
    [|vm_compute in Ha; discriminate Ha].
  exists st. split; [reflexivity|].
  pose proof (link_validates SampleEnvironment.uuid SampleEnvironment.hierarchy
                [SampleEnvironment.wollok; SampleEnvironment.a; SampleEnvironment.b;
                 SampleEnvironment.c] None st Ha) as H.
  destruct (link SampleEnvironment.uuid SampleEnvironment.hierarchy
              [SampleEnvironment.wollok; SampleEnvironment.a; SampleEnvironment.b;
               SampleEnvironment.c] None) as [res|e] eqn:Hlink;
    [|vm_compute in Hlink; discriminate Hlink].
  cbv zeta in H.
  destruct (list_find _ _) as [[k [r p]]|].
  - destruct H as (_ & _ & _ & H). discriminate H.
  - destruct H as [H Hall]. split; [exact H|].
    intros r Hr Href. destruct (Hall r Hr Href) as (t & s & n & Ht & _). by exists t.
Defined.

(** ** More on merging *)

Lemma elem_of_delete_or {A} (l : list A) i e x :
  l !! i = Some e → x ∈ l → x = e ∨ x ∈ delete i l.
Proof.
  intros Hi Hx. rewrite <- (take_drop_middle _ _ _ Hi) in Hx.
  rewrite delete_take_drop.
  apply elem_of_app in Hx as [Hx|[->|Hx]%elem_of_cons]; [right|by left|right];
    apply elem_of_app; auto.
Qed.

Lemma samePackage_name isolated member :
  samePackage isolated member = true →
  is_a Kind.Package member = true ∧ name member = name isolated.
Proof.
  unfold samePackage. intros [? ?%bool_decide_eq_true_1]%andb_true_iff. done.
Qed.

Lemma mergePackage_names_step members0 isolated n :
  n ∈ name <$> mergePackage members0 isolated ↔
  n ∈ name <$> members0 ∨ n = name isolated.
Proof.
  rewrite mergePackage_unfold. destruct (negb (is_a Kind.Package isolated)).
  - rewrite fmap_app, elem_of_app, fmap_cons, fmap_nil, list_elem_of_singleton.
    split.
    + intros [(m & -> & Hm)%list_elem_of_fmap| ->]; [left|by right].
      apply list_elem_of_filter in Hm as [_ Hm]. by apply list_elem_of_fmap_2.
    + intros [(m & -> & Hm)%list_elem_of_fmap| ->]; [|by right].
      destruct (decide (name m = name isolated)) as [Heq|Hne]; [by right|left].
      apply list_elem_of_fmap_2. by apply list_elem_of_filter.
  - destruct (list_find _ members0) as [[i existent]|] eqn:Hfind.
    + apply list_find_Some in Hfind as (Hi & [_ Hname]%samePackage_name & _).
      rewrite fmap_app, elem_of_app, fmap_cons, fmap_nil, list_elem_of_singleton.
      change (name (withMembers existent _)) with (name existent). rewrite Hname.
      split.
      * intros [(m & -> & Hm)%list_elem_of_fmap| ->]; [left|by right].
        apply list_elem_of_fmap_2. by eapply list_elem_of_delete_inv.
      * intros [(m & -> & Hm)%list_elem_of_fmap| ->]; [|by right].
        destruct (elem_of_delete_or _ _ _ _ Hi Hm) as [->|Hd]; [by right|left].
        by apply list_elem_of_fmap_2.
    + by rewrite fmap_app, elem_of_app, fmap_cons, fmap_nil, list_elem_of_singleton.
Qed.

Lemma fold_mergePackage_names (news members0 : list Node) (n : option string) :
  n ∈ name <$> fold_left mergePackage news members0 ↔
  n ∈ name <$> members0 ∨ n ∈ name <$> news.
Proof.
  revert members0. induction news as [|isolated news IH]; intros members0; simpl.
  { rewrite elem_of_nil. tauto. }
  rewrite IH, mergePackage_names_step, elem_of_cons. tauto.
Qed.

(** Merging neither loses nor invents a name: the names of the merged list
    are the names of the existing members and the names of the new
    entities. *)
Theorem mergePackage_names (news members0 : list Node) (n : option string) :
  n ∈ name <$> fold_left mergePackage news members0 ↔
  n ∈ name <$> members0 ∨ n ∈ name <$> news.
Proof.
  revert members0. induction news as [|isolated news IH]; intros members0; simpl.
  { rewrite elem_of_nil. tauto. }
  rewrite IH, mergePackage_names_step, elem_of_cons. tauto.
Qed.

Lemma mergePackage_NoDup_step members0 isolated :
  NoDup (name <$> members0) →
  (is_a Kind.Package isolated = true →
     ∀ m, m ∈ members0 → name m = name isolated → is_a Kind.Package m = true) →
  NoDup (name <$> mergePackage members0 isolated).
Proof.
  intros Hnd Hpkg. rewrite mergePackage_unfold.
  destruct (is_a Kind.Package isolated) eqn:Hk; simpl.
  - destruct (list_find _ members0) as [[i existent]|] eqn:Hfind.
    + apply list_find_Some in Hfind as (Hi & [_ Hname]%samePackage_name & _).
      rewrite fmap_app, fmap_cons, fmap_nil. apply NoDup_app. split; [|split; [|apply NoDup_singleton]].
      * eapply sublist_NoDup; [done|]. apply fmap_sublist, sublist_delete.
      * intros n Hn. rewrite list_elem_of_singleton. intros ->.
        change (name (withMembers existent _)) with (name existent) in Hn.
        rewrite <- (take_drop_middle _ _ _ Hi), fmap_app, fmap_cons in Hnd.
        rewrite delete_take_drop, fmap_app in Hn.
        apply NoDup_app in Hnd as (_ & Hdisj & [Hnin _]%NoDup_cons).
        apply elem_of_app in Hn as [Hn|Hn]; [|done].
        apply (Hdisj _ Hn). left.
    + rewrite fmap_app, fmap_cons, fmap_nil. apply NoDup_app. split; [done|]. split; [|apply NoDup_singleton].
      intros n (m & -> & Hm)%list_elem_of_fmap. rewrite list_elem_of_singleton. intros Heq.
      rewrite list_find_None, Forall_forall in Hfind. apply (Hfind _ Hm).
      unfold samePackage. rewrite (Hpkg eq_refl m Hm Heq). simpl.
      by apply bool_decide_eq_true_2.
  - rewrite fmap_app, fmap_cons, fmap_nil. apply NoDup_app. split; [|split; [|apply NoDup_singleton]].
    + eapply sublist_NoDup; [done|]. apply fmap_sublist, sublist_filter.
    + intros n (m & -> & Hm)%list_elem_of_fmap. rewrite list_elem_of_singleton.
      by apply list_elem_of_filter in Hm as [? _].
Qed.

Lemma mergePackage_packages members0 isolated :
  Forall (λ m, is_a Kind.Package m = true) members0 →
  is_a Kind.Package isolated = true →
  Forall (λ m, is_a Kind.Package m = true) (mergePackage members0 isolated).
Proof.
  intros Hall Hk. rewrite mergePackage_unfold, Hk. simpl.
  destruct (list_find _ members0) as [[i existent]|] eqn:Hfind.
  - apply list_find_Some in Hfind as (Hi & [Hpkg _]%samePackage_name & _).
    apply Forall_app. split; [|by constructor].
    rewrite Forall_forall in Hall |- *. intros m Hm.
    by eapply Hall, list_elem_of_delete_inv.
  - apply Forall_app. split; [done|by constructor].
Qed.

(** Merging packages into packages keeps the names of a member list
    pairwise distinct, whatever the new packages are named: a member list of
    the linked environment never holds two packages of one name. *)
Theorem mergePackage_unique_names (news members0 : list Node) :
  Forall (λ m, is_a Kind.Package m = true) members0 →
  Forall (λ m, is_a Kind.Package m = true) news →
  NoDup (name <$> members0) →
  NoDup (name <$> fold_left mergePackage news members0) ∧
  Forall (λ m, is_a Kind.Package m = true) (fold_left mergePackage news members0).
Proof.
  revert members0. induction news as [|isolated news IH]; intros members0 Hms Hnews Hnd.
  { done. }
  apply Forall_cons in Hnews as [Hk Hnews]. simpl. apply IH; [|done|].
  - by apply mergePackage_packages.
  - apply mergePackage_NoDup_step; [done|]. intros _ m Hm _.
    rewrite Forall_forall in Hms. by apply Hms.
Qed.

Lemma mergePackage_unique_names_witness :
  let news := [Sample.package "a" [] [Sample.nX]; Sample.package "a" [] [Sample.nY];
               Sample.package "b" [] []] in
  let members0 := [Sample.package "b" [] [Sample.nX]; Sample.package "c" [] []] in
  NoDup (name <$> fold_left mergePackage news members0) ∧
  Forall (λ m, is_a Kind.Package m = true) (fold_left mergePackage news members0).
Proof.
  apply (mergePackage_unique_names
           [Sample.package "a" [] [Sample.nX]; Sample.package "a" [] [Sample.nY];
            Sample.package "b" [] []]
           [Sample.package "b" [] [Sample.nX]; Sample.package "c" [] []]).
  - repeat constructor.
  - repeat constructor.
  - refine (bool_decide_unpack _ _). vm_compute. exact I.
Defined.

(** An entity that is not a package replaces whatever had its name, packages
    included: after the merge it is the last member and the only one of its
    name, and the members of other names are as they were. *)
Theorem mergePackage_overrides (members0 : list Node) (isolated : Node) :
  is_a Kind.Package isolated = false →
  last (mergePackage members0 isolated) = Some isolated ∧
  filter (λ m, name m = name isolated) (mergePackage members0 isolated) = [isolated] ∧
  filter (λ m, name m ≠ name isolated) (mergePackage members0 isolated)
    = filter (λ m, name m ≠ name isolated) members0.
Proof.
  intros Hk. rewrite mergePackage_unfold, Hk. simpl.
  split; [apply last_snoc|].
  rewrite !filter_app, !filter_cons, !filter_nil.
  rewrite decide_True by done. rewrite decide_False by (by intros ?).
  rewrite app_nil_r. split.
  - assert (filter (λ m, name m = name isolated)
              (filter (λ m, name m ≠ name isolated) members0) = []) as ->; [|done].
    induction members0 as [|m ms IH]; [done|].
    rewrite filter_cons. destruct (decide (name m ≠ name isolated)); [|done].
    by rewrite filter_cons_False.
  - by rewrite list_filter_filter_r.
Qed.

Lemma mergePackage_overrides_witness :
  let members0 := [Sample.package "X" [] [Sample.nY]; Sample.nY; Sample.nX] in
  last (mergePackage members0 Sample.nX) = Some Sample.nX ∧
  filter (λ m, name m = name Sample.nX) (mergePackage members0 Sample.nX) = [Sample.nX] ∧
  filter (λ m, name m ≠ name Sample.nX) (mergePackage members0 Sample.nX)
    = filter (λ m, name m ≠ name Sample.nX) members0.
Proof.
  exact (mergePackage_overrides
           [Sample.package "X" [] [Sample.nY]; Sample.nY; Sample.nX] Sample.nX eq_refl).
Defined.

(** Entities whose names are pairwise distinct, and distinct from the names
    of the existing members, are all appended, as they are and in their
    order: nothing is merged, nothing is removed. *)
Theorem mergePackage_distinct_names (news members0 : list Node) :
  NoDup (name <$> (members0 ++ news)) →
  fold_left mergePackage news members0 = members0 ++ news.
Proof.
  revert members0. induction news as [|x news IH]; intros members0 Hnd; simpl.
  { by rewrite app_nil_r. }
  rewrite mergePackage_fresh.
  - rewrite IH; rewrite <- app_assoc; done.
  - rewrite fmap_app, fmap_cons in Hnd. apply NoDup_app in Hnd as (_ & Hdisj & _).
    intros Hin. apply (Hdisj _ Hin). left.
Qed.

Lemma mergePackage_distinct_names_witness :
  fold_left mergePackage [Sample.nX; Sample.package "b" [] [Sample.nX]]
    [Sample.package "a" [] [Sample.nX]]
  = [Sample.package "a" [] [Sample.nX]; Sample.nX; Sample.package "b" [] [Sample.nX]].
Proof.
  apply (mergePackage_distinct_names [Sample.nX; Sample.package "b" [] [Sample.nX]]
           [Sample.package "a" [] [Sample.nX]]).
  refine (bool_decide_unpack _ _). vm_compute. exact I.
Defined.

(** ** More on scopes *)

Lemma fold_insert_lookup (contribs : list (string * Node)) (m : gmap string Node) n :
  fold_left (λ m c, <[c.1 := c.2]> m) contribs m !! n =
    match last (filter (λ c, c.1 = n) contribs) with
    | Some c => Some c.2
    | None => m !! n
    end.
Proof.
  revert m. induction contribs as [|c contribs IH] using rev_ind; intros m; [done|].
  rewrite fold_left_app, filter_app, filter_cons, filter_nil. simpl.
  destruct (decide (c.1 = n)) as [<-|Hne].
  - by rewrite last_snoc, lookup_insert_eq.
  - by rewrite app_nil_r, lookup_insert_ne, IH.
Qed.

(** After [register] a name is bound to the last contribution listed for it,
    and a name that is not listed keeps the binding it had; the included
    scopes and the container are left alone; and registering two batches
    one after the other is registering them as one. *)
Theorem register_lookup (contribs more : list (string * Node)) (this : LocalScope)
    (n : string) :
  contributions (register contribs this) !! n =
    match last (filter (λ c, c.1 = n) contribs) with
    | Some c => Some c.2
    | None => contributions this !! n
    end ∧
  includedScopes (register contribs this) = includedScopes this ∧
  containerScope (register contribs this) = containerScope this ∧
  register more (register contribs this) = register (contribs ++ more) this.
Proof.
  split; [apply fold_insert_lookup|]. split; [done|]. split; [done|].
  unfold register. simpl. by rewrite fold_left_app.
Qed.

Lemma first_local_Some h name scopes n :
  first_local h name scopes = Some n →
  ∃ i sc, i ∈ scopes ∧ h !! i = Some sc ∧ contributions sc !! name = Some n.
Proof.
  induction scopes as [|i scopes IH]; [done|]. simpl.
  destruct (local h name i) as [m|] eqn:Hl.
  - intros [= ->]. unfold local in Hl. destruct (h !! i) as [sc|] eqn:Hi; [|done].
    exists i, sc. split; [left|done].
  - intros (j & sc & Hj & ?)%IH. exists j, sc. split; [by right|done].
Qed.

Lemma resolve_sound_aux (h : list LocalScope) (this : nat) (name : string)
    (allowLookup : bool) (n : Node) :
  heap_wf h →
  resolve h this name allowLookup = Ok (Some n) →
  ∃ i sc, h !! i = Some sc ∧ contributions sc !! name = Some n.
Proof.
  intros Hwf. induction (lt_wf this) as [this _ IH].
  destruct (h !! this) as [sc|] eqn:Hthis.
  2:{ unfold resolve. simpl. by rewrite Hthis. }
  rewrite (resolve_unfold _ _ _ sc) by done.
  destruct (contributions sc !! name) as [m|] eqn:Hown.
  { intros [= ->]. by exists this, sc. }
  destruct allowLookup; [|done].
  destruct (first_local h name (includedScopes sc)) as [m|] eqn:Hincl.
  { intros [= ->]. apply first_local_Some in Hincl as (i & sci & _ & ? & ?). by exists i, sci. }
  destruct (containerScope sc) as [c|] eqn:Hc; [|done].
  apply IH. by apply (Hwf _ _ Hthis).
Qed.

(** [resolve] answers with nothing but a node that some scope of the heap
    binds the very name to. *)
Theorem resolve_sound (h : list LocalScope) (this : nat) (name : string)
    (allowLookup : bool) (n : Node) :
  heap_wf h →
  resolve h this name allowLookup = Ok (Some n) →
  ∃ i sc, h !! i = Some sc ∧ contributions sc !! name = Some n.
Proof.
  intros Hwf. induction (lt_wf this) as [this _ IH].
  destruct (h !! this) as [sc|] eqn:Hthis.
  2:{ unfold resolve. simpl. by rewrite Hthis. }
  rewrite (resolve_unfold _ _ _ sc) by done.
  destruct (contributions sc !! name) as [m|] eqn:Hown.
  { intros [= ->]. by exists this, sc. }
  destruct allowLookup; [|done].
  destruct (first_local h name (includedScopes sc)) as [m|] eqn:Hincl.
  { intros [= ->]. apply first_local_Some in Hincl as (i & sci & _ & ? & ?). by exists i, sci. }
  destruct (containerScope sc) as [c|] eqn:Hc; [|done].
  apply IH. by apply (Hwf _ _ Hthis).
Qed.

Lemma resolve_sound_witness :
  ∃ i sc, Sample.scopes !! i = Some sc ∧ contributions sc !! "Y"%string = Some Sample.nY.
Proof.
  exact (resolve_sound Sample.scopes 2 "Y" true Sample.nY
           (heap_wfb_correct Sample.scopes eq_refl) eq_refl).
Defined.

(** ** The caches of [link] *)

Lemma pairs_Some_parent node :
  ∀ q v, v ∈ pairs (Some q) node → is_Some v.2.
Proof.
  induction node as [node IH] using Node_children_ind. intros q v.
  rewrite pairs_unfold, elem_of_cons. intros [->|Hv]; [by eexists|].
  apply list_elem_of_In, in_flat_map in Hv as (c & Hc & Hv).
  rewrite Forall_forall in IH. eapply IH; [by apply list_elem_of_In|].
  by apply list_elem_of_In.
Qed.

Lemma pairs_root environment n :
  (n, None) ∈ pairs None environment → n = environment.
Proof.
  rewrite pairs_unfold, elem_of_cons. intros [[= ->]|Hv]; [done|].
  apply list_elem_of_In, in_flat_map in Hv as (c & Hc & Hv).
  apply list_elem_of_In, pairs_Some_parent in Hv. by destruct Hv.
Qed.

Lemma pairs_head environment : (environment, None) ∈ pairs None environment.
Proof. rewrite pairs_unfold. left. Qed.

Lemma cacheNode_parentOf environment l st i :
  parentOf (fold_left (cacheNode environment) l st) !! i =
    match last (filter (λ v : Node * option Node, id v.1 = i ∧ is_Some v.2) l) with
    | Some v => v.2
    | None => parentOf st !! i
    end.
Proof.
  induction l as [|[node par] l IH] using rev_ind; [done|].
  rewrite fold_left_app, filter_app, filter_cons, filter_nil. simpl.
  destruct par as [p|]; simpl.
  - destruct (decide (id node = i)) as [<-|Hne].
    + rewrite decide_True by (split; [done|by eexists]).
      by rewrite last_snoc, lookup_insert_eq.
    + rewrite decide_False by (by intros [? _]).
      rewrite app_nil_r, lookup_insert_ne by done. apply IH.
  - rewrite decide_False by (by intros [_ [? ?]]).
    rewrite app_nil_r. apply IH.
Qed.

Lemma cacheNode_environmentOf environment l st i :
  environmentOf (fold_left (cacheNode environment) l st) !! i =
    if bool_decide (i ∈ (λ v : Node * option Node, id v.1) <$> l)
    then Some environment else environmentOf st !! i.
Proof.
  induction l as [|[node par] l IH] using rev_ind; [done|].
  rewrite fold_left_app, fmap_app. simpl.
  destruct (decide (id node = i)) as [<-|Hne].
  - rewrite lookup_insert_eq, bool_decide_eq_true_2; [done|].
    apply elem_of_app. right. left.
  - rewrite lookup_insert_ne, IH by done.
    rewrite (bool_decide_ext (i ∈ _ ++ [id node])
               (i ∈ (λ v : Node * option Node, id v.1) <$> l)); [done|].
    rewrite elem_of_app, list_elem_of_singleton. split; [|by left]. by intros [?|?].
Qed.

Lemma cached_parentOf_complete environment :
  NoDup (ids environment) →
  (∀ m g, (m, Some g) ∈ pairs None environment →
     parentOf (cached environment) !! id m = Some g) ∧
  parentOf (cached environment) !! id environment = None.
Proof.
  intros Hnd. unfold cached. split.
  - intros m g Hin. rewrite cacheNode_parentOf.
    destruct (last _) as [v|] eqn:Hlast.
    + apply last_Some_elem_of, list_elem_of_filter in Hlast as [[Hid _] Hv].
      by rewrite (visit_id_eq environment Hnd _ _ Hv Hin Hid).
    + apply last_None in Hlast.
      assert ((m, Some g) ∈ filter (λ v : Node * option Node, id v.1 = id m ∧ is_Some v.2)
                (pairs None environment)) as Hf.
      { apply list_elem_of_filter. split; [|done]. split; [done|by eexists]. }
      rewrite Hlast in Hf. by apply elem_of_nil in Hf.
  - rewrite cacheNode_parentOf.
    destruct (last _) as [v|] eqn:Hlast; [|done].
    apply last_Some_elem_of, list_elem_of_filter in Hlast as [[Hid [p Hp]] Hv].
    rewrite (visit_id_eq environment Hnd _ _ Hv (pairs_head environment) Hid) in Hp.
    done.
Qed.

(** What [assignScopes] leaves alone. *)
Lemma scopeSkeleton_caches st v st1 :
  scopeSkeleton st v = Ok st1 → caches st1 = caches st.
Proof.
  destruct v as [node par]. unfold scopeSkeleton.
  destruct ((if is_a Kind.Reference node then _ else _) : Result (option nat))
    as [container|e]; simpl; [|done].
  destruct (is_Entity node); [|by intros [= <-]].
  destruct par as [p|]; [|done].
  destruct (theScope _ p) as [ps|e]; simpl; [|done]. by intros [= <-].
Qed.

Lemma linkImports_caches st node st1 :
  linkImports st node = Ok st1 → caches st1 = caches st.
Proof.
  unfold linkImports, discriminate. simpl.
  match goal with |- context [mapM ?f ?l] => destruct (mapM f l) as [entities|e] end;
    simpl; [|done].
  destruct (scope st node) as [ps|]; [|done].
  match goal with |- context [mapM ?f ?l] => destruct (mapM f l) as [generics|e] end;
    simpl; [|done].
  by intros [= <-].
Qed.

Lemma crossLinks_caches hierarchy environment st v st4 :
  crossLinks hierarchy environment st v = Ok st4 → caches st4 = caches st.
Proof.
  destruct v as [node par].
  intros (st1 & st2 & st3 & H1 & H2 & H3 & H4)%crossLinks_steps.
  assert (caches st1 = caches st) as E1.
  { destruct (is_a Kind.Environment node); [|by subst].
    by apply linkEnvironment_effect in H1 as (s & contribs & _ & ->). }
  assert (caches st2 = caches st1) as E2.
  { destruct (is_a Kind.Package node && _); [|by subst]. by apply linkImports_caches in H2. }
  assert (caches st3 = caches st2) as E3.
  { destruct (is_Module node); [|by subst].
    by apply linkHierarchy_effect in H3 as (s & a & t & _ & _ & _ & ->). }
  assert (caches st4 = caches st3) as E4.
  { destruct par as [p|]; [|by subst]. destruct (negb (is_Entity node)); [|by subst].
    by destruct H4 as (ps & _ & ->). }
  congruence.
Qed.

Lemma assignScopes_caches hierarchy environment st st' :
  assignScopes hierarchy environment st = Ok st' → caches st' = caches st.
Proof.
  intros (st1 & H1 & H2)%assignScopes_steps.
  apply (forEach_preserves _ caches) in H1; [|apply scopeSkeleton_caches].
  apply (forEach_preserves _ caches) in H2; [|apply crossLinks_caches].
  congruence.
Qed.

Lemma newEnvironment_NoDup uuid newPackages baseEnvironment :
  Inj (=) (=) uuid → NoDup (ids (newEnvironment uuid newPackages baseEnvironment)).
Proof.
  intros Hinj. rewrite newEnvironment_ids. apply NoDup_fmap_2; [done|apply NoDup_seq].
Qed.

(** After a successful link the caches answer for the tree that is
    returned: [parent()] of a node is the node under which the traversal
    visits it, the environment itself has no parent, and the environment
    cached for every node is the one returned.  Scope assignment and
    validation change none of it. *)
Theorem link_caches (uuid : nat → string)
    (hierarchy : Store → Node → Result (list Node))
    (newPackages : list Node) (baseEnvironment : option Node)
    (environment : Node) (st : Store) :
  Inj (=) (=) uuid →
  link uuid hierarchy newPackages baseEnvironment = Ok (environment, st) →
  caches st = caches (cached environment) ∧
  (∀ n p, (n, Some p) ∈ pairs None environment → parent st n = Ok p) ∧
  parentOf st !! id environment = None ∧
  (∀ n, n ∈ nodes environment → environmentOf st !! id n = Some environment) ∧
  (∀ i, i ∉ ids environment → environmentOf st !! i = None ∧ parentOf st !! i = None).
Proof.
  intros Hinj (-> & Hassign & _)%link_Ok.
  set (environment := newEnvironment uuid newPackages baseEnvironment) in *.
  pose proof (newEnvironment_NoDup uuid newPackages baseEnvironment Hinj) as Hnd.
  fold environment in Hnd.
  pose proof (assignScopes_caches _ _ _ _ Hassign) as Hc.
  assert (parentOf st = parentOf (cached environment) ∧
          environmentOf st = environmentOf (cached environment)) as [Hp He].
  { unfold caches in Hc. by injection Hc as -> -> _. }
  destruct (cached_parentOf_complete environment Hnd) as [Hparents Hroot].
  split; [done|]. split; [|split; [congruence|split]].
  - intros n p Hin. unfold parent. by rewrite Hp, (Hparents _ _ Hin).
  - intros n Hn. rewrite He. unfold cached. rewrite cacheNode_environmentOf.
    rewrite bool_decide_eq_true_2; [done|]. rewrite <- ids_pairs.
    by apply list_elem_of_fmap_2.
  - intros i Hi. rewrite He, Hp. unfold cached.
    rewrite cacheNode_environmentOf, cacheNode_parentOf.
    rewrite bool_decide_eq_false_2 by (by rewrite <- ids_pairs). split; [done|].
    destruct (last _) as [v|] eqn:Hlast; [|done].
    apply last_Some_elem_of, list_elem_of_filter in Hlast as [[Hid _] Hv].
    destruct Hi. rewrite ids_pairs, <- Hid.
    by apply (list_elem_of_fmap_2 (λ v : Node * option Node, id v.1)).
Qed.

Lemma link_caches_witness :
  ∃ environment st,
    link SampleEnvironment.uuid SampleEnvironment.hierarchy
      [SampleEnvironment.wollok; SampleEnvironment.a; SampleEnvironment.b;
       SampleEnvironment.c] None = Ok (environment, st) ∧
    (∀ n p, (n, Some p) ∈ pairs None environment → parent st n = Ok p) ∧
    parentOf st !! id environment = None ∧
    (∀ n, n ∈ nodes environment → environmentOf st !! id n = Some environment).
Proof.
  destruct (link SampleEnvironment.uuid SampleEnvironment.hierarchy
              [SampleEnvironment.wollok; SampleEnvironment.a; SampleEnvironment.b;
               SampleEnvironment.c] None) as [[environment st]|e] eqn:Hlink;
    [|vm_compute in Hlink; discriminate Hlink].
  exists environment, st. split; [reflexivity|].
  destruct (link_caches SampleEnvironment.uuid SampleEnvironment.hierarchy _ None
              environment st pretty_nat_inj Hlink) as (_ & H1 & H2 & H3 & _).
  exact (conj H1 (conj H2 H3)).
Defined.

(** ** The first traversal returns *)

Lemma forEach_prefix_total {S A} (tx : S → A → Result S) (Inv : list A → S → Prop)
    (l : list A) (st0 : S) :
  Inv [] st0 →
  (∀ pre a suf st,
     l = pre ++ a :: suf → Inv pre st → ∃ st1, tx st a = Ok st1 ∧ Inv (pre ++ [a]) st1) →
  ∃ st', forEach tx l st0 = Ok st' ∧ Inv l st'.
Proof.
  intros H0 Hstep.
  enough (∀ suf pre st, l = pre ++ suf → Inv pre st →
            ∃ st', forEach tx suf st = Ok st' ∧ Inv l st')
    as Hgen by (by apply (Hgen l [] st0)).
  induction suf as [|a suf IH]; intros pre st Hl Hpre; simpl.
  { exists st. split; [done|]. by rewrite Hl, app_nil_r. }
  destruct (Hstep _ _ _ _ Hl Hpre) as (st1 & -> & Hinv). simpl.
  apply (IH (pre ++ [a])); [by rewrite <- app_assoc|done].
Qed.

Lemma is_a_Environment_only node k :
  is_a Kind.Environment node = true → k ≠ Kind.Environment → is_a k node = false.
Proof.
  unfold is_a. intros Hk%bool_decide_eq_true_1 Hne.
  apply bool_decide_eq_false_2. congruence.
Qed.

Lemma is_a_Environment_not_Entity node :
  is_a Kind.Environment node = true → is_Entity node = false.
Proof.
  intros Hk. unfold is_Entity, is_Module.
  by rewrite !(is_a_Environment_only node) by done.
Qed.

Section first_traversal_total.
Context (environment : Node).
Local Abbreviation visit := (pairs None environment).
Context (Hnd : NoDup (ids environment)).
Context (Hroot : is_a Kind.Environment environment = true).

Lemma scopeSkeleton_Ok pre n par suf st :
  visit = pre ++ (n, par) :: suf →
  skeletonSoFar (cached environment) visit pre st →
  ∃ st1, scopeSkeleton st (n, par) = Ok st1.
Proof.
  intros Hsplit Hsf.
  assert ((n, par) ∈ visit) as Hin.
  { rewrite Hsplit. apply elem_of_app. right. left. }
  destruct par as [p|].
  - destruct (pairs_root_parent_before _ _ _ _ _ Hsplit) as [pp Hpp].
    destruct (sf_container _ _ _ _ Hsf _ Hpp) as (ps & _ & Hps & _). simpl in Hps.
    assert (id p ≠ id n) as Hne.
    { intros Heq. apply (visit_fresh environment Hnd _ _ _ Hsplit). simpl. rewrite <- Heq.
      by apply (list_elem_of_fmap_2 (λ v : Node * option Node, id v.1) _ (p, pp)). }
    assert (∃ container,
      (if is_a Kind.Reference n then
         if is_a Kind.Class p || is_a Kind.Mixin p
         then grandparent ← parent st p; Ok (scope st grandparent)
         else Ok (scope st p)
       else Ok (scope st p)) = Ok container) as [container Hcont].
    { destruct (is_a Kind.Reference n); [|by eexists].
      destruct (is_a Kind.Class p || is_a Kind.Mixin p) eqn:Hk; [|by eexists].
      destruct pp as [gp|].
      - assert ((p, Some gp) ∈ visit) as Hp.
        { rewrite Hsplit. apply elem_of_app. by left. }
        unfold parent. rewrite (sf_parents _ _ _ _ Hsf).
        rewrite (proj1 (cached_parentOf_complete environment Hnd) _ _ Hp). by eexists.
      - assert (p = environment) as ->.
        { apply pairs_root. rewrite Hsplit. apply elem_of_app. by left. }
        by rewrite !(is_a_Environment_only environment) in Hk. }
    unfold scopeSkeleton.
    change (p0 ← Some p; scope st p0) with (scope st p).
    assert ((if is_a Kind.Reference n then
               if is_a Kind.Class p || is_a Kind.Mixin p
               then grandparent ← parent st p; Ok (scope st grandparent)
               else Ok (scope st p)
             else Ok (scope st p)) = Ok container) as -> by exact Hcont.
    cbn [mbind Result_bind]. cbv zeta. unfold newLocalScope.
    destruct (is_Entity n); [|by eexists].
    assert (theScope (assignScope n (length (heap st))
                        (setHeap (heap st ++ [mkScope ∅ [] container]) st)) p = Ok ps) as ->.
    { apply theScope_Ok. unfold scope, assignScope. simpl.
      by rewrite lookup_insert_ne. }
    by eexists.
  - apply pairs_root in Hin as ->.
    unfold scopeSkeleton.
    rewrite (is_a_Environment_only environment Kind.Reference) by done.
    cbn [mbind Result_bind]. cbv zeta. unfold newLocalScope.
    rewrite (is_a_Environment_not_Entity environment) by done. by eexists.
Qed.

Lemma scopeSkeleton_positions :
  ∃ st1,
    forEach scopeSkeleton visit (cached environment) = Ok st1 ∧
    skeletonSoFar (cached environment) visit visit st1 ∧
    length (heap st1) = length visit ∧
    ∀ k v, visit !! k = Some v → scope st1 v.1 = Some k.
Proof.
  destruct (cached_scopes environment) as [Hs Hh].
  apply (forEach_prefix_total scopeSkeleton
           (λ pre st, skeletonSoFar (cached environment) visit pre st ∧
                      length (heap st) = length pre ∧
                      ∀ k v, pre !! k = Some v → scope st v.1 = Some k)).
  - split; [by apply skeletonSoFar_start|]. by rewrite Hh.
  - intros pre [n par] suf st Hsplit (Hsf & Hlen & Hpos).
    destruct (scopeSkeleton_Ok _ _ _ _ _ Hsplit Hsf) as [st1 Hstep].
    exists st1. split; [done|]. split.
    { eapply skeletonSoFar_step; [done|apply cached_parentOf|done..]. }
    apply scopeSkeleton_effect in Hstep as (_ & _ & _ & Hscope1 & Hlen1 & _).
    split. { rewrite length_app. simpl. lia. }
    intros k v Hk. unfold scope. rewrite Hscope1.
    destruct (decide (k < length pre)) as [Hlt|Hge].
    + rewrite lookup_app_l in Hk by done.
      rewrite lookup_insert_ne; [by apply Hpos|].
      intros Heq. apply (visit_fresh environment Hnd _ _ _ Hsplit). simpl. rewrite Heq.
      apply (list_elem_of_fmap_2 (λ v : Node * option Node, id v.1)).
      by eapply list_elem_of_lookup_2.
    + assert (k = length pre) as ->.
      { apply lookup_lt_Some in Hk. rewrite length_app in Hk. simpl in Hk. lia. }
      rewrite list_lookup_middle in Hk by done. injection Hk as <-. simpl.
      by rewrite lookup_insert_eq, Hlen.
Qed.
End first_traversal_total.

(** The first traversal of [assignScopes] never throws on a tree whose root
    is the Environment: it creates exactly one scope per node, the k-th
    scope for the k-th node visited. *)
Theorem scopeSkeleton_total (environment : Node) :
  NoDup (ids environment) →
  is_a Kind.Environment environment = true →
  ∃ st1,
    forEach scopeSkeleton (pairs None environment) (cached environment) = Ok st1 ∧
    length (heap st1) = length (pairs None environment) ∧
    ∀ k v, pairs None environment !! k = Some v → scope st1 v.1 = Some k.
Proof.
  intros Hnd Hroot.
  destruct (scopeSkeleton_positions environment Hnd Hroot) as (st1 & H1 & _ & Hlen & Hpos).
  by exists st1.
Qed.

Lemma scopeSkeleton_total_witness :
  ∃ st1,
    forEach scopeSkeleton (pairs None SampleEnvironment.environment)
      (cached SampleEnvironment.environment) = Ok st1 ∧
    length (heap st1) = length (pairs None SampleEnvironment.environment) ∧
    ∀ k v, pairs None SampleEnvironment.environment !! k = Some v →
      scope st1 v.1 = Some k.
Proof.
  exact (scopeSkeleton_total SampleEnvironment.environment sample_ids_NoDup eq_refl).
Defined.

(** ** What a scope binds, exactly *)

Lemma visit_parent_before environment pre a suf v q :
  pairs None environment = pre ++ a :: suf →
  v ∈ pre ++ [a] → v.2 = Some q →
  id q ∈ (λ v : Node * option Node, id v.1) <$> pre.
Proof.
  intros Hsplit Hv Hq. destruct v as [c par]. simpl in Hq. subst par.
  apply elem_of_app in Hv as [Hv|Hv%list_elem_of_singleton].
  - apply list_elem_of_split in Hv as (p1 & p2 & ->).
    rewrite <- app_assoc in Hsplit. simpl in Hsplit.
    destruct (pairs_root_parent_before _ _ _ _ _ Hsplit) as [qq Hqq].
    rewrite fmap_app, elem_of_app. left.
    by apply (list_elem_of_fmap_2 (λ v : Node * option Node, id v.1) _ (q, qq)).
  - subst a. destruct (pairs_root_parent_before _ _ _ _ _ Hsplit) as [qq Hqq].
    by apply (list_elem_of_fmap_2 (λ v : Node * option Node, id v.1) _ (q, qq)).
Qed.

Lemma filter_none {A} (P : A → Prop) `{∀ a, Decision (P a)} (l : list A) :
  (∀ a, a ∈ l → ¬ P a) → filter P l = [].
Proof.
  induction l as [|a l IH]; intros Hall; [done|].
  rewrite filter_cons_False by (apply Hall; left).
  apply IH. intros b Hb. apply Hall. by right.
Qed.

Lemma scopeContribution_key node x :
  (scopeContribution node).*1 = [x] → scopeContribution node = [(x, node)].
Proof.
  destruct (scopeContribution_cases node) as [->|[y ->]]; [done|].
  by intros [= ->].
Qed.

Lemma scopeContribution_other node x :
  (scopeContribution node).*1 ≠ [x] → x ∉ (scopeContribution node).*1.
Proof.
  destruct (scopeContribution_cases node) as [->|[y ->]]; simpl.
  - intros _. apply not_elem_of_nil.
  - intros Hne Hin. apply list_elem_of_singleton in Hin. by subst y.
Qed.

Section entity_bindings.
Context (environment : Node) (st0 : Store).
Local Abbreviation visit := (pairs None environment).
Context (Hnd : NoDup (ids environment)).
Context (P : Node) (x : string).

Lemma entityBindings_step pre n par suf st st1 :
  visit = pre ++ (n, par) :: suf →
  skeletonSoFar st0 visit pre st →
  entityBindings P x pre st →
  scopeSkeleton st (n, par) = Ok st1 →
  entityBindings P x (pre ++ [(n, par)]) st1.
Proof.
  intros Hsplit Hsf Hinv Hstep.
  destruct (scopeSkeleton_registers _ _ _ _ Hstep) as (container & Hscope1 & Hheap1).
  pose proof (visit_fresh environment Hnd _ _ _ Hsplit) as Hfresh. simpl in Hfresh.
  assert (∀ m, id m ≠ id n → scope st1 m = scope st m) as Hkeep.
  { intros m Hne. unfold scope. by rewrite Hscope1, lookup_insert_ne. }
  assert (∀ p, par = Some p →
            ∃ ps, scope st p = Some ps ∧ ps < length (heap st) ∧ id p ≠ id n) as Hpar.
  { intros p ->. destruct (pairs_root_parent_before _ _ _ _ _ Hsplit) as [pp Hpp].
    destruct (sf_container _ _ _ _ Hsf _ Hpp) as (ps & _ & Hps & _). exists ps.
    split; [done|]. split; [by apply (sf_bound _ _ _ _ Hsf) in Hps|].
    intros Heq. apply Hfresh. rewrite <- Heq.
    by apply (list_elem_of_fmap_2 (λ v : Node * option Node, id v.1) _ (p, pp)). }
  intros sp sc Hsp Hsc. unfold entityBound.
  destruct (decide (id P = id n)) as [Heq|Hne].
  - (* the scope of [P] is the new one: it is empty, and [P] has no child yet *)
    assert (sp = length (heap st)) as ->.
    { unfold scope in Hsp. rewrite Hscope1, Heq, lookup_insert_eq in Hsp. congruence. }
    assert (sc = mkScope ∅ [] container) as ->.
    { destruct (is_Entity n).
      - destruct Hheap1 as (p & ps & -> & Hps & Hheap1).
        destruct (Hpar p eq_refl) as (ps' & Hps' & Hlt & Hne).
        rewrite (Hkeep _ Hne), Hps' in Hps. injection Hps as <-.
        rewrite Hheap1, list_lookup_alter_ne, list_lookup_middle in Hsc by (done || lia).
        congruence.
      - rewrite Hheap1, list_lookup_middle in Hsc by done. congruence. }
    assert (filter (λ v, registersEntity P x v = true) (pre ++ [(n, par)]) = []) as ->.
    { apply filter_none. intros v Hv Hreg.
      unfold registersEntity in Hreg. destruct (v.2) as [q|] eqn:Hq; [|done].
      apply andb_true_iff in Hreg as [[Hid%bool_decide_eq_true_1 _]%andb_true_iff _].
      apply Hfresh. rewrite <- Heq, <- Hid.
      by eapply visit_parent_before. }
    done.
  - rewrite (Hkeep _ Hne) in Hsp.
    pose proof (sf_bound _ _ _ _ Hsf _ _ Hsp) as Hlt.
    destruct (lookup_lt_is_Some_2 _ _ Hlt) as [sc0 Hsc0].
    specialize (Hinv _ _ Hsp Hsc0). unfold entityBound in Hinv.
    rewrite filter_app, filter_cons, filter_nil.
    destruct (decide (registersEntity P x (n, par) = true)) as [Hc|Hc].
    + rewrite last_snoc. simpl.
      unfold registersEntity in Hc. simpl in Hc. destruct par as [p|]; [|done].
      apply andb_true_iff in Hc as [[Hid Hent]%andb_true_iff Hnames].
      apply bool_decide_eq_true_1 in Hid. apply bool_decide_eq_true_1 in Hnames.
      rewrite Hent in Hheap1. destruct Hheap1 as (p' & ps & [= <-] & Hps & Hheap1).
      assert (ps = sp) as ->.
      { unfold scope in *. rewrite Hid, Hscope1, lookup_insert_ne in Hps by done. congruence. }
      rewrite Hheap1, list_lookup_alter_eq, lookup_app_l, Hsc0 in Hsc by done.
      injection Hsc as <-. rewrite (scopeContribution_key _ _ Hnames).
      apply (register_last_wins [] x n [] sc0). by intros ?%elem_of_nil.
    + rewrite app_nil_r, <- Hinv.
      destruct (is_Entity n) eqn:Hent.
      * destruct Hheap1 as (p & ps & -> & Hps & Hheap1).
        destruct (Hpar p eq_refl) as (ps' & Hps' & _ & Hnep).
        rewrite (Hkeep _ Hnep), Hps' in Hps. injection Hps as <-.
        destruct (decide (ps' = sp)) as [->|Hnes].
        -- rewrite Hheap1, list_lookup_alter_eq, lookup_app_l, Hsc0 in Hsc by done.
           injection Hsc as <-. apply register_other, scopeContribution_other.
           intros Hnames. apply Hc. unfold registersEntity. simpl.
           pose proof (sf_inj _ _ _ _ Hsf _ _ _ Hps' Hsp) as Hid.
           rewrite Hent, (bool_decide_eq_true_2 _ Hid). simpl.
           by apply bool_decide_eq_true_2.
        -- rewrite Hheap1, list_lookup_alter_ne, lookup_app_l in Hsc by done. congruence.
      * rewrite Hheap1, lookup_app_l in Hsc by done. congruence.
Qed.
End entity_bindings.

Lemma scopeSkeleton_entityBindings environment st1 P x :
  NoDup (ids environment) →
  forEach scopeSkeleton (pairs None environment) (cached environment) = Ok st1 →
  entityBindings P x (pairs None environment) st1.
Proof.
  intros Hnd Hrun. destruct (cached_scopes environment) as [Hs Hh].
  enough (skeletonSoFar (cached environment) (pairs None environment)
            (pairs None environment) st1 ∧
          entityBindings P x (pairs None environment) st1) as [_ ?] by done.
  revert Hrun.
  apply (forEach_prefix_invariant scopeSkeleton
           (λ pre st, skeletonSoFar (cached environment) (pairs None environment) pre st ∧
                      entityBindings P x pre st)).
  - split; [by apply skeletonSoFar_start|]. intros sp sc Hsp.
    unfold scope in Hsp. by rewrite Hs, lookup_empty in Hsp.
  - intros pre [n par] suf st st2 Hsplit [Hsf Hinv] Hstep. split.
    + eapply skeletonSoFar_step; [done|apply cached_parentOf|done..].
    + by eapply entityBindings_step.
Qed.

Lemma forEach_suffix_invariant {S A} (tx : S → A → Result S) (Inv : list A → S → Prop)
    (l pre0 suf0 : list A) (st0 st' : S) :
  l = pre0 ++ suf0 →
  Inv pre0 st0 →
  (∀ pre a suf st st1,
     l = pre ++ a :: suf → length pre0 ≤ length pre →
     Inv pre st → tx st a = Ok st1 → Inv (pre ++ [a]) st1) →
  forEach tx suf0 st0 = Ok st' →
  Inv l st'.
Proof.
  intros Hl H0 Hstep.
  enough (∀ suf pre st, l = pre ++ suf → length pre0 ≤ length pre → Inv pre st →
            forEach tx suf st = Ok st' → Inv l st')
    as Hgen by (by apply (Hgen suf0 pre0 st0)).
  induction suf as [|a suf IH]; intros pre st Hl' Hlen Hpre; simpl.
  { intros [= <-]. by rewrite Hl', app_nil_r. }
  destruct (tx st a) as [st1|e] eqn:Htx; simpl; [|done].
  apply (IH (pre ++ [a])); [by rewrite <- app_assoc| |by eapply Hstep].
  rewrite length_app. simpl. lia.
Qed.

Section member_bindings.
Context (hierarchy : Store → Node → Result (list Node)) (environment : Node).
Local Abbreviation visit := (pairs None environment).
Context (P : Node) (x : string) (base : option Node).

Lemma memberBindings_step pre node par suf st st4 :
  visit = pre ++ (node, par) :: suf →
  skeleton visit st →
  ¬ (is_a Kind.Environment node = true ∧ id node = id P) →
  memberBindings base P x pre st →
  crossLinks hierarchy environment st (node, par) = Ok st4 →
  memberBindings base P x (pre ++ [(node, par)]) st4.
Proof.
  intros Hsplit Hsk Hnot Hinv Hstep.
  destruct (crossLinks_split _ _ _ _ _ _ Hsk Hstep) as (st3 & Hsk3 & Ht3 & Hfinal).
  pose proof Ht3 as (Hscope3 & _ & Hlen3 & Hheap3).
  assert (scopeOf st4 = scopeOf st) as Hscope4.
  { destruct par as [p|]; [destruct (negb (is_Entity node))|];
      try destruct Hfinal as (ps & _ & ->); subst; simpl; by rewrite Hscope3. }
  intros sp sc Hsp Hsc. unfold scope in Hsp. rewrite Hscope4 in Hsp.
  pose proof (sk_bound _ _ Hsk _ _ Hsp) as Hlt.
  destruct (lookup_lt_is_Some_2 _ _ Hlt) as [sc0 Hsc0].
  specialize (Hinv _ _ Hsp Hsc0).
  destruct (Hheap3 _ _ Hsc0) as (sc3 & Hsc3 & _ & Hcont3 & _).
  assert (contributions sc3 = contributions sc0) as Hsame.
  { apply Hcont3. intros [Henv Hnode]. apply Hnot. split; [done|].
    by apply (sk_inj _ _ Hsk _ _ sp). }
  unfold memberBound in *. rewrite filter_app, filter_cons, filter_nil.
  destruct (decide (contributesTo P x (node, par) = true)) as [Hc|Hc].
  - rewrite last_snoc. simpl.
    unfold contributesTo in Hc. simpl in Hc. destruct par as [p|]; [|done].
    apply andb_true_iff in Hc as [[Hid Hne]%andb_true_iff Hnames].
    apply bool_decide_eq_true_1 in Hid. apply bool_decide_eq_true_1 in Hnames.
    rewrite Hne in Hfinal. destruct Hfinal as (ps & Hps & ->).
    assert (ps = sp) as ->. { unfold scope in Hps. rewrite Hid in Hps. congruence. }
    simpl in Hsc. rewrite list_lookup_alter_eq, Hsc3 in Hsc. injection Hsc as <-.
    rewrite (scopeContribution_key _ _ Hnames).
    apply (register_last_wins [] x node [] sc3). by intros ?%elem_of_nil.
  - rewrite app_nil_r, <- Hinv, <- Hsame.
    destruct par as [p|]; [|subst st4; congruence].
    destruct (negb (is_Entity node)) eqn:Hne; [|subst st4; congruence].
    destruct Hfinal as (ps & Hps & ->). simpl in Hsc.
    destruct (decide (ps = sp)) as [->|Hps'].
    + rewrite list_lookup_alter_eq, Hsc3 in Hsc. injection Hsc as <-.
      apply register_other, scopeContribution_other.
      intros Hnames. apply Hc. unfold contributesTo. simpl.
      pose proof (sk_inj _ _ Hsk _ _ _ Hps Hsp) as Hid.
      rewrite Hne, (bool_decide_eq_true_2 _ Hid). simpl. by apply bool_decide_eq_true_2.
    + rewrite list_lookup_alter_ne in Hsc by done. congruence.
Qed.

Lemma crossLinks_memberBindings pre0 suf0 st0 st' :
  visit = pre0 ++ suf0 →
  (∀ node par, (node, par) ∈ suf0 →
     ¬ (is_a Kind.Environment node = true ∧ id node = id P)) →
  skeleton visit st0 →
  memberBindings base P x pre0 st0 →
  forEach (crossLinks hierarchy environment) suf0 st0 = Ok st' →
  skeleton visit st' ∧ memberBindings base P x visit st'.
Proof.
  intros Hsplit0 Hnot Hsk H0.
  apply (forEach_suffix_invariant (crossLinks hierarchy environment)
           (λ pre st, skeleton visit st ∧ memberBindings base P x pre st) visit pre0 suf0);
    [done|done|].
  intros pre [node par] suf st st2 Hsplit Hlen [Hsk0 Hinv] Hstep. split.
  - by destruct (crossLinks_frame _ _ _ _ _ _ Hsk0 Hstep).
  - eapply memberBindings_step; [done..| |done|done].
    apply (Hnot node par).
    apply (list_elem_of_lookup_2 _ (length pre - length pre0)).
    rewrite <- lookup_app_r, <- Hsplit0, Hsplit by done.
    by rewrite list_lookup_middle.
Qed.
End member_bindings.

Lemma pairs_child node :
  ∀ q c p, (c, Some p) ∈ pairs q node → (c = node ∧ q = Some p) ∨ c ∈ children p.
Proof.
  induction node as [node IH] using Node_children_ind. intros q c p.
  rewrite pairs_unfold, elem_of_cons. intros [[= -> ->]|Hv]; [by left|]. right.
  apply list_elem_of_In, in_flat_map in Hv as (ch & Hch & Hv).
  apply list_elem_of_In in Hch, Hv. rewrite Forall_forall in IH.
  destruct (IH _ Hch _ _ _ Hv) as [[-> [= <-]]|?]; done.
Qed.

Lemma visit_child environment (Hnd : NoDup (ids environment)) P parP v p :
  (P, parP) ∈ pairs None environment →
  v ∈ pairs None environment → v.2 = Some p → id p = id P →
  v = (v.1, Some P) ∧ v.1 ∈ children P.
Proof.
  intros HP Hv Hp Hid. destruct v as [c par]. simpl in *. subst par.
  pose proof Hv as Hv'. apply list_elem_of_split in Hv' as (pre & suf & Hsplit).
  destruct (pairs_root_parent_before _ _ _ _ _ Hsplit) as [pp Hpp].
  assert ((p, pp) = (P, parP)) as [= -> _].
  { apply (visit_id_eq environment Hnd); [|done..]. rewrite Hsplit. apply elem_of_app. by left. }
  split; [done|]. by destruct (pairs_child _ _ _ _ Hv) as [[_ ?]|?].
Qed.

Lemma scopeContribution_name c x :
  (scopeContribution c).*1 = [x] →
  name c = Some x ∧ x ≠ EmptyString ∧
  (is_Entity c || is_a Kind.Field c || is_a Kind.Param c) = true.
Proof.
  unfold scopeContribution. destruct (_ || _ || _); [|done].
  destruct (name c) as [y|]; [|done]. case_bool_decide; [done|]. by intros [= ->].
Qed.

Lemma entityBound_child environment (Hnd : NoDup (ids environment)) P parP x c :
  (P, parP) ∈ pairs None environment →
  entityBound P x (pairs None environment) = Some c →
  (c, Some P) ∈ pairs None environment ∧ c ∈ children P ∧ name c = Some x ∧
  is_Entity c = true.
Proof.
  intros HP. unfold entityBound.
  destruct (last _) as [v|] eqn:Hlast; [|done]. intros [= <-].
  apply last_Some_elem_of, list_elem_of_filter in Hlast as [Hreg Hv].
  unfold registersEntity in Hreg. destruct (v.2) as [p|] eqn:Hp; [|done].
  apply andb_true_iff in Hreg as [[Hid%bool_decide_eq_true_1 Hent]%andb_true_iff
                                    Hnames%bool_decide_eq_true_1].
  destruct (visit_child environment Hnd P parP v p HP Hv Hp Hid) as [Heq Hch].
  rewrite Heq in Hv. by destruct (scopeContribution_name _ _ Hnames) as (? & _ & _).
Qed.

Lemma memberBound_child environment (Hnd : NoDup (ids environment)) P parP x c :
  (P, parP) ∈ pairs None environment →
  memberBound P x (pairs None environment) = Some c →
  (c, Some P) ∈ pairs None environment ∧ c ∈ children P ∧ name c = Some x ∧
  is_Entity c = false ∧ (is_a Kind.Field c || is_a Kind.Param c) = true.
Proof.
  intros HP. unfold memberBound.
  destruct (last _) as [v|] eqn:Hlast; [|done]. intros [= <-].
  apply last_Some_elem_of, list_elem_of_filter in Hlast as [Hreg Hv].
  unfold contributesTo in Hreg. destruct (v.2) as [p|] eqn:Hp; [|done].
  apply andb_true_iff in Hreg as [[Hid%bool_decide_eq_true_1 Hent%negb_true_iff]%andb_true_iff
                                    Hnames%bool_decide_eq_true_1].
  destruct (visit_child environment Hnd P parP v p HP Hv Hp Hid) as [Heq Hch].
  rewrite Heq in Hv. destruct (scopeContribution_name _ _ Hnames) as (? & _ & Hk).
  rewrite Hent in Hk. done.
Qed.

(** ** The children of a node in the traversal *)

Lemma pairs_parent_in node q v p :
  v ∈ flat_map (pairs (Some node)) (children node) → v.2 = Some p →
  p ∈ (pairs q node).*1.
Proof.
  intros Hv Hp. destruct v as [m par]. simpl in Hp. subst par.
  apply list_elem_of_split in Hv as (pre & suf & Hsplit).
  assert (pairs q node = ((node, q) :: pre) ++ (m, Some p) :: suf) as Hpairs.
  { by rewrite pairs_unfold, Hsplit. }
  destruct (pairs_parent_before _ _ _ _ _ _ Hpairs) as [(Hnil & _)|[pp Hpp]]; [done|].
  apply (list_elem_of_fmap_2 fst _ (p, pp)). rewrite Hpairs. apply elem_of_app. by left.
Qed.

Lemma flat_pairs_parent_in node (l : list Node) v p :
  v ∈ flat_map (pairs (Some node)) l → v.2 = Some p →
  p = node ∨ p ∈ (flat_map (pairs (Some node)) l).*1.
Proof.
  intros Hv Hp. apply list_elem_of_In, in_flat_map in Hv as (c & Hc & Hv).
  apply list_elem_of_In in Hc, Hv.
  rewrite pairs_unfold in Hv. apply elem_of_cons in Hv as [->|Hv].
  - simpl in Hp. left. congruence.
  - right. pose proof (pairs_parent_in c (Some node) v p Hv Hp) as Hin.
    apply list_elem_of_fmap in Hin as (w & -> & Hw). apply list_elem_of_fmap_2.
    apply list_elem_of_In, in_flat_map. exists c. by rewrite <- !list_elem_of_In.
Qed.

Lemma filter_children_self node (l : list Node) :
  id node ∉ (λ v : Node * option Node, id v.1) <$> flat_map (pairs (Some node)) l →
  filter (λ v, isChildOf node v = true) (flat_map (pairs (Some node)) l)
  = (λ c, (c, Some node)) <$> l.
Proof.
  induction l as [|c l IH]; [done|]. simpl.
  rewrite fmap_app, not_elem_of_app. intros [Hc Hl].
  rewrite filter_app, IH by done.
  rewrite pairs_unfold, filter_cons_True.
  2:{ unfold isChildOf. simpl. by apply bool_decide_eq_true_2. }
  rewrite filter_none; [done|].
  intros v Hv Hchild. unfold isChildOf in Hchild.
  destruct (v.2) as [p|] eqn:Hp; [|done]. apply bool_decide_eq_true_1 in Hchild.
  apply Hc. rewrite <- Hchild.
  pose proof (pairs_parent_in c (Some node) v p Hv Hp) as Hin.
  apply list_elem_of_fmap in Hin as (w & -> & Hw).
  by apply (list_elem_of_fmap_2 (λ v : Node * option Node, id v.1)).
Qed.

Lemma filter_children_none P node (l : list Node) :
  id node ≠ id P →
  id P ∉ (λ v : Node * option Node, id v.1) <$> flat_map (pairs (Some node)) l →
  filter (λ v, isChildOf P v = true) (flat_map (pairs (Some node)) l) = [].
Proof.
  intros Hne Hnin. apply filter_none. intros v Hv Hchild. unfold isChildOf in Hchild.
  destruct (v.2) as [p|] eqn:Hp; [|done]. apply bool_decide_eq_true_1 in Hchild.
  destruct (flat_pairs_parent_in node l v p Hv Hp) as [->|Hin]; [done|].
  apply Hnin. rewrite <- Hchild.
  apply list_elem_of_fmap in Hin as (w & -> & Hw).
  by apply (list_elem_of_fmap_2 (λ v : Node * option Node, id v.1)).
Qed.

Lemma filter_children node :
  ∀ q P par,
    (P, par) ∈ pairs q node →
    NoDup ((λ v : Node * option Node, id v.1) <$> pairs q node) →
    filter (λ v, isChildOf P v = true) (flat_map (pairs (Some node)) (children node))
    = (λ c, (c, Some P)) <$> children P.
Proof.
  induction node as [node IH] using Node_children_ind. intros q P par.
  rewrite pairs_unfold, fmap_cons, NoDup_cons, elem_of_cons. simpl.
  intros [[= -> ->]|Hin] [Hhead Hnd].
  { by apply filter_children_self. }
  assert (id node ≠ id P) as Hne.
  { intros Heq. apply Hhead. rewrite Heq.
    by apply (list_elem_of_fmap_2 (λ v : Node * option Node, id v.1) _ (P, par)). }
  apply list_elem_of_In, in_flat_map in Hin as (c & Hc & Hin).
  apply list_elem_of_In in Hc, Hin.
  apply list_elem_of_split in Hc as (l1 & l2 & Hsplit).
  rewrite Hsplit in IH, Hnd |- *.
  apply Forall_app in IH as [_ [IHc _]%Forall_cons].
  rewrite flat_map_app in Hnd |- *. simpl in Hnd |- *.
  rewrite !fmap_app in Hnd.
  apply NoDup_app in Hnd as (_ & Hdisj1 & Hnd).
  apply NoDup_app in Hnd as (Hndc & Hdisj2 & _).
  assert (id P ∈ (λ v : Node * option Node, id v.1) <$> pairs (Some node) c) as HP.
  { by apply (list_elem_of_fmap_2 (λ v : Node * option Node, id v.1) _ (P, par)). }
  rewrite !filter_app.
  assert (filter (λ v, isChildOf P v = true) (flat_map (pairs (Some node)) l1) = []) as ->.
  { apply filter_children_none; [done|]. intros H1. apply (Hdisj1 _ H1).
    apply elem_of_app. by left. }
  assert (filter (λ v, isChildOf P v = true) (flat_map (pairs (Some node)) l2) = []) as ->.
  { apply filter_children_none; [done|]. by apply Hdisj2. }
  rewrite app_nil_r. simpl.
  rewrite (pairs_unfold (Some node) c), filter_cons_False.
  2:{ unfold isChildOf. simpl. by rewrite bool_decide_eq_false_2. }
  by apply (IHc (Some node) P par).
Qed.

Lemma visit_children environment P parP :
  NoDup (ids environment) →
  (P, parP) ∈ pairs None environment →
  filter (λ v, isChildOf P v = true) (pairs None environment)
  = (λ c, (c, Some P)) <$> children P.
Proof.
  intros Hnd HP. rewrite ids_pairs in Hnd.
  rewrite (pairs_unfold None environment) at 1. rewrite filter_cons_False by (by intros ?).
  by apply (filter_children environment None P parP).
Qed.

Lemma filter_fmap_pair {A B} (f : A → B) (P : B → Prop) `{∀ b, Decision (P b)}
    (l : list A) :
  filter P (f <$> l) = f <$> filter (λ a, P (f a)) l.
Proof.
  induction l as [|a l IH]; [done|]. rewrite fmap_cons, !filter_cons.
  destruct (decide (P (f a))); by rewrite IH.
Qed.

Lemma entityBound_declared environment P parP x :
  NoDup (ids environment) →
  (P, parP) ∈ pairs None environment →
  entityBound P x (pairs None environment) = declaredEntity P x.
Proof.
  intros Hnd HP. unfold entityBound, declaredEntity.
  rewrite (list_filter_iff _
             (λ v, (is_Entity v.1 && bool_decide ((scopeContribution v.1).*1 = [x]) = true) ∧
                   isChildOf P v = true)).
  2:{ intros [c par]. unfold registersEntity, isChildOf. simpl.
      rewrite <- andb_assoc, andb_true_iff. tauto. }
  rewrite <- list_filter_filter, (visit_children environment P parP) by done.
  rewrite filter_fmap_pair, fmap_last, <- option_fmap_compose. simpl.
  by destruct (last _).
Qed.

Lemma memberBound_declared environment P parP x :
  NoDup (ids environment) →
  (P, parP) ∈ pairs None environment →
  memberBound P x (pairs None environment) = declaredMember P x.
Proof.
  intros Hnd HP. unfold memberBound, declaredMember.
  rewrite (list_filter_iff _
             (λ v, (negb (is_Entity v.1) && bool_decide ((scopeContribution v.1).*1 = [x])
                    = true) ∧ isChildOf P v = true)).
  2:{ intros [c par]. unfold contributesTo, isChildOf. simpl.
      rewrite <- andb_assoc, andb_true_iff. tauto. }
  rewrite <- list_filter_filter, (visit_children environment P parP) by done.
  rewrite filter_fmap_pair, fmap_last, <- option_fmap_compose. simpl.
  by destruct (last _).
Qed.

(** ** The bindings of a node, in terms of its children *)

Lemma declared_child P x c :
  declared P x = Some c →
  c ∈ children P ∧ name c = Some x ∧ x ≠ EmptyString ∧
  (is_Entity c || is_a Kind.Field c || is_a Kind.Param c) = true.
Proof.
  unfold declared, declaredMember, declaredEntity.
  assert (∀ f : Node → bool,
            (∀ c, f c = true → (scopeContribution c).*1 = [x]) →
            last (filter (λ c, f c = true) (children P)) = Some c →
            c ∈ children P ∧ name c = Some x ∧ x ≠ EmptyString ∧
            (is_Entity c || is_a Kind.Field c || is_a Kind.Param c) = true) as Hlast.
  { intros f Hf [Hc Hin]%last_Some_elem_of%list_elem_of_filter.
    split; [done|]. by apply scopeContribution_name, Hf. }
  destruct (last (filter (λ c, declaresMember x c = true) (children P))) as [m|] eqn:Hm.
  - intros [= <-]. apply (Hlast _ (λ c H, bool_decide_eq_true_1 _ (proj2 (andb_prop _ _ H))) Hm).
  - apply (Hlast _ (λ c H, bool_decide_eq_true_1 _ (proj2 (andb_prop _ _ H)))).
Qed.

Lemma assignScopes_bindings (hierarchy : Store → Node → Result (list Node))
    (environment : Node) (st' : Store) (P : Node) (parP : option Node) :
  NoDup (ids environment) →
  assignScopes hierarchy environment (cached environment) = Ok st' →
  (P, parP) ∈ pairs None environment →
  is_a Kind.Environment P = false →
  ∃ sp sc,
    scope st' P = Some sp ∧ heap st' !! sp = Some sc ∧
    ∀ x, contributions sc !! x = declared P x.
Proof.
  intros Hnd Hassign HP Hkind.
  destruct (assignScopes_skeleton _ _ _ Hnd Hassign) as (st1 & H1 & H2 & Hsf & Hsk & Hscopes).
  apply skeletonSoFar_skeleton in Hsf.
  destruct (sk_container _ _ Hsf _ HP) as (sp & sc1 & Hsp1 & Hsc1 & _). simpl in Hsp1.
  assert (scope st' P = Some sp) as Hsp by (unfold scope in *; by rewrite Hscopes).
  destruct (lookup_lt_is_Some_2 _ _ (sk_bound _ _ Hsk _ _ Hsp)) as [sc Hsc].
  exists sp, sc. split; [done|]. split; [done|]. intros x.
  pose proof (scopeSkeleton_entityBindings environment st1 P x Hnd H1) as Hentity.
  destruct (crossLinks_memberBindings hierarchy environment P x
              (contributions sc1 !! x) [] (pairs None environment) st1 st')
    as [_ Hmember]; [done| |done| |done|].
  { intros node par Hin [Henv Hid].
    assert ((node, par) = (P, parP)) as [= -> _] by (by apply (visit_id_eq environment Hnd)).
    congruence. }
  { intros sp' sc' Hsp' Hsc'. rewrite Hsp1 in Hsp'. injection Hsp' as <-.
    unfold memberBound. simpl. congruence. }
  rewrite (Hmember _ _ Hsp Hsc), (Hentity _ _ Hsp1 Hsc1). unfold declared.
  by rewrite (memberBound_declared environment P parP x Hnd HP),
    (entityBound_declared environment P parP x Hnd HP).
Qed.

(** After [assignScopes] the scope of a node other than the Environment
    binds a name to the last child of the node, in traversal order, that is
    a Field or a Parameter of that name; when there is none, to the last
    child that is an entity of that name; and when there is none either, to
    nothing.  So a scope binds nothing but children of its node, each under
    its own name. *)
Theorem scope_binds_children (hierarchy : Store → Node → Result (list Node))
    (environment : Node) (st' : Store) (P : Node) (parP : option Node) :
  NoDup (ids environment) →
  assignScopes hierarchy environment (cached environment) = Ok st' →
  (P, parP) ∈ pairs None environment →
  is_a Kind.Environment P = false →
  ∃ sp sc,
    scope st' P = Some sp ∧ heap st' !! sp = Some sc ∧
    (∀ x, contributions sc !! x = declared P x) ∧
    ∀ x c, contributions sc !! x = Some c →
      c ∈ children P ∧ name c = Some x ∧ x ≠ EmptyString ∧
      (is_Entity c || is_a Kind.Field c || is_a Kind.Param c) = true.
Proof.
  intros Hnd Hassign HP Hkind.
  destruct (assignScopes_bindings _ _ _ _ _ Hnd Hassign HP Hkind)
    as (sp & sc & Hsp & Hsc & Hexact).
  exists sp, sc. split; [done|]. split; [done|]. split; [done|].
  intros x c. rewrite Hexact. apply declared_child.
Qed.

Lemma scope_binds_children_witness :
  ∃ st' P parP,
    pairs None SampleEnvironment.environment !! 13 = Some (P, parP) ∧
    assignScopes SampleEnvironment.hierarchy SampleEnvironment.environment
      (cached SampleEnvironment.environment) = Ok st' ∧
    ∃ sp sc first_g last_g,
      scope st' P = Some sp ∧ heap st' !! sp = Some sc ∧
      (∀ x, contributions sc !! x = declared P x) ∧
      (∀ x c, contributions sc !! x = Some c →
         c ∈ children P ∧ name c = Some x ∧ x ≠ EmptyString ∧
         (is_Entity c || is_a Kind.Field c || is_a Kind.Param c) = true) ∧
      children P = [first_g; last_g] ∧
      name first_g = Some "g"%string ∧ name last_g = Some "g"%string ∧
      contributions sc !! "g"%string = Some last_g ∧
      contributions sc !! "f"%string = None.
Proof.
  destruct (pairs None SampleEnvironment.environment !! 13) as [[P parP]|] eqn:Hk;
    [|vm_compute in Hk; discriminate Hk].
  destruct (assignScopes SampleEnvironment.hierarchy SampleEnvironment.environment
              (cached SampleEnvironment.environment)) as [st'|e] eqn:Ha;
    [|vm_compute in Ha; discriminate Ha].
  exists st', P, parP. split; [reflexivity|]. split; [reflexivity|].
  pose proof (list_elem_of_lookup_2 _ _ _ Hk) as Hin.
  vm_compute in Hk. injection Hk as <- <-.
  destruct (scope_binds_children SampleEnvironment.hierarchy SampleEnvironment.environment
              st' _ _ sample_ids_NoDup Ha Hin eq_refl)
    as (sp & sc & Hsp & Hsc & Hexact & Hchildren).
  exists sp, sc. do 2 eexists.
  split; [exact Hsp|]. split; [exact Hsc|]. split; [exact Hexact|].
  split; [exact Hchildren|].
  split; [reflexivity|]. split; [reflexivity|]. split; [reflexivity|].
  split; [exact (Hexact _)|exact (Hexact _)].
Defined.

(** ** The bindings of the Environment *)

Lemma theMembers_Ok node ms : theMembers node = Ok ms → ms = members node.
Proof. unfold theMembers. destruct (_ || _ || _ || _); congruence. Qed.

Lemma linkEnvironment_precise environment st node st1 :
  linkEnvironment environment st node = Ok st1 →
  ∃ s es lang lib,
    scope st node = Some s ∧ scope st environment = Some es ∧
    resolveQualified st es "wollok.lang" true = Ok lang ∧
    resolveQualified st es "wollok.lib" true = Ok lib ∧
    theMembers lang = Ok (members lang) ∧ theMembers lib = Ok (members lib) ∧
    st1 = registerIn s (flat_map scopeContribution (members lang ++ members lib)) st.
Proof.
  unfold linkEnvironment, GLOBAL_PACKAGES.
  destruct (theScope st node) as [s|e] eqn:Hs; [|done].
  destruct (theScope st environment) as [es|e] eqn:Hes; [|done].
  cbn [mbind Result_bind mapM].
  destruct (resolveQualified st es "wollok.lang" true) as [lang|e] eqn:Hlang;
    cbn [mbind Result_bind]; [|done].
  destruct (theMembers lang) as [ms1|e] eqn:Hms1; cbn [mbind Result_bind]; [|done].
  destruct (resolveQualified st es "wollok.lib" true) as [lib|e] eqn:Hlib;
    cbn [mbind Result_bind]; [|done].
  destruct (theMembers lib) as [ms2|e] eqn:Hms2; cbn [mbind Result_bind mret Result_ret]; [|done].
  intros [= <-]. exists s, es, lang, lib.
  apply theScope_Ok in Hs, Hes.
  pose proof (theMembers_Ok _ _ Hms1) as ->. pose proof (theMembers_Ok _ _ Hms2) as ->.
  do 6 (split; [done|]). simpl. by rewrite app_nil_r, flat_map_app.
Qed.

Lemma last_contribution (ms : list Node) (x : string) :
  last (filter (λ c : string * Node, c.1 = x) (flat_map scopeContribution ms))
  = (λ m, (x, m)) <$> last (filter (λ m, (scopeContribution m).*1 = [x]) ms).
Proof.
  induction ms as [|m ms IH] using rev_ind; [done|].
  rewrite flat_map_app, !filter_app. simpl. rewrite app_nil_r, filter_cons, filter_nil.
  destruct (decide ((scopeContribution m).*1 = [x])) as [Hk|Hk].
  - rewrite (scopeContribution_key _ _ Hk), filter_cons_True by done.
    by rewrite filter_nil, !last_snoc.
  - rewrite app_nil_r.
    rewrite (filter_none _ (scopeContribution m)), app_nil_r; [done|].
    intros c Hc Hx. apply (scopeContribution_other _ _ Hk). rewrite <- Hx.
    by apply list_elem_of_fmap_2.
Qed.

(** For the Environment the second traversal begins by registering, in its
    scope, what the members of [wollok.lang] and then of [wollok.lib]
    contribute — the two packages being resolved through the bindings of
    the first traversal.  So after [assignScopes] the scope of the
    Environment binds a name to the last child that is a Field or Parameter
    of that name; else to the last member of the two global packages that
    contributes the name; else to the last child that is an entity of that
    name; else to nothing. *)
Theorem environment_binds_globals (hierarchy : Store → Node → Result (list Node))
    (environment : Node) (st' : Store) :
  NoDup (ids environment) →
  is_a Kind.Environment environment = true →
  assignScopes hierarchy environment (cached environment) = Ok st' →
  ∃ st1 es sc lang lib,
    forEach scopeSkeleton (pairs None environment) (cached environment) = Ok st1 ∧
    scope st' environment = Some es ∧ heap st' !! es = Some sc ∧
    resolveQualified st1 es "wollok.lang" true = Ok lang ∧
    resolveQualified st1 es "wollok.lib" true = Ok lib ∧
    ∀ x, contributions sc !! x =
      match declaredMember environment x with
      | Some c => Some c
      | None =>
        match last (filter (λ m, (scopeContribution m).*1 = [x])
                      (members lang ++ members lib)) with
        | Some m => Some m
        | None => declaredEntity environment x
        end
      end.
Proof.
  intros Hnd Hroot Hassign.
  destruct (assignScopes_skeleton _ _ _ Hnd Hassign) as (st1 & H1 & H2 & Hsf & _ & Hscopes).
  apply skeletonSoFar_skeleton in Hsf.
  pose proof (pairs_head environment) as Hhead.
  destruct (sk_container _ _ Hsf _ Hhead) as (es & sc1 & Hes1 & Hsc1 & _). simpl in Hes1.
  pose proof (pairs_unfold None environment) as Hvisit.
  set (rest := flat_map (pairs (Some environment)) (children environment)) in *.
  rewrite Hvisit in H2. cbn [forEach] in H2.
  destruct (crossLinks hierarchy environment st1 (environment, None)) as [stE|e] eqn:HE;
    cbn [mbind Result_bind] in H2; [|done].
  pose proof HE as (sta & stb & stc & Ha & Hb & Hc & Hd)%crossLinks_steps.
  rewrite Hroot in Ha.
  rewrite (is_a_Environment_only environment Kind.Package) in Hb by done. simpl in Hb.
  assert (is_Module environment = false) as Hmod.
  { unfold is_Module. by rewrite !(is_a_Environment_only environment). }
  rewrite Hmod in Hc. subst stb stc stE.
  apply linkEnvironment_precise in Ha
    as (s & es' & lang & lib & Hs & Hes' & Hlang & Hlib & _ & _ & ->).
  rewrite Hes1 in Hs, Hes'. injection Hs as <-. injection Hes' as <-.
  set (globals := flat_map scopeContribution (members lang ++ members lib)) in *.
  destruct (registerIn_frame environment st1 es globals Hsf) as [HskE _].
  assert (scope st' environment = Some es) as Hes by (unfold scope in *; by rewrite Hscopes).
  assert (∃ sc, heap st' !! es = Some sc ∧
            ∀ x, memberBindings (contributions (register globals sc1) !! x) environment x
                   (pairs None environment) st') as (sc & Hsc & Hmember).
  { assert (skeleton (pairs None environment) st') as Hsk'.
    { by destruct (crossLinks_skeleton hierarchy environment rest _ _ HskE H2). }
    destruct (lookup_lt_is_Some_2 _ _ (sk_bound _ _ Hsk' _ _ Hes)) as [sc Hsc].
    exists sc. split; [done|]. intros x.
    edestruct (crossLinks_memberBindings hierarchy environment environment x
                 (contributions (register globals sc1) !! x) [(environment, None)] rest
                 (registerIn es globals st1) st') as [_ Hm]; [done| |done| |done|done].
    - intros node par Hin [_ Hid].
      apply list_elem_of_split in Hin as (r1 & r2 & Hrest).
      apply (visit_fresh environment Hnd ((environment, None) :: r1) (node, par) r2).
      { by rewrite Hvisit, Hrest. }
      simpl. rewrite Hid. left.
    - intros sp' sc' Hsp' Hsc'. unfold memberBound. simpl.
      unfold scope in Hsp', Hes1. simpl in Hsp'. rewrite Hes1 in Hsp'. injection Hsp' as <-.
      simpl in Hsc'. rewrite list_lookup_alter_eq, Hsc1 in Hsc'. by injection Hsc' as <-. }
  exists st1, es, sc, lang, lib. do 5 (split; [done|]). intros x.
  rewrite (Hmember x _ _ Hes Hsc).
  rewrite <- (memberBound_declared environment environment None x Hnd Hhead).
  rewrite <- (entityBound_declared environment environment None x Hnd Hhead).
  destruct (memberBound environment x (pairs None environment)); [done|].
  unfold register. simpl. rewrite fold_insert_lookup. unfold globals.
  rewrite last_contribution.
  destruct (last (filter _ (members lang ++ members lib))) as [m|]; [done|]. simpl.
  by apply (scopeSkeleton_entityBindings environment st1 environment x Hnd H1 es sc1).
Qed.

Lemma environment_binds_globals_witness :
  ∃ st' st1 es sc lang lib,
    assignScopes SampleEnvironment.hierarchy SampleEnvironment.environment
      (cached SampleEnvironment.environment) = Ok st' ∧
    scope st' SampleEnvironment.environment = Some es ∧ heap st' !! es = Some sc ∧
    resolveQualified st1 es "wollok.lang" true = Ok lang ∧
    resolveQualified st1 es "wollok.lib" true = Ok lib ∧
    contributions sc !! "Object"%string =
      match declaredMember SampleEnvironment.environment "Object" with
      | Some c => Some c
      | None =>
        match last (filter (λ m, (scopeContribution m).*1 = ["Object"%string])
                      (members lang ++ members lib)) with
        | Some m => Some m
        | None => declaredEntity SampleEnvironment.environment "Object"
        end
      end.
Proof.
  destruct (assignScopes SampleEnvironment.hierarchy SampleEnvironment.environment
              (cached SampleEnvironment.environment)) as [st'|e] eqn:Ha;
    [|vm_compute in Ha; discriminate Ha].
  destruct (environment_binds_globals SampleEnvironment.hierarchy
              SampleEnvironment.environment st' sample_ids_NoDup eq_refl Ha)
    as (st1 & es & sc & lang & lib & H1 & Hes & Hsc & Hlang & Hlib & Hbind).
  exists st', st1, es, sc, lang, lib.
  exact (conj eq_refl (conj Hes (conj Hsc (conj Hlang (conj Hlib (Hbind "Object"%string)))))).
Defined.

(** ** Linking without the global packages *)

Lemma resolve_own_only h this sc name :
  heap_wf h → h !! this = Some sc →
  includedScopes sc = [] → containerScope sc = None →
  ∀ allowLookup, resolve h this name allowLookup = Ok (contributions sc !! name).
Proof.
  intros Hwf Hthis Hincl Hcont allowLookup.
  rewrite (resolve_unfold _ _ _ sc), Hincl, Hcont by done. simpl.
  destruct (contributions sc !! name); [done|]. by destruct allowLookup.
Qed.

Section without_globals.
Context (hierarchy : Store → Node → Result (list Node)) (environment : Node).
Local Abbreviation visit := (pairs None environment).
Context (Hnd : NoDup (ids environment)).
Context (Hroot : is_a Kind.Environment environment = true).

Lemma crossLinks_Environment st :
  crossLinks hierarchy environment st (environment, None)
  = linkEnvironment environment st environment.
Proof.
  unfold crossLinks. rewrite Hroot.
  rewrite (is_a_Environment_only environment Kind.Package) by done.
  assert (is_Module environment = false) as ->.
  { unfold is_Module. by rewrite !(is_a_Environment_only environment). }
  simpl. by destruct (linkEnvironment environment st environment).
Qed.

Lemma assignScopes_Environment :
  ∃ st1 es sc1,
    forEach scopeSkeleton visit (cached environment) = Ok st1 ∧
    skeleton visit st1 ∧
    scope st1 environment = Some es ∧ heap st1 !! es = Some sc1 ∧
    (∀ x allowLookup,
       resolve (heap st1) es x allowLookup = Ok (entityBound environment x visit)) ∧
    (∀ P x sp sc, scope st1 P = Some sp → heap st1 !! sp = Some sc →
       resolve (heap st1) sp x false = Ok (entityBound P x visit)) ∧
    assignScopes hierarchy environment (cached environment)
    = (st ← linkEnvironment environment st1 environment;
       forEach (crossLinks hierarchy environment)
         (flat_map (pairs (Some environment)) (children environment)) st).
Proof.
  destruct (scopeSkeleton_positions environment Hnd Hroot) as (st1 & H1 & Hsf & _ & _).
  pose proof (λ P x, scopeSkeleton_entityBindings environment st1 P x Hnd H1) as Hentity.
  pose proof (skeletonSoFar_skeleton _ _ _ Hsf) as Hsk.
  destruct (sk_container _ _ Hsk _ (pairs_head environment)) as (es & sc1 & Hes & Hsc1 & Hc).
  simpl in Hes. unfold containerOf in Hc. simpl in Hc.
  exists st1, es, sc1. do 4 (split; [done|]). split; [|split].
  - intros x allowLookup.
    rewrite (resolve_own_only _ _ sc1); [|apply Hsk|done| |done].
    + by rewrite (Hentity environment x _ _ Hes Hsc1).
    + by apply (sf_included _ _ _ _ Hsf es).
  - intros P x sp sc Hsp Hsc. rewrite resolve_local, Hsc.
    by rewrite (Hentity P x _ _ Hsp Hsc).
  - unfold assignScopes. rewrite H1. cbn [mbind Result_bind].
    rewrite (pairs_unfold None environment). cbn [forEach].
    by rewrite crossLinks_Environment.
Qed.

Lemma linkEnvironment_throws st1 es e :
  scope st1 environment = Some es →
  resolveQualified st1 es "wollok.lang" true = Throw e →
  linkEnvironment environment st1 environment = Throw e.
Proof.
  intros Hes Hlang. unfold linkEnvironment, GLOBAL_PACKAGES.
  apply theScope_Ok in Hes. rewrite Hes. cbn [mbind Result_bind mapM].
  by rewrite Hlang.
Qed.
End without_globals.

Lemma assignScopes_needs_globals_aux (hierarchy : Store → Node → Result (list Node))
    (environment : Node) :
  NoDup (ids environment) →
  is_a Kind.Environment environment = true →
  match declaredEntity environment "wollok" with
  | None =>
    assignScopes hierarchy environment (cached environment)
    = Throw (CouldNotResolve "wollok")
  | Some wollok =>
    declaredEntity wollok "lang" = None →
    assignScopes hierarchy environment (cached environment)
    = Throw (CouldNotResolve "lang")
  end.
Proof.
  intros Hnd Hroot.
  rewrite <- (entityBound_declared environment environment None "wollok" Hnd
                (pairs_head environment)).
  destruct (assignScopes_Environment hierarchy environment Hnd Hroot)
    as (st1 & es & sc1 & H1 & Hsk & Hes & Hsc1 & Hresolve & Hlocal & ->).
  pose proof (resolveQualified_unfold st1 es "wollok.lang" true) as Hq.
  change (divideOn "." "wollok.lang") with ("wollok"%string, "lang"%string) in Hq.
  cbv iota beta in Hq. rewrite Hresolve in Hq. cbn [mbind Result_bind] in Hq.
  destruct (entityBound environment "wollok" (pairs None environment)) as [wollok|] eqn:Hw.
  - intros Hlang.
    destruct (entityBound_child environment Hnd environment None "wollok" wollok
                (pairs_head environment) Hw) as (Hin & _).
    rewrite <- (entityBound_declared environment wollok (Some environment) "lang" Hnd Hin)
      in Hlang.
    destruct (sk_container _ _ Hsk _ Hin) as (sw & scw & Hsw & Hscw & _). simpl in Hsw.
    change (String.length "lang") with 4 in Hq. cbv iota beta in Hq.
    rewrite (proj2 (theScope_Ok _ _ _) Hsw) in Hq. cbn [mbind Result_bind] in Hq.
    assert (resolveQualified st1 sw "lang" false = Throw (CouldNotResolve "lang")) as Hinner.
    { rewrite resolveQualified_unfold.
      change (divideOn "." "lang") with ("lang"%string, EmptyString). cbv iota beta.
      by rewrite (Hlocal wollok "lang" _ _ Hsw Hscw), Hlang. }
    rewrite Hinner in Hq.
    by rewrite (linkEnvironment_throws environment st1 es _ Hes Hq).
  - by rewrite (linkEnvironment_throws environment st1 es _ Hes Hq).
Qed.

(** Scope assignment needs the global packages: on an environment that has
    no entity named [wollok] among its children it throws the linking error
    for [wollok]; and when the last such entity has no entity named [lang]
    among its children, the linking error for [lang]. *)
Theorem assignScopes_needs_globals (hierarchy : Store → Node → Result (list Node))
    (environment : Node) :
  NoDup (ids environment) →
  is_a Kind.Environment environment = true →
  match declaredEntity environment "wollok" with
  | None =>
    assignScopes hierarchy environment (cached environment)
    = Throw (CouldNotResolve "wollok")
  | Some wollok =>
    declaredEntity wollok "lang" = None →
    assignScopes hierarchy environment (cached environment)
    = Throw (CouldNotResolve "lang")
  end.
Proof.
  intros Hnd Hroot.
  rewrite <- (entityBound_declared environment environment None "wollok" Hnd
                (pairs_head environment)).
  destruct (assignScopes_Environment hierarchy environment Hnd Hroot)
    as (st1 & es & sc1 & H1 & Hsk & Hes & Hsc1 & Hresolve & Hlocal & ->).
  pose proof (resolveQualified_unfold st1 es "wollok.lang" true) as Hq.
  change (divideOn "." "wollok.lang") with ("wollok"%string, "lang"%string) in Hq.
  cbv iota beta in Hq. rewrite Hresolve in Hq. cbn [mbind Result_bind] in Hq.
  destruct (entityBound environment "wollok" (pairs None environment)) as [wollok|] eqn:Hw.
  - intros Hlang.
    destruct (entityBound_child environment Hnd environment None "wollok" wollok
                (pairs_head environment) Hw) as (Hin & _).
    rewrite <- (entityBound_declared environment wollok (Some environment) "lang" Hnd Hin)
      in Hlang.
    destruct (sk_container _ _ Hsk _ Hin) as (sw & scw & Hsw & Hscw & _). simpl in Hsw.
    change (String.length "lang") with 4 in Hq. cbv iota beta in Hq.
    rewrite (proj2 (theScope_Ok _ _ _) Hsw) in Hq. cbn [mbind Result_bind] in Hq.
    assert (resolveQualified st1 sw "lang" false = Throw (CouldNotResolve "lang")) as Hinner.
    { rewrite resolveQualified_unfold.
      change (divideOn "." "lang") with ("lang"%string, EmptyString). cbv iota beta.
      by rewrite (Hlocal wollok "lang" _ _ Hsw Hscw), Hlang. }
    rewrite Hinner in Hq.
    by rewrite (linkEnvironment_throws environment st1 es _ Hes Hq).
  - by rewrite (linkEnvironment_throws environment st1 es _ Hes Hq).
Qed.

Lemma sample_bare_NoDup : NoDup (ids SampleBare.environment).
Proof. refine (bool_decide_unpack _ _). vm_compute. exact I. Defined.

Lemma assignScopes_needs_globals_witness :
  assignScopes SampleEnvironment.hierarchy SampleBare.environment
    (cached SampleBare.environment) = Throw (CouldNotResolve "wollok").
Proof.
  exact (assignScopes_needs_globals SampleEnvironment.hierarchy SampleBare.environment
           sample_bare_NoDup eq_refl).
Defined.

(** ** The rebuild keeps the tree *)

Lemma withoutIds_unfold node :
  withoutIds node =
    mkNode (kind node) EmptyString (name node) (source node) (isGeneric node)
      (map withoutIds (imports node)) (map withoutIds (members node))
      (option_map withoutIds (entity node)) (map withoutIds (others node)).
Proof. by destruct node. Qed.

Section rebuild.
Context (uuid : nat → string).

Lemma transformAll_withoutIds l :
  Forall (λ n, ∀ calls, withoutIds (transform uuid n calls).1 = withoutIds n) l →
  ∀ calls, map withoutIds (transformAll (transform uuid) l calls).1 = map withoutIds l.
Proof.
  induction 1 as [|n l Hn _ IH]; intros calls; simpl; [done|].
  specialize (Hn calls). destruct (transform uuid n calls) as [n' c1]. simpl in *.
  specialize (IH c1). destruct (transformAll (transform uuid) l c1) as [l' c2]. simpl in *.
  by rewrite Hn, IH.
Qed.

Lemma transform_withoutIds node :
  ∀ calls, withoutIds (transform uuid node calls).1 = withoutIds node.
Proof.
  induction node as [node IH] using Node_children_ind.
  unfold children in IH.
  apply Forall_app in IH as [Himports IH]. apply Forall_app in IH as [Hentity IH].
  apply Forall_app in IH as [Hothers Hmembers].
  intros calls. rewrite transform_unfold.
  pose proof (transformAll_withoutIds _ Himports (S calls)) as H1. revert H1.
  destruct (transformAll (transform uuid) (imports node) (S calls)) as [imports' c1].
  simpl. intros H1.
  assert (∃ entity' c2,
            match entity node with
            | Some e => let '(e, c) := transform uuid e c1 in (Some e, c)
            | None => (None, c1)
            end = (entity', c2) ∧
            option_map withoutIds entity' = option_map withoutIds (entity node))
    as (entity' & c2 & -> & H2).
  { destruct (entity node) as [e|]; simpl in Hentity.
    - apply Forall_cons in Hentity as [He _]. specialize (He c1).
      destruct (transform uuid e c1) as [e' c2]. exists (Some e'), c2.
      split; [done|]. simpl in *. by rewrite He.
    - by exists None, c1. }
  pose proof (transformAll_withoutIds _ Hothers c2) as H3. revert H3.
  destruct (transformAll (transform uuid) (others node) c2) as [others' c3].
  simpl. intros H3.
  pose proof (transformAll_withoutIds _ Hmembers c3) as H4. revert H4.
  destruct (transformAll (transform uuid) (members node) c3) as [members' c4].
  simpl. intros H4.
  rewrite (withoutIds_unfold node). simpl.
  by rewrite H1, H2, H3, H4.
Qed.

Lemma newEnvironment_withoutIds newPackages baseEnvironment :
  withoutIds (newEnvironment uuid newPackages baseEnvironment)
  = mkNode Kind.Environment EmptyString None None false []
      (map withoutIds
         (fold_left mergePackage newPackages
            (match baseEnvironment with Some b => members b | None => [] end)))
      None [].
Proof. unfold newEnvironment. by rewrite transform_withoutIds. Qed.
End rebuild.

Lemma withoutIds_names (l l' : list Node) :
  map withoutIds l = map withoutIds l' → name <$> l = name <$> l'.
Proof.
  revert l'. induction l as [|a l IH]; intros [|b l'] H; simpl in H; try done.
  injection H as Hab Hl. rewrite !fmap_cons. f_equal; [|by apply IH].
  apply (f_equal name) in Hab. by destruct a, b.
Qed.

Lemma newEnvironment_children uuid newPackages baseEnvironment :
  let environment := newEnvironment uuid newPackages baseEnvironment in
  children environment = members environment ∧
  name <$> members environment
    = name <$> fold_left mergePackage newPackages
                 (match baseEnvironment with Some b => members b | None => [] end).
Proof.
  intros environment.
  pose proof (newEnvironment_withoutIds uuid newPackages baseEnvironment) as H.
  fold environment in H. rewrite withoutIds_unfold in H.
  injection H as _ _ _ _ Himports Hmembers Hentity Hothers.
  split; [|by apply withoutIds_names].
  unfold children. destruct (imports environment); [|done].
  destruct (others environment); [|done]. by destruct (entity environment).
Qed.

(** The environment [link] returns is the merge of the new packages into
    the members of the base environment, rebuilt: ids apart, it is that
    tree, node for node. *)
Theorem link_keeps_tree (uuid : nat → string)
    (hierarchy : Store → Node → Result (list Node))
    (newPackages : list Node) (baseEnvironment : option Node)
    (environment : Node) (st : Store) :
  link uuid hierarchy newPackages baseEnvironment = Ok (environment, st) →
  withoutIds environment
  = mkNode Kind.Environment EmptyString None None false []
      (map withoutIds
         (fold_left mergePackage newPackages
            (match baseEnvironment with Some b => members b | None => [] end)))
      None [] ∧
  name <$> members environment
  = name <$> fold_left mergePackage newPackages
               (match baseEnvironment with Some b => members b | None => [] end).
Proof.
  intros (-> & _)%link_Ok. split; [apply newEnvironment_withoutIds|].
  apply newEnvironment_children.
Qed.

Lemma link_keeps_tree_witness :
  ∃ environment st,
    link SampleEnvironment.uuid SampleEnvironment.hierarchy
      [SampleEnvironment.wollok; SampleEnvironment.a; SampleEnvironment.b;
       SampleEnvironment.c] None = Ok (environment, st) ∧
    name <$> members environment
    = [Some "wollok"; Some "a"; Some "b"; Some "c"]%string.
Proof.
  destruct (link SampleEnvironment.uuid SampleEnvironment.hierarchy
              [SampleEnvironment.wollok; SampleEnvironment.a; SampleEnvironment.b;
               SampleEnvironment.c] None) as [[environment st]|e] eqn:Hlink;
    [|vm_compute in Hlink; discriminate Hlink].
  exists environment, st. split; [reflexivity|].
  exact (proj2 (link_keeps_tree SampleEnvironment.uuid SampleEnvironment.hierarchy _ None
                  environment st Hlink)).
Defined.

(** Linking needs a top-level package named [wollok]: when neither the new
    packages nor the members of the base environment have one, [link] throws
    the linking error for [wollok] — in particular when it is given no
    package and no base environment at all. *)
Theorem link_needs_wollok (uuid : nat → string)
    (hierarchy : Store → Node → Result (list Node))
    (newPackages : list Node) (baseEnvironment : option Node) :
  Inj (=) (=) uuid →
  Some "wollok"%string ∉ name <$> newPackages →
  Some "wollok"%string ∉
    name <$> (match baseEnvironment with Some b => members b | None => [] end) →
  link uuid hierarchy newPackages baseEnvironment = Throw (CouldNotResolve "wollok").
Proof.
  intros Hinj Hnews Hbase.
  set (environment := newEnvironment uuid newPackages baseEnvironment).
  pose proof (newEnvironment_NoDup uuid newPackages baseEnvironment Hinj) as Hnd.
  assert (is_a Kind.Environment environment = true) as Hroot.
  { unfold is_a, environment, newEnvironment. apply bool_decide_eq_true_2.
    by rewrite (proj1 (transform_root _ _ _)). }
  pose proof (assignScopes_needs_globals_aux hierarchy environment Hnd Hroot) as Hthrow.
  destruct (declaredEntity environment "wollok") as [w|] eqn:Hw.
  - rewrite <- (entityBound_declared environment environment None "wollok" Hnd
                  (pairs_head environment)) in Hw.
    destruct (entityBound_child environment Hnd environment None "wollok" w
                (pairs_head environment) Hw) as (_ & Hch & Hname & _).
    destruct (newEnvironment_children uuid newPackages baseEnvironment) as [Hchildren Hnames].
    fold environment in Hchildren, Hnames. rewrite Hchildren in Hch.
    apply (list_elem_of_fmap_2 name) in Hch. rewrite Hname, Hnames in Hch.
    apply fold_mergePackage_names in Hch as [?|?]; done.
  - unfold link. fold environment. by rewrite Hthrow.
Qed.

Lemma link_needs_wollok_witness :
  link SampleEnvironment.uuid SampleEnvironment.hierarchy [] None
  = Throw (CouldNotResolve "wollok").
Proof.
  apply (link_needs_wollok SampleEnvironment.uuid SampleEnvironment.hierarchy [] None
           pretty_nat_inj); apply not_elem_of_nil.
Defined.

(** ** What a scope includes *)

Lemma is_Module_kinds node :
  is_Module node = true →
  is_a Kind.Environment node = false ∧ is_a Kind.Package node = false ∧
  is_Entity node = true.
Proof.
  unfold is_Entity, is_Module, is_a.
  destruct (kind node); simpl; try done.
Qed.

Section includes.
Context (hierarchy : Store → Node → Result (list Node)) (environment : Node).
Context (Hnd : NoDup (ids environment)).
Local Abbreviation visit := (pairs None environment).
Context (st1 : Store) (N : Node) (par : option Node).
Context (HN : (N, par) ∈ visit).
Context (Hplain : is_a Kind.Package N && negb (bool_decide (imports N = [])) = false).

(** The visit of a node that is neither a module nor a package with
    imports changes no list of included scopes. *)
Lemma crossLinks_plain st st4 :
  is_Module N = false →
  crossLinks hierarchy environment st (N, par) = Ok st4 →
  ∃ C, touches C (λ _, False) st st4.
Proof.
  intros Hmod (sta & stb & stc & Ha & Hb & Hc & Hd)%crossLinks_steps.
  rewrite Hplain in Hb. rewrite Hmod in Hc. subst stb stc.
  assert (∃ C, touches C (λ _, False) st sta) as [C1 Ht1].
  { destruct (is_a Kind.Environment N).
    - apply linkEnvironment_effect in Ha as (s & contribs & _ & ->).
      eexists. apply registerIn_touches.
    - subst sta. exists (λ _, False). apply touches_refl. }
  assert (∃ C, touches C (λ _, False) sta st4) as [C2 Ht2].
  { destruct par as [p|]; [|subst st4; exists (λ _, False); apply touches_refl].
    destruct (negb (is_Entity N)); [|subst st4; exists (λ _, False); apply touches_refl].
    destruct Hd as (ps & _ & ->). eexists. apply registerIn_touches. }
  exists (λ i, C1 i ∨ C2 i).
  eapply touches_weaken; [| |exact (touches_trans _ _ _ _ _ _ _ Ht1 Ht2)]; simpl;
    intros i; tauto.
Qed.

Lemma includesSoFar_step pre node par0 suf st st4 :
  visit = pre ++ (node, par0) :: suf →
  forEach (crossLinks hierarchy environment) pre st1 = Ok st →
  skeleton visit st →
  includesSoFar hierarchy environment st1 N par pre st →
  crossLinks hierarchy environment st (node, par0) = Ok st4 →
  includesSoFar hierarchy environment st1 N par (pre ++ [(node, par0)]) st4.
Proof.
  intros Hsplit Hrun Hsk [Hbefore Hafter] Hstep.
  assert ((node, par0) ∈ visit) as Hin.
  { rewrite Hsplit. apply elem_of_app. right. left. }
  destruct (crossLinks_frame _ _ _ _ _ _ Hsk Hstep) as [Hsk4 Ht].
  pose proof Ht as (Hscope4 & _ & Hlen4 & Hheap4).
  destruct (decide (id node = id N)) as [Hid|Hid].
  - (* the visit of [N] itself *)
    assert ((node, par0) = (N, par)) as [= -> ->] by (by apply (visit_id_eq environment Hnd)).
    assert ((N, par) ∉ pre) as Hnotin.
    { intros Hpre. apply (visit_fresh environment Hnd _ _ _ Hsplit).
      by apply (list_elem_of_fmap_2 (λ v : Node * option Node, id v.1) _ (N, par)). }
    split; [intros Hn; destruct Hn; apply elem_of_app; right; left|]. intros _.
    destruct (sk_container _ _ Hsk _ HN) as (s & sc0 & Hs & Hsc0 & _). simpl in Hs.
    specialize (Hbefore Hnotin _ _ Hs Hsc0).
    assert (scope st4 N = Some s) as Hs4 by (unfold scope in *; by rewrite Hscope4).
    destruct (is_Module N) eqn:Hmod.
    + destruct (is_Module_kinds _ Hmod) as (Henv & Hpkg & Hent).
      apply crossLinks_steps in Hstep as (sta & stb & stc & Ha & Hb & Hc & Hd).
      rewrite Henv in Ha. subst sta. rewrite Hplain in Hb. subst stb.
      rewrite Hmod in Hc.
      assert (st4 = stc) as ->.
      { destruct par as [p|]; [|done]. by rewrite Hent in Hd. }
      apply linkHierarchy_effect in Hc
        as (s' & ancestors & supertypes & Hs' & Hanc & Hsup & ->).
      rewrite Hs in Hs'. injection Hs' as <-.
      exists pre, suf, st, s, (push supertypes sc0).
      split; [done|]. split; [done|]. split; [done|].
      split. { simpl. by rewrite list_lookup_alter_eq, Hsc0. }
      exists ancestors. split; [done|]. simpl. by rewrite Hbefore.
    + destruct (crossLinks_plain _ _ Hmod Hstep) as (C & _ & _ & _ & Hheap).
      destruct (Hheap _ _ Hsc0) as (sc4 & Hsc4 & _ & _ & Hincl).
      exists pre, suf, st, s, sc4. do 4 (split; [done|]).
      rewrite Hincl by tauto. done.
  - (* the visit of another node *)
    assert ((node, par0) ≠ (N, par)) as Hne by congruence.
    assert (∀ s, scope st N = Some s → scope st node ≠ Some s) as Hother.
    { intros s Hs Hnode. apply Hid. by apply (sk_inj _ _ Hsk _ _ s). }
    split.
    + intros Hnotin s sc4 Hs4 Hsc4.
      assert (scope st N = Some s) as Hs by (unfold scope in *; by rewrite <- Hscope4).
      destruct (lookup_lt_is_Some_2 _ _ (sk_bound _ _ Hsk _ _ Hs)) as [sc Hsc].
      destruct (Hheap4 _ _ Hsc) as (sc' & Hsc' & _ & _ & Hincl).
      rewrite Hsc4 in Hsc'. injection Hsc' as <-.
      rewrite Hincl by (by apply Hother). apply Hbefore with s; [|done..].
      intros Hpre. apply Hnotin, elem_of_app. by left.
    + intros [Hpre|Hlast%list_elem_of_singleton]%elem_of_app; [|congruence].
      destruct (Hafter Hpre) as (pre0 & suf0 & stp & s & sc & Hsplit0 & Hrun0 & Hs & Hsc & Hincl).
      destruct (Hheap4 _ _ Hsc) as (sc4 & Hsc4 & _ & _ & Hincl4).
      exists pre0, suf0, stp, s, sc4. split; [done|]. split; [done|].
      split. { unfold scope in *. by rewrite Hscope4. }
      split; [done|]. rewrite Hincl4 by (by apply Hother).
      destruct (is_Module N); [|done].
      destruct Hincl as (ancestors & Hanc & Hsup). exists ancestors. split; [done|].
      eapply Forall2_impl; [done|]. intros a t. unfold scope. by rewrite Hscope4.
Qed.

Lemma crossLinks_includesSoFar st' :
  skeleton visit st1 →
  (∀ i sc, heap st1 !! i = Some sc → includedScopes sc = []) →
  forEach (crossLinks hierarchy environment) visit st1 = Ok st' →
  skeleton visit st' ∧ includesSoFar hierarchy environment st1 N par visit st'.
Proof.
  intros Hsk Hnone Hrun.
  enough (forEach (crossLinks hierarchy environment) visit st1 = Ok st' ∧
          skeleton visit st' ∧ includesSoFar hierarchy environment st1 N par visit st')
    as (_ & ? & ?) by done.
  revert Hrun.
  apply (forEach_prefix_invariant (crossLinks hierarchy environment)
           (λ pre st, forEach (crossLinks hierarchy environment) pre st1 = Ok st ∧
                      skeleton visit st ∧
                      includesSoFar hierarchy environment st1 N par pre st)).
  - split; [done|]. split; [done|]. split.
    + intros _ s sc _ Hsc. by eapply Hnone.
    + by intros ?%elem_of_nil.
  - intros pre [node par0] suf st st2 Hsplit (Hrun & Hsk0 & Hinv) Hstep.
    split; [by rewrite forEach_app, Hrun; cbn [forEach mbind Result_bind]; rewrite Hstep|].
    split; [by destruct (crossLinks_frame _ _ _ _ _ _ Hsk0 Hstep)|].
    by eapply includesSoFar_step.
Qed.
End includes.

Lemma assignScopes_includes (hierarchy : Store → Node → Result (list Node))
    (environment : Node) (st' : Store) (N : Node) (par : option Node) :
  NoDup (ids environment) →
  assignScopes hierarchy environment (cached environment) = Ok st' →
  (N, par) ∈ pairs None environment →
  is_a Kind.Package N && negb (bool_decide (imports N = [])) = false →
  ∃ st1 pre suf stp s sc,
    forEach scopeSkeleton (pairs None environment) (cached environment) = Ok st1 ∧
    pairs None environment = pre ++ (N, par) :: suf ∧
    forEach (crossLinks hierarchy environment) pre st1 = Ok stp ∧
    skeleton (pairs None environment) st' ∧
    scope st' N = Some s ∧ heap st' !! s = Some sc ∧
    if is_Module N then
      ∃ ancestors,
        hierarchy stp N = Ok ancestors ∧
        Forall2 (λ a t, scope st' a = Some t) (drop 1 ancestors) (includedScopes sc)
    else includedScopes sc = [].
Proof.
  intros Hnd Hassign HN Hplain.
  destruct (assignScopes_skeleton _ _ _ Hnd Hassign) as (st1 & H1 & H2 & Hsf & _ & _).
  pose proof (sf_included _ _ _ _ Hsf) as Hnone.
  apply skeletonSoFar_skeleton in Hsf.
  destruct (crossLinks_includesSoFar hierarchy environment Hnd st1 N par HN Hplain
              st' Hsf Hnone H2) as [Hsk [_ Hafter]].
  destruct (Hafter HN) as (pre & suf & stp & s & sc & ? & ? & ? & ? & ?).
  by exists st1, pre, suf, stp, s, sc.
Qed.

(** After [assignScopes] the scope of a module — a class, a mixin or a
    singleton — includes the scopes of its ancestors, as [hierarchy]
    answered them when the module was visited, the module itself left out,
    and nothing else.  A name therefore resolves from that scope to what the
    module itself declares; else to what the own scope of the first
    ancestor that binds it says — no ancestor of an ancestor, no container
    of an ancestor is looked at; and else to what the container resolves it
    to. *)
Theorem module_includes_ancestors (hierarchy : Store → Node → Result (list Node))
    (environment : Node) (st' : Store) (M : Node) (par : option Node) :
  NoDup (ids environment) →
  assignScopes hierarchy environment (cached environment) = Ok st' →
  (M, par) ∈ pairs None environment →
  is_Module M = true →
  ∃ st1 pre suf stp ancestors s sc,
    forEach scopeSkeleton (pairs None environment) (cached environment) = Ok st1 ∧
    pairs None environment = pre ++ (M, par) :: suf ∧
    forEach (crossLinks hierarchy environment) pre st1 = Ok stp ∧
    hierarchy stp M = Ok ancestors ∧
    scope st' M = Some s ∧ heap st' !! s = Some sc ∧
    Forall2 (λ a t, scope st' a = Some t) (drop 1 ancestors) (includedScopes sc) ∧
    ∀ x, resolve (heap st') s x true =
      match declared M x with
      | Some c => Ok (Some c)
      | None =>
        match first_local (heap st') x (includedScopes sc) with
        | Some c => Ok (Some c)
        | None =>
          match containerScope sc with
          | Some container => resolve (heap st') container x true
          | None => Ok None
          end
        end
      end.
Proof.
  intros Hnd Hassign HM Hmod.
  destruct (is_Module_kinds _ Hmod) as (Henv & Hpkg & _).
  destruct (assignScopes_includes _ _ _ _ _ Hnd Hassign HM)
    as (st1 & pre & suf & stp & s & sc & H1 & Hsplit & Hrun & Hsk & Hs & Hsc & Hincl).
  { by rewrite Hpkg. }
  rewrite Hmod in Hincl. destruct Hincl as (ancestors & Hanc & Hsup).
  destruct (assignScopes_bindings _ _ _ _ _ Hnd Hassign HM Henv)
    as (s' & sc' & Hs' & Hsc' & Hexact).
  rewrite Hs in Hs'. injection Hs' as <-. rewrite Hsc in Hsc'. injection Hsc' as <-.
  exists st1, pre, suf, stp, ancestors, s, sc. do 7 (split; [done|]).
  intros x. rewrite (resolve_unfold _ _ _ sc); [|apply Hsk|done].
  rewrite Hexact. by destruct (declared M x).
Qed.

Lemma module_includes_ancestors_witness :
  ∃ st' M par,
    pairs None SampleEnvironment.environment !! 10 = Some (M, par) ∧
    assignScopes SampleHierarchy.hierarchy SampleEnvironment.environment
      (cached SampleEnvironment.environment) = Ok st' ∧
    ∃ stp ancestors s sc superclass t inherited,
      SampleHierarchy.hierarchy stp M = Ok ancestors ∧
      scope st' M = Some s ∧ heap st' !! s = Some sc ∧
      Forall2 (λ a t, scope st' a = Some t) (drop 1 ancestors) (includedScopes sc) ∧
      ancestors = [M; superclass] ∧ includedScopes sc = [t] ∧
      scope st' superclass = Some t ∧
      declared M "inB" = None ∧
      first_local (heap st') "inB" (includedScopes sc) = Some inherited ∧
      name inherited = Some "inB"%string ∧
      resolve (heap st') s "inB" true = Ok (Some inherited).
Proof.
  destruct (pairs None SampleEnvironment.environment !! 10) as [[M par]|] eqn:Hk;
    [|vm_compute in Hk; discriminate Hk].
  set (st' := match assignScopes SampleHierarchy.hierarchy SampleEnvironment.environment
                      (cached SampleEnvironment.environment) with
              | Ok st => st
              | Throw _ => cached SampleEnvironment.environment
              end).
  assert (assignScopes SampleHierarchy.hierarchy SampleEnvironment.environment
            (cached SampleEnvironment.environment) = Ok st') as Ha
    by (vm_compute; reflexivity).
  exists st', M, par. split; [reflexivity|]. split; [exact Ha|].
  pose proof (list_elem_of_lookup_2 _ _ _ Hk) as Hin.
  vm_compute in Hk. injection Hk as <- <-.
  destruct (module_includes_ancestors SampleHierarchy.hierarchy
              SampleEnvironment.environment st' _ _ sample_ids_NoDup Ha Hin eq_refl)
    as (st1 & pre & suf & stp & ancestors & s & sc & _ & _ & _ & Hanc & Hs & Hsc & Hsup
        & Hresolve).
  clear Hin.
  pose proof Hs as Hs0. vm_compute in Hs0. injection Hs0 as <-.
  pose proof Hsc as Hsc0. vm_compute in Hsc0. injection Hsc0 as <-.
  pose proof Hsup as Hsup0.
  apply Forall2_cons_inv_r in Hsup0 as (superclass & rest & Hsuper & Hrest & Hdrop).
  apply Forall2_nil_inv_r in Hrest as ->.
  pose proof Hanc as Hanc0. injection Hanc0 as <-.
  exists stp. eexists. do 5 eexists.
  split; [exact Hanc|]. split; [exact Hs|]. split; [exact Hsc|]. split; [exact Hsup|].
  split; [exact (f_equal (cons _) Hdrop)|].
  split; [reflexivity|]. split; [exact Hsuper|].
  split; [reflexivity|].
  split; [vm_compute; reflexivity|]. split; [reflexivity|].
  rewrite Hresolve. vm_compute. reflexivity.
Defined.

Lemma assignScopes_plain (hierarchy : Store → Node → Result (list Node))
    (environment : Node) (st' : Store) (N p : Node) :
  NoDup (ids environment) →
  assignScopes hierarchy environment (cached environment) = Ok st' →
  (N, Some p) ∈ pairs None environment →
  is_a Kind.Environment N = false → is_Module N = false →
  is_a Kind.Package N && negb (bool_decide (imports N = [])) = false →
  ∃ s sc c,
    scope st' N = Some s ∧ heap st' !! s = Some sc ∧
    includedScopes sc = [] ∧ containerScope sc = Some c ∧
    (if is_a Kind.Reference N && (is_a Kind.Class p || is_a Kind.Mixin p)
     then ∃ grandparent,
            (p, Some grandparent) ∈ pairs None environment ∧ scope st' grandparent = Some c
     else scope st' p = Some c) ∧
    ∀ x, resolve (heap st') s x true =
      match declared N x with
      | Some n => Ok (Some n)
      | None => resolve (heap st') c x true
      end.
Proof.
  intros Hnd Hassign HN Henv Hmod Hplain.
  destruct (assignScopes_includes _ _ _ _ _ Hnd Hassign HN Hplain)
    as (st1 & pre & suf & stp & s & sc & H1 & Hsplit & Hrun & Hsk & Hs & Hsc & Hincl).
  rewrite Hmod in Hincl.
  destruct (assignScopes_bindings _ _ _ _ _ Hnd Hassign HN Henv)
    as (s' & sc' & Hs' & Hsc' & Hexact).
  rewrite Hs in Hs'. injection Hs' as <-. rewrite Hsc in Hsc'. injection Hsc' as <-.
  destruct (skeleton_hasLexicalContainer environment Hnd st' _ Hsk HN)
    as (s' & sc' & Hs' & Hsc' & sp & Hsp & Hc). simpl in Hs', Hsp, Hc.
  rewrite Hs in Hs'. injection Hs' as <-. rewrite Hsc in Hsc'. injection Hsc' as <-.
  assert (∃ c, containerScope sc = Some c ∧
            if is_a Kind.Reference N && (is_a Kind.Class p || is_a Kind.Mixin p)
            then ∃ grandparent,
                   (p, Some grandparent) ∈ pairs None environment ∧
                   scope st' grandparent = Some c
            else scope st' p = Some c) as (c & Hcont & Hwhich).
  { destruct (is_a Kind.Reference N && _).
    - destruct Hc as (g & sg & Hg & Hsg & Hcont & _). exists sg. split; [done|]. by exists g.
    - by exists sp. }
  exists s, sc, c. do 5 (split; [done|]).
  intros x. rewrite (resolve_unfold _ _ _ sc); [|apply Hsk|done].
  rewrite Hexact, Hincl, Hcont. simpl. by destruct (declared N x).
Qed.

(** After [assignScopes] the scope of a node that is no module, no package
    with imports and not the Environment includes nothing: a name resolves
    from it to what the node itself declares, and else to what it resolves
    to from the container — the scope of the parent, or, for a Reference
    right under a Class or Mixin, the scope of the parent of that parent. *)
Theorem plain_scope_resolution (hierarchy : Store → Node → Result (list Node))
    (environment : Node) (st' : Store) (N p : Node) :
  NoDup (ids environment) →
  assignScopes hierarchy environment (cached environment) = Ok st' →
  (N, Some p) ∈ pairs None environment →
  is_a Kind.Environment N = false → is_Module N = false →
  is_a Kind.Package N && negb (bool_decide (imports N = [])) = false →
  ∃ s sc c,
    scope st' N = Some s ∧ heap st' !! s = Some sc ∧
    includedScopes sc = [] ∧ containerScope sc = Some c ∧
    (if is_a Kind.Reference N && (is_a Kind.Class p || is_a Kind.Mixin p)
     then ∃ grandparent,
            (p, Some grandparent) ∈ pairs None environment ∧ scope st' grandparent = Some c
     else scope st' p = Some c) ∧
    ∀ x, resolve (heap st') s x true =
      match declared N x with
      | Some n => Ok (Some n)
      | None => resolve (heap st') c x true
      end.
Proof.
  intros Hnd Hassign HN Henv Hmod Hplain.
  destruct (assignScopes_includes _ _ _ _ _ Hnd Hassign HN Hplain)
    as (st1 & pre & suf & stp & s & sc & H1 & Hsplit & Hrun & Hsk & Hs & Hsc & Hincl).
  rewrite Hmod in Hincl.
  destruct (assignScopes_bindings _ _ _ _ _ Hnd Hassign HN Henv)
    as (s' & sc' & Hs' & Hsc' & Hexact).
  rewrite Hs in Hs'. injection Hs' as <-. rewrite Hsc in Hsc'. injection Hsc' as <-.
  destruct (skeleton_hasLexicalContainer environment Hnd st' _ Hsk HN)
    as (s' & sc' & Hs' & Hsc' & sp & Hsp & Hc). simpl in Hs', Hsp, Hc.
  rewrite Hs in Hs'. injection Hs' as <-. rewrite Hsc in Hsc'. injection Hsc' as <-.
  assert (∃ c, containerScope sc = Some c ∧
            if is_a Kind.Reference N && (is_a Kind.Class p || is_a Kind.Mixin p)
            then ∃ grandparent,
                   (p, Some grandparent) ∈ pairs None environment ∧
                   scope st' grandparent = Some c
            else scope st' p = Some c) as (c & Hcont & Hwhich).
  { destruct (is_a Kind.Reference N && _).
    - destruct Hc as (g & sg & Hg & Hsg & Hcont & _). exists sg. split; [done|]. by exists g.
    - by exists sp. }
  exists s, sc, c. do 5 (split; [done|]).
  intros x. rewrite (resolve_unfold _ _ _ sc); [|apply Hsk|done].
  rewrite Hexact, Hincl, Hcont. simpl. by destruct (declared N x).
Qed.

Lemma plain_scope_resolution_witness :
  ∃ st' N p,
    pairs None SampleEnvironment.environment !! 15 = Some (N, Some p) ∧
    assignScopes SampleEnvironment.hierarchy SampleEnvironment.environment
      (cached SampleEnvironment.environment) = Ok st' ∧
    ∃ s sc c,
      scope st' N = Some s ∧ heap st' !! s = Some sc ∧
      includedScopes sc = [] ∧ containerScope sc = Some c ∧ scope st' p = Some c.
Proof.
  destruct (pairs None SampleEnvironment.environment !! 15) as [[N [p|]]|] eqn:Hk;
    [|vm_compute in Hk; discriminate Hk..].
  destruct (assignScopes SampleEnvironment.hierarchy SampleEnvironment.environment
              (cached SampleEnvironment.environment)) as [st'|e] eqn:Ha;
    [|vm_compute in Ha; discriminate Ha].
  exists st', N, p. split; [reflexivity|]. split; [reflexivity|].
  pose proof (list_elem_of_lookup_2 _ _ _ Hk) as Hin.
  vm_compute in Hk. injection Hk as <- <-.
  destruct (plain_scope_resolution SampleEnvironment.hierarchy
              SampleEnvironment.environment st' _ _ sample_ids_NoDup Ha Hin
              eq_refl eq_refl eq_refl)
    as (s & sc & c & Hs & Hsc & Hincl & Hcont & Hwhich & _).
  exists s, sc, c. exact (conj Hs (conj Hsc (conj Hincl (conj Hcont Hwhich)))).
Defined.

(** A Reference declares nothing, so after [assignScopes] a name resolves
    from the scope of a Reference exactly as it resolves from the scope of
    its parent — and, for a Reference right under a Class or a Mixin, such
    as the one that names a supertype, as it resolves from the scope of the
    parent of that Class or Mixin: what the Class or Mixin declares or
    inherits is not seen. *)
Theorem reference_resolves_lexically (hierarchy : Store → Node → Result (list Node))
    (environment : Node) (st' : Store) (r p : Node) :
  NoDup (ids environment) →
  assignScopes hierarchy environment (cached environment) = Ok st' →
  (r, Some p) ∈ pairs None environment →
  is_a Kind.Reference r = true → children r = [] →
  ∃ s c,
    scope st' r = Some s ∧
    (if is_a Kind.Class p || is_a Kind.Mixin p
     then ∃ grandparent,
            (p, Some grandparent) ∈ pairs None environment ∧ scope st' grandparent = Some c
     else scope st' p = Some c) ∧
    ∀ x, resolve (heap st') s x true = resolve (heap st') c x true.
Proof.
  intros Hnd Hassign Hr Href Hchildren.
  assert (is_a Kind.Environment r = false ∧ is_Module r = false ∧
          is_a Kind.Package r = false) as (Henv & Hmod & Hpkg).
  { unfold is_Module, is_a in *. apply bool_decide_eq_true_1 in Href. by rewrite Href. }
  destruct (assignScopes_plain _ _ _ _ _ Hnd Hassign Hr Henv Hmod)
    as (s & sc & c & Hs & Hsc & Hincl & Hcont & Hwhich & Hresolve).
  { by rewrite Hpkg. }
  rewrite Href in Hwhich. simpl in Hwhich.
  exists s, c. do 2 (split; [done|]). intros x. rewrite Hresolve.
  unfold declared, declaredMember, declaredEntity. by rewrite Hchildren.
Qed.

Lemma reference_resolves_lexically_witness :
  ∃ st' r p,
    pairs None SampleEnvironment.environment !! 11 = Some (r, Some p) ∧
    assignScopes SampleEnvironment.hierarchy SampleEnvironment.environment
      (cached SampleEnvironment.environment) = Ok st' ∧
    is_a Kind.Class p = true ∧
    ∃ s c grandparent,
      scope st' r = Some s ∧
      (p, Some grandparent) ∈ pairs None SampleEnvironment.environment ∧
      scope st' grandparent = Some c ∧
      ∀ x, resolve (heap st') s x true = resolve (heap st') c x true.
Proof.
  destruct (pairs None SampleEnvironment.environment !! 11) as [[r [p|]]|] eqn:Hk;
    [|vm_compute in Hk; discriminate Hk..].
  destruct (assignScopes SampleEnvironment.hierarchy SampleEnvironment.environment
              (cached SampleEnvironment.environment)) as [st'|e] eqn:Ha;
    [|vm_compute in Ha; discriminate Ha].
  exists st', r, p. split; [reflexivity|]. split; [reflexivity|].
  pose proof (list_elem_of_lookup_2 _ _ _ Hk) as Hin.
  vm_compute in Hk. injection Hk as <- <-. split; [reflexivity|].
  destruct (reference_resolves_lexically SampleEnvironment.hierarchy
              SampleEnvironment.environment st' _ _ sample_ids_NoDup Ha Hin
              eq_refl eq_refl)
    as (s & c & Hs & (g & Hg & Hsg) & Hresolve).
  exists s, c, g. exact (conj Hs (conj Hg (conj Hsg Hresolve))).
Defined.

(** ** Linking over a base environment *)

(** Linking new packages over a base environment whose members have
    pairwise distinct names is linking the members of the base environment
    followed by the new packages, from scratch. *)
Theorem link_incremental (uuid : nat → string)
    (hierarchy : Store → Node → Result (list Node))
    (newPackages : list Node) (baseEnvironment : Node) :
  NoDup (name <$> members baseEnvironment) →
  newEnvironment uuid newPackages (Some baseEnvironment)
    = newEnvironment uuid (members baseEnvironment ++ newPackages) None ∧
  link uuid hierarchy newPackages (Some baseEnvironment)
    = link uuid hierarchy (members baseEnvironment ++ newPackages) None.
Proof.
  intros Hnd.
  assert (newEnvironment uuid newPackages (Some baseEnvironment)
          = newEnvironment uuid (members baseEnvironment ++ newPackages) None) as Henv.
  { unfold newEnvironment. rewrite fold_left_app.
    by rewrite (fold_mergePackage_fresh (members baseEnvironment) []). }
  split; [done|]. unfold link. by rewrite Henv.
Qed.

Lemma link_incremental_witness :
  let base := Sample.entityNamed Kind.Environment "" [SampleEnvironment.wollok;
                                                      SampleEnvironment.b] in
  link SampleEnvironment.uuid SampleEnvironment.hierarchy [SampleEnvironment.c] (Some base)
  = link SampleEnvironment.uuid SampleEnvironment.hierarchy
      [SampleEnvironment.wollok; SampleEnvironment.b; SampleEnvironment.c] None.
Proof.
  apply (link_incremental SampleEnvironment.uuid SampleEnvironment.hierarchy
           [SampleEnvironment.c]
           (Sample.entityNamed Kind.Environment "" [SampleEnvironment.wollok;
                                                    SampleEnvironment.b])).
  refine (bool_decide_unpack _ _). vm_compute. exact I.
Defined.

(** ** Imports that do not resolve *)

Lemma linkImports_throws visit st node e :
  skeleton visit st →
  is_Some (scope st node) →
  mapM (resolveImport st) (discriminate isGeneric (imports node)).2 = Throw e ∨
  (∃ entities,
     mapM (resolveImport st) (discriminate isGeneric (imports node)).2 = Ok entities ∧
     mapM (importedScope st) (discriminate isGeneric (imports node)).1 = Throw e) →
  linkImports st node = Throw e.
Proof.
  intros [Hbound Hinj Hwf Hcont] [ps Hps] Hthrow. unfold linkImports, discriminate in *.
  simpl in *.
  set (sta := setHeap (heap st ++ [mkScope ∅ [] None]) st).
  assert (heap_wf (heap sta)) as Hwfa by (by apply heap_wf_snoc).
  assert (∀ i, i < length (heap st) → heap sta !! i = heap st !! i) as Hagreea.
  { intros i Hi. simpl. by rewrite lookup_app_l. }
  rewrite (mapM_ext (resolveImport sta) (resolveImport st))
    by (intros x; by apply resolveImport_agree).
  destruct Hthrow as [->|(entities & -> & Hgen)]; [done|]. simpl.
  set (stb := registerIn (length (heap st)) (flat_map importBinding entities) sta).
  assert (heap_wf (heap stb)) as Hwfb by (by apply heap_wf_register).
  assert (∀ i, i < length (heap st) → heap stb !! i = heap st !! i) as Hagreeb.
  { intros i Hi. simpl. rewrite list_lookup_alter_ne by lia. by rewrite lookup_app_l. }
  rewrite Hps.
  rewrite (mapM_ext (importedScope stb) (importedScope st)).
  2:{ intros x. unfold importedScope. rewrite (resolveImport_agree st stb) by done.
      destruct (resolveImport st x); done. }
  by rewrite Hgen.
Qed.

(** An import that does not resolve ends scope assignment: when the second
    traversal reaches a package with an import whose name does not resolve
    from the scope of the import — a simple import, or, the simple imports
    having resolved, a generic one — [assignScopes] throws the error of
    that resolution. *)
Theorem unresolved_import_throws (hierarchy : Store → Node → Result (list Node))
    (environment : Node) (st1 stp : Store) (pre suf : list (Node * option Node))
    (P : Node) (par : option Node) (e : Error) :
  NoDup (ids environment) →
  forEach scopeSkeleton (pairs None environment) (cached environment) = Ok st1 →
  pairs None environment = pre ++ (P, par) :: suf →
  forEach (crossLinks hierarchy environment) pre st1 = Ok stp →
  is_a Kind.Package P = true → imports P ≠ [] →
  mapM (resolveImport stp) (discriminate isGeneric (imports P)).2 = Throw e ∨
  (∃ entities,
     mapM (resolveImport stp) (discriminate isGeneric (imports P)).2 = Ok entities ∧
     mapM (importedScope stp) (discriminate isGeneric (imports P)).1 = Throw e) →
  assignScopes hierarchy environment (cached environment) = Throw e.
Proof.
  intros Hnd H1 Hsplit Hrun Hpkg Himports Hthrow.
  destruct (cached_scopes environment) as [Hs Hh].
  pose proof (scopeSkeleton_skeleton environment (cached environment) Hnd Hs Hh
                (cached_parentOf environment) st1 H1) as Hsf.
  apply skeletonSoFar_skeleton in Hsf.
  destruct (crossLinks_skeleton _ _ _ _ _ Hsf Hrun) as [Hsk _].
  assert (is_Some (scope stp P)) as HsP.
  { destruct (sk_container _ _ Hsk (P, par)) as (s & _ & ? & _); [|by eexists].
    rewrite Hsplit. apply elem_of_app. right. left. }
  pose proof (linkImports_throws _ _ _ _ Hsk HsP Hthrow) as Hlink.
  destruct (is_Package_kinds _ Hpkg) as (Henv & _ & _).
  unfold assignScopes. rewrite H1. cbn [mbind Result_bind].
  rewrite Hsplit, forEach_app, Hrun. cbn [mbind Result_bind forEach].
  unfold crossLinks. rewrite Henv, Hpkg, (bool_decide_eq_false_2 _ Himports).
  cbn [mbind Result_bind negb andb]. by rewrite Hlink.
Qed.

Lemma unresolved_import_throws_witness :
  assignScopes SampleEnvironment.hierarchy SampleDangling.environment
    (cached SampleDangling.environment) = Throw (CouldNotResolve "nowhere").
Proof.
  eapply (unresolved_import_throws SampleEnvironment.hierarchy SampleDangling.environment
            _ _ (take 5 (pairs None SampleDangling.environment)) _ _ _).
  - refine (bool_decide_unpack _ _). vm_compute. exact I.
  - vm_compute. reflexivity.
  - vm_compute. reflexivity.
  - vm_compute. reflexivity.
  - reflexivity.
  - intros H. discriminate H.
  - left. vm_compute. reflexivity.
Defined.

(** ** Resolution stays in the tree *)

Lemma nodes_children_in node :
  ∀ q n c, n ∈ (pairs q node).*1 → c ∈ children n → c ∈ (pairs q node).*1.
Proof.
  induction node as [node IH] using Node_children_ind. intros q n c.
  rewrite pairs_unfold, fmap_cons, !elem_of_cons. simpl.
  intros Hn Hc. right.
  assert (∀ ch, ch ∈ children node → (pairs (Some node) ch).*1 ⊆
            (flat_map (pairs (Some node)) (children node)).*1) as Hsub.
  { intros ch Hch m (v & -> & Hv)%list_elem_of_fmap. apply list_elem_of_fmap_2.
    apply list_elem_of_In, in_flat_map. exists ch. by rewrite <- !list_elem_of_In. }
  destruct Hn as [->|Hn].
  - apply (Hsub c Hc). rewrite pairs_unfold. left.
  - apply list_elem_of_fmap in Hn as (v & -> & Hv).
    apply list_elem_of_In, in_flat_map in Hv as (ch & Hch & Hv).
    apply list_elem_of_In in Hch, Hv. apply (Hsub ch Hch).
    rewrite Forall_forall in IH. apply (IH ch Hch (Some node) v.1 c); [|done].
    by apply list_elem_of_fmap_2.
Qed.

Lemma nodes_members environment n m :
  n ∈ nodes environment → m ∈ members n → m ∈ nodes environment.
Proof.
  intros Hn Hm. apply (nodes_children_in environment None n m Hn).
  unfold children. rewrite !elem_of_app. auto.
Qed.

Lemma register_bound contribs sc x n :
  contributions (register contribs sc) !! x = Some n →
  (x, n) ∈ contribs ∨ contributions sc !! x = Some n.
Proof.
  unfold register. simpl. rewrite fold_insert_lookup.
  destruct (last _) as [c|] eqn:Hlast; [|by right].
  apply last_Some_elem_of, list_elem_of_filter in Hlast as [Hx Hc].
  intros [= <-]. left. by destruct c; simpl in *; subst.
Qed.

Lemma resolveQualified_sound st :
  heap_wf (heap st) →
  ∀ q this allowLookup n,
    resolveQualified st this q allowLookup = Ok n →
    ∃ i sc x, heap st !! i = Some sc ∧ contributions sc !! x = Some n.
Proof.
  intros Hwf q. remember (String.length q) as len eqn:Hlen.
  revert q Hlen. induction (lt_wf len) as [len _ IH]. intros q -> this allowLookup n.
  rewrite resolveQualified_unfold.
  destruct (divideOn "." q) as [start rest] eqn:Hq.
  destruct (resolve (heap st) this start allowLookup) as [[root|]|e] eqn:Hroot;
    simpl; [|done..].
  destruct (String.length rest) as [|k] eqn:Hrest.
  - intros [= <-]. destruct (resolve_sound_aux _ _ _ _ _ Hwf Hroot) as (i & sc & ? & ?).
    by exists i, sc, start.
  - destruct (theScope st root) as [s|e]; simpl; [|done].
    pose proof (divideOn_rest_shorter _ _ _ _ Hq) as Hshort.
    eapply IH; [|done]. lia.
Qed.

Lemma importBinding_contribution e x :
  scopeContribution e = [(x, e)] → importBinding e = [(x, e)].
Proof.
  intros He. unfold importBinding.
  destruct (scopeContribution_name e x) as (-> & _); [by rewrite He|done].
Qed.

Section in_tree.
Context (hierarchy : Store → Node → Result (list Node)) (environment : Node).
Local Abbreviation visit := (pairs None environment).

Lemma bindsNodesOf_alter h s (f : LocalScope → LocalScope) :
  bindsNodesOf environment h →
  (∀ sc x n, h !! s = Some sc → contributions (f sc) !! x = Some n →
     contributions sc !! x = Some n ∨
     (n ∈ nodes environment ∧ scopeContribution n = [(x, n)])) →
  bindsNodesOf environment (alter f s h).
Proof.
  intros Hin Hf i sc x n. destruct (decide (s = i)) as [->|Hne].
  - rewrite list_lookup_alter_eq. destruct (h !! i) as [sc0|] eqn:Hi; [|done].
    intros [= <-] Hx. destruct (Hf _ _ _ eq_refl Hx) as [Hold|?]; [|done].
    by eapply Hin.
  - rewrite list_lookup_alter_ne by done. apply Hin.
Qed.

Lemma bindsNodesOf_register h s contribs :
  bindsNodesOf environment h →
  (∀ c, c ∈ contribs → c.2 ∈ nodes environment ∧ scopeContribution c.2 = [c]) →
  bindsNodesOf environment (alter (register contribs) s h).
Proof.
  intros Hin Hc. apply bindsNodesOf_alter; [done|].
  intros sc x n _ [Hx|?]%register_bound; [right|by left]. by apply (Hc (x, n)).
Qed.

Lemma bindsNodesOf_snoc h c :
  bindsNodesOf environment h → bindsNodesOf environment (h ++ [mkScope ∅ [] c]).
Proof.
  intros Hin i sc x n Hi Hx. apply lookup_app_Some in Hi as [Hi|[_ Hi]]; [by eapply Hin|].
  apply list_lookup_singleton_Some in Hi as [_ <-]. simpl in Hx.
  by rewrite lookup_empty in Hx.
Qed.

Lemma scopeContribution_in node :
  node ∈ nodes environment →
  ∀ c, c ∈ scopeContribution node →
    c.2 ∈ nodes environment ∧ scopeContribution c.2 = [c].
Proof.
  intros Hn c Hc. destruct (scopeContribution_cases node) as [H|[y H]]; rewrite H in Hc.
  - by apply elem_of_nil in Hc.
  - by apply list_elem_of_singleton in Hc as ->.
Qed.

Lemma visit_nodes node par : (node, par) ∈ visit → node ∈ nodes environment.
Proof. intros Hin. by apply (list_elem_of_fmap_2 fst _ (node, par)). Qed.

Lemma scopeSkeleton_bindsNodesOf st node par st1 :
  (node, par) ∈ visit →
  bindsNodesOf environment (heap st) →
  scopeSkeleton st (node, par) = Ok st1 →
  bindsNodesOf environment (heap st1).
Proof.
  intros Hin Hinv (container & _ & Hheap)%scopeSkeleton_registers.
  destruct (is_Entity node).
  - destruct Hheap as (p & ps & _ & _ & ->).
    apply bindsNodesOf_register; [by apply bindsNodesOf_snoc|].
    apply scopeContribution_in. by eapply visit_nodes.
  - rewrite Hheap. by apply bindsNodesOf_snoc.
Qed.

Lemma resolveQualified_bound st this q allowLookup n :
  heap_wf (heap st) → bindsNodesOf environment (heap st) →
  resolveQualified st this q allowLookup = Ok n →
  n ∈ nodes environment ∧ ∃ x, scopeContribution n = [(x, n)].
Proof.
  intros Hwf Hb Hq.
  destruct (resolveQualified_sound _ Hwf _ _ _ _ Hq) as (i & sc & x & Hi & Hx).
  destruct (Hb _ _ _ _ Hi Hx) as [? ?]. split; [done|by exists x].
Qed.

Lemma crossLinks_bindsNodesOf st node par st4 :
  (node, par) ∈ visit →
  skeleton visit st →
  bindsNodesOf environment (heap st) →
  crossLinks hierarchy environment st (node, par) = Ok st4 →
  bindsNodesOf environment (heap st4).
Proof.
  intros Hin Hsk Hinv Hstep.
  pose proof Hstep as (sta & stb & stc & Ha & Hb & Hc & Hd)%crossLinks_steps.
  assert (skeleton visit sta ∧ bindsNodesOf environment (heap sta)) as [Hska Hinva].
  { destruct (is_a Kind.Environment node); [|by subst].
    split; [by destruct (linkEnvironment_frame _ _ _ _ Hsk Ha)|].
    apply linkEnvironment_precise in Ha
      as (s & es & lang & lib & _ & _ & Hlang & Hlib & _ & _ & ->).
    simpl. apply bindsNodesOf_register; [done|].
    intros c (m & Hm & Hc')%list_elem_of_In%in_flat_map.
    apply list_elem_of_In in Hm, Hc'. revert c Hc'. apply scopeContribution_in.
    destruct (resolveQualified_bound _ _ _ _ _ (sk_wf _ _ Hsk) Hinv Hlang) as [Hl1 _].
    destruct (resolveQualified_bound _ _ _ _ _ (sk_wf _ _ Hsk) Hinv Hlib) as [Hl2 _].
    apply elem_of_app in Hm as [Hm|Hm];
      [exact (nodes_members _ _ _ Hl1 Hm)|exact (nodes_members _ _ _ Hl2 Hm)]. }
  assert (skeleton visit stb ∧ bindsNodesOf environment (heap stb)) as [Hskb Hinvb].
  { destruct (is_a Kind.Package node && _); [|by subst].
    split; [by destruct (linkImports_precise environment _ _ _ Hska Hb) as [[? _] _]|].
    apply (linkImports_effect visit) in Hb
      as (ps & entities & generics & _ & Hents & _ & ->); [|done].
    simpl. apply bindsNodesOf_alter.
    - apply bindsNodesOf_register; [by apply bindsNodesOf_snoc|].
      intros c (e & He & Hc')%list_elem_of_In%in_flat_map.
      apply list_elem_of_In in He, Hc'.
      apply mapM_Ok_Forall2 in Hents.
      apply list_elem_of_lookup in He as [k' Hk'].
      destruct (Forall2_lookup_r _ _ _ _ _ Hents Hk') as (imported & _ & Himp).
      unfold resolveImport in Himp.
      destruct (theScope sta imported) as [s|?]; simpl in Himp; [|done].
      destruct (entity imported) as [e'|]; [|done]. destruct (name e') as [q|]; [|done].
      destruct (resolveQualified_bound _ _ _ _ _ (sk_wf _ _ Hska) Hinva Himp)
        as [Hnode [x Hx]].
      rewrite (importBinding_contribution _ _ Hx) in Hc'.
      by apply list_elem_of_singleton in Hc' as ->.
    - intros sc x n _ Hx. by left. }
  assert (skeleton visit stc ∧ bindsNodesOf environment (heap stc)) as [Hskc Hinvc].
  { destruct (is_Module node); [|by subst].
    split; [by destruct (linkHierarchy_frame _ _ _ _ _ Hskb Hc)|].
    apply linkHierarchy_effect in Hc as (s & a & t & _ & _ & _ & ->).
    simpl. apply bindsNodesOf_alter; [done|]. intros sc x n _ Hx. by left. }
  destruct par as [p|]; [|by subst].
  destruct (negb (is_Entity node)); [|by subst].
  destruct Hd as (ps & _ & ->). simpl.
  apply bindsNodesOf_register; [done|].
  apply scopeContribution_in. by eapply visit_nodes.
Qed.

Lemma scopeSkeleton_run_bindsNodesOf st1 :
  forEach scopeSkeleton visit (cached environment) = Ok st1 →
  bindsNodesOf environment (heap st1).
Proof.
  apply (forEach_prefix_invariant scopeSkeleton
           (λ _ st, bindsNodesOf environment (heap st))).
  - destruct (cached_scopes environment) as [_ ->]. by intros i sc x n Hi.
  - intros pre [n par] suf st st2 Hsplit Hinv Hstep.
    eapply scopeSkeleton_bindsNodesOf; [|done..].
    rewrite Hsplit. apply elem_of_app. right. left.
Qed.

Lemma crossLinks_run_bindsNodesOf l st1 st :
  (∀ v, v ∈ l → v ∈ visit) →
  skeleton visit st1 → bindsNodesOf environment (heap st1) →
  forEach (crossLinks hierarchy environment) l st1 = Ok st →
  skeleton visit st ∧ bindsNodesOf environment (heap st).
Proof.
  intros Hsub Hsk1 Hin1.
  apply (forEach_prefix_invariant (crossLinks hierarchy environment)
           (λ _ st, skeleton visit st ∧ bindsNodesOf environment (heap st))); [done|].
  intros pre [n par] suf st0 st2 Hsplit [Hsk Hinv] Hstep. split.
  - by destruct (crossLinks_frame _ _ _ _ _ _ Hsk Hstep).
  - eapply crossLinks_bindsNodesOf; [|done..].
    apply Hsub. rewrite Hsplit. apply elem_of_app. right. left.
Qed.

Lemma assignScopes_bindsNodesOf st' :
  NoDup (ids environment) →
  assignScopes hierarchy environment (cached environment) = Ok st' →
  skeleton visit st' ∧ bindsNodesOf environment (heap st').
Proof.
  intros Hnd Hassign.
  destruct (assignScopes_skeleton _ _ _ Hnd Hassign) as (st1 & H1 & H2 & Hsf & _ & _).
  apply skeletonSoFar_skeleton in Hsf.
  by apply (crossLinks_run_bindsNodesOf visit st1);
    [|done|apply scopeSkeleton_run_bindsNodesOf|].
Qed.
End in_tree.

(** Once [assignScopes] is over, resolution never leaves the tree, and a
    name resolves to a declaration of that very name: whatever [resolve]
    answers for a name, from whatever scope, is a node of the environment —
    the rebuilt one, not the nodes the packages or the base environment
    came with — that is an entity, a Field or a Parameter and carries that
    name; whatever [resolveQualified] answers is a node of the environment,
    and so is the target of every Reference. *)
Theorem resolution_stays_in_tree (hierarchy : Store → Node → Result (list Node))
    (environment : Node) (st' : Store) :
  NoDup (ids environment) →
  assignScopes hierarchy environment (cached environment) = Ok st' →
  (∀ this x allowLookup n,
     resolve (heap st') this x allowLookup = Ok (Some n) →
     n ∈ nodes environment ∧ name n = Some x ∧ x ≠ EmptyString ∧
     (is_Entity n || is_a Kind.Field n || is_a Kind.Param n) = true) ∧
  (∀ this q allowLookup n,
     resolveQualified st' this q allowLookup = Ok n → n ∈ nodes environment) ∧
  (∀ r t, target st' r = Some t → t ∈ nodes environment ∧ is_Some (scope st' t)).
Proof.
  intros Hnd Hassign.
  destruct (assignScopes_bindsNodesOf hierarchy environment st' Hnd Hassign) as [Hsk Hin].
  assert (∀ this q allowLookup n,
            resolveQualified st' this q allowLookup = Ok n → n ∈ nodes environment) as Hq.
  { intros this q allowLookup n Hq.
    by destruct (resolveQualified_bound _ _ _ _ _ _ (sk_wf _ _ Hsk) Hin Hq). }
  split; [|split; [done|]].
  - intros this x allowLookup n Hr.
    destruct (resolve_sound_aux _ _ _ _ _ (sk_wf _ _ Hsk) Hr) as (i & sc & Hi & Hx).
    destruct (Hin _ _ _ _ Hi Hx) as [Hnode Hc]. split; [done|].
    apply scopeContribution_name. by rewrite Hc.
  - intros r t Ht. apply target_Some in Ht as (s & n & _ & _ & Ht & _).
    apply Hq in Ht. split; [done|].
    apply list_elem_of_fmap in Ht as ([t' par] & -> & Hv).
    destruct (sk_container _ _ Hsk _ Hv) as (s' & _ & Hs' & _). by eexists.
Qed.

Lemma resolution_stays_in_tree_witness :
  ∃ st',
    assignScopes SampleEnvironment.hierarchy SampleEnvironment.environment
      (cached SampleEnvironment.environment) = Ok st' ∧
    ∀ r t, target st' r = Some t →
      t ∈ nodes SampleEnvironment.environment ∧ is_Some (scope st' t).
Proof.
  destruct (assignScopes SampleEnvironment.hierarchy SampleEnvironment.environment
              (cached SampleEnvironment.environment)) as [st'|e] eqn:Ha;
    [|vm_compute in Ha; discriminate Ha].
  exists st'. split; [reflexivity|].
  exact (proj2 (proj2 (resolution_stays_in_tree SampleEnvironment.hierarchy
                         SampleEnvironment.environment st' sample_ids_NoDup Ha))).
Defined.

(** Once [assignScopes] is over, resolution from the scope of a node of the
    tree always returns: [resolve] never throws, and [resolveQualified]
    either answers with a node or throws the linking error for one of the
    segments of the name, nothing else. *)
Theorem linked_resolution_returns (hierarchy : Store → Node → Result (list Node))
    (environment : Node) (st' : Store) (node : Node) :
  NoDup (ids environment) →
  assignScopes hierarchy environment (cached environment) = Ok st' →
  node ∈ nodes environment →
  ∃ s,
    scope st' node = Some s ∧
    (∀ x allowLookup, ∃ r, resolve (heap st') s x allowLookup = Ok r) ∧
    (∀ q allowLookup,
       (∃ n, resolveQualified st' s q allowLookup = Ok n) ∨
       (∃ segment, resolveQualified st' s q allowLookup = Throw (CouldNotResolve segment))).
Proof.
  intros Hnd Hassign Hnode.
  destruct (assignScopes_bindsNodesOf hierarchy environment st' Hnd Hassign) as [Hsk Hin].
  assert (∀ n, n ∈ nodes environment →
            ∃ s, scope st' n = Some s ∧ s < length (heap st')) as Hscoped.
  { intros n ([n' par] & -> & Hv)%list_elem_of_fmap.
    destruct (sk_container _ _ Hsk _ Hv) as (s & _ & Hs & _). exists s.
    split; [done|]. by apply (sk_bound _ _ Hsk) in Hs. }
  destruct (Hscoped _ Hnode) as (s & Hs & Hlt). exists s. split; [done|]. split.
  { intros x allowLookup. apply resolve_returns; [apply Hsk|done]. }
  intros q. remember (String.length q) as len eqn:Hlen.
  clear Hs Hnode. revert q Hlen s Hlt.
  induction (lt_wf len) as [len _ IH]. intros q -> s Hlt allowLookup.
  rewrite resolveQualified_unfold.
  destruct (divideOn "." q) as [start rest] eqn:Hq.
  destruct (resolve_returns (heap st') start s allowLookup (sk_wf _ _ Hsk) Hlt) as [r Hr].
  rewrite Hr. cbn [mbind Result_bind].
  destruct r as [root|]; [|right; by eexists].
  destruct (String.length rest) as [|k] eqn:Hrest; [left; by eexists|].
  destruct (resolve_sound_aux _ _ _ _ _ (sk_wf _ _ Hsk) Hr) as (i & sc & Hi & Hx).
  destruct (Hscoped root) as (s' & Hs' & Hlt'); [by eapply Hin|].
  rewrite (proj2 (theScope_Ok _ _ _) Hs'). cbn [mbind Result_bind].
  pose proof (divideOn_rest_shorter _ _ _ _ Hq) as Hshort.
  eapply IH; [|done..]. lia.
Qed.

Lemma linked_resolution_returns_witness :
  ∃ st' s,
    assignScopes SampleEnvironment.hierarchy SampleEnvironment.environment
      (cached SampleEnvironment.environment) = Ok st' ∧
    scope st' SampleEnvironment.environment = Some s ∧
    (∀ x allowLookup, ∃ r, resolve (heap st') s x allowLookup = Ok r) ∧
    (∀ q allowLookup,
       (∃ n, resolveQualified st' s q allowLookup = Ok n) ∨
       (∃ segment, resolveQualified st' s q allowLookup = Throw (CouldNotResolve segment))).
Proof.
  destruct (assignScopes SampleEnvironment.hierarchy SampleEnvironment.environment
              (cached SampleEnvironment.environment)) as [st'|e] eqn:Ha;
    [|vm_compute in Ha; discriminate Ha].
  destruct (linked_resolution_returns SampleEnvironment.hierarchy
              SampleEnvironment.environment st' SampleEnvironment.environment
              sample_ids_NoDup Ha) as (s & Hs & Hr).
  { apply (list_elem_of_fmap_2 fst _ (SampleEnvironment.environment, None)).
    rewrite pairs_unfold. left. }
  exists st', s. exact (conj eq_refl (conj Hs Hr)).
Defined.

(** ** Qualified names walk the tree *)

Lemma divideOn_segment x rest :
  divideOn "." x = (x, EmptyString) →
  divideOn "." (x ++ String "." rest) = (x, rest).
Proof.
  induction x as [|a x IH]; [done|]. simpl. case_bool_decide as Ha.
  - by intros [=].
  - destruct (divideOn "." x) as [head rest'] eqn:Hx. intros [= -> ->].
    by rewrite (IH eq_refl).
Qed.

Lemma concat_segments x y segments :
  String.concat "." (x :: y :: segments) = (x ++ String "." (String.concat "." (y :: segments)))%string.
Proof. done. Qed.

Lemma concat_segments_length y segments :
  y ≠ EmptyString → String.length (String.concat "." (y :: segments)) ≠ 0.
Proof. destruct y; [done|]. intros _. destruct segments; simpl; lia. Qed.

Lemma contributor_not_Environment c :
  (is_Entity c || is_a Kind.Field c || is_a Kind.Param c) = true →
  is_a Kind.Environment c = false.
Proof.
  unfold is_Entity, is_Module, is_a. intros Hkind.
  destruct (kind c); first [done | by vm_compute in Hkind].
Qed.

Lemma declared_not_Environment P x c :
  declared P x = Some c → is_a Kind.Environment c = false.
Proof.
  intros (_ & _ & _ & Hkind)%declared_child. by apply contributor_not_Environment.
Qed.

Lemma descend_walks (hierarchy : Store → Node → Result (list Node))
    (environment : Node) (st' : Store) :
  NoDup (ids environment) →
  assignScopes hierarchy environment (cached environment) = Ok st' →
  ∀ segments P par,
    (P, par) ∈ pairs None environment →
    is_a Kind.Environment P = false →
    segments ≠ [] →
    Forall (λ y, y ≠ EmptyString ∧ divideOn "." y = (y, EmptyString)) segments →
    ∃ s, scope st' P = Some s ∧
      resolveQualified st' s (String.concat "." segments) false = descend P segments.
Proof.
  intros Hnd Hassign segments.
  induction segments as [|y segments IH]; intros P par HP Hkind Hne Hok; [done|].
  apply Forall_cons in Hok as [[Hy Hdot] Hok].
  destruct (assignScopes_bindings _ _ _ _ _ Hnd Hassign HP Hkind)
    as (s & sc & Hs & Hsc & Hexact).
  exists s. split; [done|]. rewrite resolveQualified_unfold.
  destruct segments as [|z segments].
  - simpl. rewrite Hdot, resolve_local, Hsc, Hexact. cbn [mbind Result_bind].
    by destruct (declared P y).
  - rewrite concat_segments, (divideOn_segment _ _ Hdot), resolve_local, Hsc, Hexact.
    cbn [mbind Result_bind]. cbn [descend].
    destruct (declared P y) as [c|] eqn:Hc; [|done].
    pose proof (Forall_inv Hok) as [Hz _].
    destruct (String.length _) eqn:Hlen; [by destruct (concat_segments_length z segments Hz)|].
    pose proof (declared_child _ _ _ Hc) as (Hchild & _).
    assert ((c, Some P) ∈ pairs None environment) as Hin.
    { pose proof (visit_children environment P par Hnd HP) as Hvisit.
      assert ((c, Some P) ∈ (λ c, (c, Some P)) <$> children P) as H
        by (apply (list_elem_of_fmap_2 (λ c, (c, Some P)) _ c Hchild)).
      rewrite <- Hvisit in H. by apply list_elem_of_filter in H as [_ ?]. }
    destruct (IH c (Some P) Hin (declared_not_Environment _ _ _ Hc)) as (s' & Hs' & Hwalk);
      [done..|].
    rewrite (proj2 (theScope_Ok _ _ _) Hs'). cbn [mbind Result_bind]. apply Hwalk.
Qed.

(** After [assignScopes] a qualified name resolves, from any scope, by
    walking the tree: the first segment is resolved in that scope, with or
    without lookup as asked, and every further segment names a child that
    the node found so far declares itself — what that node inherits,
    imports or sees in its containers is not looked at.  The first segment
    without a match is the one the error names. *)
Theorem qualified_name_walks (hierarchy : Store → Node → Result (list Node))
    (environment : Node) (st' : Store) (this : nat) (x : string)
    (segments : list string) (allowLookup : bool) :
  NoDup (ids environment) →
  assignScopes hierarchy environment (cached environment) = Ok st' →
  divideOn "." x = (x, EmptyString) →
  Forall (λ y, y ≠ EmptyString ∧ divideOn "." y = (y, EmptyString)) segments →
  resolveQualified st' this (String.concat "." (x :: segments)) allowLookup =
    match resolve (heap st') this x allowLookup with
    | Ok (Some root) => descend root segments
    | Ok None => Throw (CouldNotResolve x)
    | Throw e => Throw e
    end.
Proof.
  intros Hnd Hassign Hdot Hok. rewrite resolveQualified_unfold.
  destruct segments as [|y segments].
  - simpl. rewrite Hdot.
    by destruct (resolve (heap st') this x allowLookup) as [[root|]|e].
  - rewrite concat_segments, (divideOn_segment _ _ Hdot).
    destruct (resolve (heap st') this x allowLookup) as [[root|]|e] eqn:Hroot;
      cbn [mbind Result_bind]; [|done..].
    pose proof (Forall_inv Hok) as [Hy _].
    destruct (String.length _) eqn:Hlen; [by destruct (concat_segments_length y segments Hy)|].
    destruct (assignScopes_bindsNodesOf hierarchy environment st' Hnd Hassign) as [Hsk Hin].
    destruct (resolve_sound_aux _ _ _ _ _ (sk_wf _ _ Hsk) Hroot) as (i & sc & Hi & Hx).
    destruct (Hin _ _ _ _ Hi Hx) as [Hnode Hc].
    apply list_elem_of_fmap in Hnode as ([root' par] & -> & Hv). simpl in *.
    destruct (descend_walks hierarchy environment st' Hnd Hassign (y :: segments) root' par)
      as (s & Hs & Hwalk); [done| |done|done|].
    { destruct (scopeContribution_name root' x) as (_ & _ & Hkind); [by rewrite Hc|].
      by apply contributor_not_Environment. }
    rewrite (proj2 (theScope_Ok _ _ _) Hs). cbn [mbind Result_bind]. apply Hwalk.
Qed.

Lemma qualified_name_walks_witness :
  ∃ st',
    assignScopes SampleEnvironment.hierarchy SampleEnvironment.environment
      (cached SampleEnvironment.environment) = Ok st' ∧
    resolveQualified st' 0 "wollok.lang.Object" true =
      match resolve (heap st') 0 "wollok" true with
      | Ok (Some root) => descend root ["lang"; "Object"]%string
      | Ok None => Throw (CouldNotResolve "wollok")
      | Throw e => Throw e
      end.
Proof.
  destruct (assignScopes SampleEnvironment.hierarchy SampleEnvironment.environment
              (cached SampleEnvironment.environment)) as [st'|e] eqn:Ha;
    [|vm_compute in Ha; discriminate Ha].
  exists st'. split; [reflexivity|].
  refine (qualified_name_walks SampleEnvironment.hierarchy SampleEnvironment.environment
            st' 0 "wollok" ["lang"; "Object"]%string true sample_ids_NoDup Ha eq_refl _).
  repeat constructor; discriminate.
Defined.

(** ** Imports, in terms of the tree *)

Lemma resolveImport_Ok st imported t :
  resolveImport st imported = Ok t ↔ importResolves st imported t.
Proof.
  unfold resolveImport, importResolves, theScope. split.
  - destruct (scope st imported) as [s|]; simpl; [|done].
    destruct (entity imported) as [e|]; [|done]. destruct (name e) as [q|] eqn:Hq; [|done].
    intros Hr. by exists s, e, q.
  - intros (s & e & q & -> & -> & -> & Hr). done.
Qed.

Lemma resolveImport_targets st l entities :
  mapM (resolveImport st) l = Ok entities → Forall2 (importResolves st) l entities.
Proof.
  intros H%mapM_Ok_Forall2. eapply Forall2_impl; [done|].
  intros i t. apply resolveImport_Ok.
Qed.

Lemma importedScope_targets st l generics :
  mapM (importedScope st) l = Ok generics →
  ∃ targets,
    Forall2 (importResolves st) l targets ∧
    Forall2 (λ t g, scope st t = Some g) targets generics.
Proof.
  intros H%mapM_Ok_Forall2. induction H as [|i g l generics Hi _ (targets & Hl & Hg)].
  { exists []. split; constructor. }
  unfold importedScope in Hi.
  destruct (resolveImport st i) as [t|] eqn:Ht; simpl in Hi; [|done].
  apply theScope_Ok in Hi. apply resolveImport_Ok in Ht.
  exists (t :: targets). split; by constructor.
Qed.

Lemma importResolves_bound environment st imported t :
  heap_wf (heap st) → bindsNodesOf environment (heap st) →
  importResolves st imported t →
  t ∈ nodes environment ∧ is_a Kind.Environment t = false.
Proof.
  intros Hwf Hb (s & e & q & _ & _ & _ & Hr).
  destruct (resolveQualified_bound environment _ _ _ _ _ Hwf Hb Hr) as [Hin [x Hx]].
  split; [done|].
  destruct (scopeContribution_name t x) as (_ & _ & Hkind); [by rewrite Hx|].
  by apply contributor_not_Environment.
Qed.

Lemma first_local_declared (hierarchy : Store → Node → Result (list Node))
    (environment : Node) (st' : Store) (x : string) targets generics :
  NoDup (ids environment) →
  assignScopes hierarchy environment (cached environment) = Ok st' →
  Forall (λ t, t ∈ nodes environment ∧ is_a Kind.Environment t = false) targets →
  Forall2 (λ t g, scope st' t = Some g) targets generics →
  first_local (heap st') x generics = firstDeclared x targets.
Proof.
  intros Hnd Hassign Hins Hscoped.
  induction Hscoped as [|t g targets generics Hg _ IH]; [done|].
  apply Forall_cons in Hins as [[Hin Hkind] Hins].
  apply list_elem_of_fmap in Hin as ([t' par] & -> & Hv). simpl in *.
  destruct (assignScopes_bindings _ _ _ _ _ Hnd Hassign Hv Hkind)
    as (s & sc & Hs & Hsc & Hexact).
  rewrite Hg in Hs. injection Hs as <-.
  unfold local. rewrite Hsc. simpl. rewrite Hexact, IH by done. done.
Qed.

(** C3: once [assignScopes] is over, resolution from the scope of a package
    with imports answers, in this order: what the package declares itself;
    else the entity a simple import resolved to under that name, the last
    one for a name winning; else what the first target of a generic import,
    in the order of the import list, declares itself; else what the
    container resolves.  The scope includes, first, the import scope, which
    binds the simple imports, and then the scopes of the nodes the generic
    imports resolved to; each import is resolved by the qualified name of
    its entity, from the scope of the Import node, when the package is
    visited.  In particular a name that a simple import binds and the
    package does not declare itself resolves to the simple import's target,
    whatever the generic imports expose. *)
Theorem imports_precedence (hierarchy : Store → Node → Result (list Node))
    (environment : Node) (st' : Store) (P : Node) (par : option Node) :
  NoDup (ids environment) →
  assignScopes hierarchy environment (cached environment) = Ok st' →
  (P, par) ∈ pairs None environment →
  is_a Kind.Package P = true → imports P ≠ [] →
  ∃ st1 pre suf stp sp sc importScope isc entities targets generics,
    forEach scopeSkeleton (pairs None environment) (cached environment) = Ok st1 ∧
    pairs None environment = pre ++ (P, par) :: suf ∧
    forEach (crossLinks hierarchy environment) pre st1 = Ok stp ∧
    Forall2 (importResolves stp)
      (filter (λ imported, isGeneric imported = false) (imports P)) entities ∧
    Forall2 (importResolves stp)
      (filter (λ imported, isGeneric imported = true) (imports P)) targets ∧
    Forall2 (λ t g, scope st' t = Some g) targets generics ∧
    scope st' P = Some sp ∧ heap st' !! sp = Some sc ∧
    heap st' !! importScope = Some isc ∧
    includedScopes sc = importScope :: generics ∧
    (∀ n, contributions sc !! n = declared P n) ∧
    (∀ n, contributions isc !! n = last (filter (λ e, name e = Some n) entities)) ∧
    (∀ n, first_local (heap st') n generics = firstDeclared n targets) ∧
    (∀ n, resolve (heap st') sp n true =
       match declared P n with
       | Some x => Ok (Some x)
       | None =>
         match last (filter (λ e, name e = Some n) entities) with
         | Some x => Ok (Some x)
         | None =>
           match firstDeclared n targets with
           | Some x => Ok (Some x)
           | None =>
             match containerScope sc with
             | Some container => resolve (heap st') container n true
             | None => Ok None
             end
           end
         end
       end) ∧
    (∀ n e,
       declared P n = None →
       last (filter (λ e, name e = Some n) entities) = Some e →
       resolve (heap st') sp n true = Ok (Some e)).
Proof.
  intros Hnd Hassign HP Hpkg Himports.
  destruct (assignScopes_skeleton _ _ _ Hnd Hassign) as (st1 & H1 & H2 & Hsf & _ & Hscopes).
  pose proof (sf_included _ _ _ _ Hsf) as Hnone.
  apply skeletonSoFar_skeleton in Hsf.
  destruct (crossLinks_importsSoFar hierarchy environment Hnd st1 P par HP Hpkg Himports
              st' Hsf Hnone H2) as [Hsk [_ Hafter]].
  destruct (Hafter HP) as (pre & suf & stp & sp & sc & importScope & isc & entities & generics
    & Hsplit & Hrun & Hsp & Hsc & Hisc & Hents & Hgens & Hbind & Hincl & _).
  (* the store in which the imports are resolved *)
  destruct (crossLinks_run_bindsNodesOf hierarchy environment pre st1 stp) as [Hskp Hbp];
    [|done|by apply scopeSkeleton_run_bindsNodesOf|done|].
  { intros v Hv. rewrite Hsplit. apply elem_of_app. by left. }
  destruct (crossLinks_skeleton hierarchy environment pre st1 stp Hsf Hrun) as [_ Hscp].
  assert (∀ n, scope stp n = scope st' n) as Hsame.
  { intros n. unfold scope. by rewrite Hscp, Hscopes. }
  apply resolveImport_targets in Hents.
  destruct (importedScope_targets _ _ _ Hgens) as (targets & Htargets & Hscoped).
  assert (Forall2 (λ t g, scope st' t = Some g) targets generics) as Hscoped'.
  { eapply Forall2_impl; [done|]. intros t g Hg. simpl in Hg. by rewrite <- Hsame. }
  assert (Forall (λ t, t ∈ nodes environment ∧ is_a Kind.Environment t = false) targets)
    as Hins.
  { apply Forall_forall. intros t Ht. apply list_elem_of_lookup in Ht as [k Hk].
    destruct (Forall2_lookup_r _ _ _ _ _ Htargets Hk) as (imported & _ & Himp).
    by apply (importResolves_bound environment stp imported);
      [apply Hskp|..]. }
  destruct (is_Package_kinds _ Hpkg) as (Henv & _ & _).
  destruct (assignScopes_bindings _ _ _ _ _ Hnd Hassign HP Henv)
    as (sp' & sc' & Hsp' & Hsc' & Hexact).
  rewrite Hsp in Hsp'. injection Hsp' as <-. rewrite Hsc in Hsc'. injection Hsc' as <-.
  assert (∀ n, contributions isc !! n = last (filter (λ e, name e = Some n) entities))
    as Hlast.
  { intros n. rewrite Hbind. apply importScope_binding. }
  pose proof (λ n, first_local_declared hierarchy environment st' n targets generics
                     Hnd Hassign Hins Hscoped') as Hgeneric.
  assert (∀ n, resolve (heap st') sp n true =
       match declared P n with
       | Some x => Ok (Some x)
       | None =>
         match last (filter (λ e, name e = Some n) entities) with
         | Some x => Ok (Some x)
         | None =>
           match firstDeclared n targets with
           | Some x => Ok (Some x)
           | None =>
             match containerScope sc with
             | Some container => resolve (heap st') container n true
             | None => Ok None
             end
           end
         end
       end) as Hresolve.
  { intros n. rewrite (resolve_unfold _ _ _ sc); [|apply Hsk|done].
    rewrite Hincl, Hexact. cbn [first_local]. unfold local at 1. rewrite Hisc. simpl.
    rewrite Hlast, Hgeneric. destruct (declared P n); [done|].
    by destruct (last _). }
  exists st1, pre, suf, stp, sp, sc, importScope, isc, entities, targets, generics.
  do 13 (split; [done|]). split; [done|].
  intros n e Hown He. by rewrite Hresolve, Hown, He.
Qed.

Lemma imports_precedence_witness :
  ∃ st' P par,
    pairs None SampleEnvironment.environment !! 5 = Some (P, par) ∧
    assignScopes SampleEnvironment.hierarchy SampleEnvironment.environment
      (cached SampleEnvironment.environment) = Ok st' ∧
    ∃ stp sp sc importScope isc entities targets generics,
      Forall2 (importResolves stp)
        (filter (λ imported, isGeneric imported = false) (imports P)) entities ∧
      Forall2 (importResolves stp)
        (filter (λ imported, isGeneric imported = true) (imports P)) targets ∧
      length entities = 1 ∧ length targets = 1 ∧
      Forall2 (λ t g, scope st' t = Some g) targets generics ∧
      scope st' P = Some sp ∧ heap st' !! sp = Some sc ∧
      heap st' !! importScope = Some isc ∧
      includedScopes sc = importScope :: generics ∧
      (∀ n, first_local (heap st') n generics = firstDeclared n targets) ∧
      (∀ n e,
         declared P n = None →
         last (filter (λ e, name e = Some n) entities) = Some e →
         resolve (heap st') sp n true = Ok (Some e)).
Proof.
  destruct (pairs None SampleEnvironment.environment !! 5) as [[P par]|] eqn:Hk;
    [|vm_compute in Hk; discriminate Hk].
  destruct (assignScopes SampleEnvironment.hierarchy SampleEnvironment.environment
              (cached SampleEnvironment.environment)) as [st'|e] eqn:Ha;
    [|vm_compute in Ha; discriminate Ha].
  exists st', P, par. split; [reflexivity|]. split; [reflexivity|].
  pose proof (list_elem_of_lookup_2 _ _ _ Hk) as Hin.
  vm_compute in Hk. injection Hk as <- <-.
  edestruct (imports_precedence SampleEnvironment.hierarchy SampleEnvironment.environment
               st' _ _ sample_ids_NoDup Ha Hin eq_refl)
    as (st1 & pre & suf & stp & sp & sc & importScope & isc & entities & targets & generics
        & _ & _ & _ & Hents & Htargets & Hscoped & Hsp & Hsc & Hisc & Hincl & _ & _
        & Hgeneric & _ & Hfirst);
    [intros H; discriminate H|].
  exists stp, sp, sc, importScope, isc, entities, targets, generics.
  exact (conj Hents (conj Htargets
          (conj (eq_sym (Forall2_length _ _ _ Hents))
          (conj (eq_sym (Forall2_length _ _ _ Htargets))
          (conj Hscoped (conj Hsp (conj Hsc (conj Hisc (conj Hincl
          (conj Hgeneric Hfirst)))))))))).
Defined.

(** C3, the last sentence as it stands does not hold: in the sample the
    package [p] imports [q.X] by name, so the import scope binds [X] to the
    class of [q], and all of [r], whose scope binds [X] to another class;
    yet [X] resolves from the scope of [p] to the class [p] declares
    itself, which is neither. *)
Lemma imports_own_binding_first :
  ∃ st' P own simple exposed,
    assignScopes SampleEnvironment.hierarchy SampleOwnBinding.environment
      (cached SampleOwnBinding.environment) = Ok st' ∧
    nodes SampleOwnBinding.environment !! 5 = Some P ∧
    is_a Kind.Package P = true ∧ imports P ≠ [] ∧
    declared P "X" = Some own ∧
    (∃ sp sc importScope generic,
       scope st' P = Some sp ∧ heap st' !! sp = Some sc ∧
       includedScopes sc = [importScope; generic] ∧
       local (heap st') "X" importScope = Some simple ∧
       local (heap st') "X" generic = Some exposed ∧
       resolve (heap st') sp "X" true = Ok (Some own)) ∧
    id simple ≠ id exposed ∧ id own ≠ id simple ∧ id own ≠ id exposed.
Proof.
  set (st' := match assignScopes SampleEnvironment.hierarchy SampleOwnBinding.environment
                      (cached SampleOwnBinding.environment) with
              | Ok st => st
              | Throw _ => cached SampleOwnBinding.environment
              end).
  exists st'. do 4 eexists.
  split; [vm_compute; reflexivity|].
  split; [vm_compute; reflexivity|].
  split; [vm_compute; reflexivity|].
  split; [vm_compute; discriminate|].
  split; [vm_compute; reflexivity|].
  split.
  { do 4 eexists.
    split; [vm_compute; reflexivity|].
    split; [vm_compute; reflexivity|].
    split; [vm_compute; reflexivity|].
    split; [vm_compute; reflexivity|].
    split; [vm_compute; reflexivity|].
    vm_compute; reflexivity. }
  split; [vm_compute; discriminate|]. split; vm_compute; discriminate.
Qed.

(** ** The sample environment, evaluated

    In the linked sample the package [a] has the id ["6"], its class [A] the
    id ["11"], the Reference [X] in the inheritance clause of [A] the id
    ["12"] and the field [f] of [A] the id ["13"]; the class [X] of [b] has
    the id ["18"], the class [X] of [c] the id ["21"], the class [Y] of [c]
    the id ["23"], and the class [Object] of [wollok.lang] the id ["4"]. *)

(** The simple import of [b.X] wins over the generic import of [c]; a name
    only [c] has comes through the generic import; the global packages are
    visible without an import. *)
Example sample_import_precedence :
  SampleLink.resolved "6" "X" = Some "18"%string ∧
  SampleLink.resolved "6" "Y" = Some "23"%string ∧
  SampleLink.resolved "6" "Object" = Some "4"%string.
Proof. vm_compute. done. Qed.

(** The Reference in the inheritance clause of [A] does not see the field of
    [A]; the field itself does. *)
Example sample_inheritance_clause :
  SampleLink.resolved "12" "f" = None ∧
  SampleLink.resolved "12" "X" = Some "18"%string ∧
  SampleLink.resolved "13" "f" = Some "13"%string.
Proof. vm_compute. done. Qed.

(** A Reference that resolves to nothing makes the link fail, with its name
    and its source. *)
Example sample_unlinked_reference :
  SampleLink.broken = Throw (UnlinkedReference (Some "Nowhere"%string) (Some "sample.wlk"%string)).
Proof. vm_compute. reflexivity. Qed.

(** Included scopes are searched one level deep: [Y] is bound in the scope
    [0] only, which the scope [1] includes and the scope [2] does not. *)
Example sample_one_level_deep :
  resolve [ mkScope {[ "Y"%string := Sample.nY ]} [] None;
            mkScope ∅ [0] None;
            mkScope ∅ [1] None ] 2 "Y" true = Ok None ∧
  resolve [ mkScope {[ "Y"%string := Sample.nY ]} [] None;
            mkScope ∅ [0] None;
            mkScope ∅ [1] None ] 1 "Y" true = Ok (Some Sample.nY) ∧
  resolve Sample.scopes 2 "Y" true = Ok (Some Sample.nY).
Proof. vm_compute. done. Qed.

(** Merging: a new entity replaces the one of its name, and a new package is
    merged into the one of its name, member by member. *)
Example sample_merge :
  mergePackage [Sample.nX; Sample.nY] (Sample.entityNamed Kind.Singleton "X" [])
    = [Sample.nY; Sample.entityNamed Kind.Singleton "X" []] ∧
  mergePackage [Sample.package "p" [] [Sample.nY]] (Sample.package "p" [] [Sample.nX])
    = [Sample.package "p" [] [Sample.nY; Sample.nX]].
Proof. vm_compute. done. Qed.

Example sample_divideOn :
  divideOn "." "wollok.lang.Object" = ("wollok", "lang.Object")%string ∧
  divideOn "." "Object" = ("Object", "")%string.
Proof. done. Qed.

(* ================================================================== *)
(** * Properties of the builders *)

Module BuildersFacts.
Import Builders.

Lemma get_set_eq key v o : get key (set key v o) = v.
Proof.
  induction o as [|[k w] o IH]; cbn [set get].
  - by rewrite bool_decide_eq_true_2.
  - destruct (decide (k = key)) as [->|Hne].
    + rewrite bool_decide_eq_true_2 by done. cbn [get]. by rewrite bool_decide_eq_true_2.
    + rewrite bool_decide_eq_false_2 by done. cbn [get]. by rewrite bool_decide_eq_false_2.
Qed.

Lemma get_set_ne key key' v o : key ≠ key' → get key' (set key v o) = get key' o.
Proof.
  intros Hne. induction o as [|[k w] o IH]; cbn [set get].
  - by rewrite bool_decide_eq_false_2.
  - destruct (decide (k = key)) as [->|Hk].
    + rewrite (bool_decide_eq_true_2 (key = key)) by done. cbn [get].
      by rewrite !bool_decide_eq_false_2.
    + rewrite (bool_decide_eq_false_2 (k = key)) by done. cbn [get]. by rewrite IH.
Qed.

Lemma keys_set key v o :
  (set key v o).*1 = if bool_decide (key ∈ o.*1) then o.*1 else o.*1 ++ [key].
Proof.
  induction o as [|[k w] o IH]; cbn [set].
  - rewrite fmap_nil, bool_decide_eq_false_2; [done|apply not_elem_of_nil].
  - rewrite !fmap_cons. cbn [fst]. destruct (decide (k = key)) as [->|Hk].
    + rewrite (bool_decide_eq_true_2 (key = key)) by done.
      rewrite bool_decide_eq_true_2; [done|left].
    + rewrite (bool_decide_eq_false_2 (k = key)) by done.
      rewrite fmap_cons, IH. cbn [fst]. case_bool_decide as Hin.
      * rewrite bool_decide_eq_true_2; [done|by right].
      * rewrite bool_decide_eq_false_2; [done|].
        rewrite not_elem_of_cons. split; [congruence|done].
Qed.

Lemma keys_set_elem key key' v o :
  key' ∈ (set key v o).*1 ↔ key' = key ∨ key' ∈ o.*1.
Proof.
  rewrite keys_set. case_bool_decide as Hin.
  - split; [by right|]. by intros [->|?].
  - rewrite elem_of_app, list_elem_of_singleton. tauto.
Qed.

Lemma has_set key key' v o :
  has key' (set key v o) = bool_decide (key' = key) || has key' o.
Proof.
  unfold has. apply eq_true_iff_eq.
  rewrite orb_true_iff, !bool_decide_eq_true. apply keys_set_elem.
Qed.

Lemma NoDup_keys_set key v o : NoDup o.*1 → NoDup (set key v o).*1.
Proof.
  intros Hnd. rewrite keys_set. case_bool_decide as Hin; [done|].
  apply NoDup_app. split; [done|]. split; [|apply NoDup_singleton].
  intros k Hk ->%list_elem_of_singleton. done.
Qed.

Lemma has_spread key o source :
  has key (spread o source) = has key o || has key source.
Proof.
  unfold spread. revert o. induction source as [|[k v] source IH]; intros o; cbn [fold_left].
  { unfold has at 3. rewrite fmap_nil, (bool_decide_eq_false_2 (key ∈ [])).
    - by rewrite orb_false_r.
    - apply not_elem_of_nil. }
  rewrite IH, has_set. cbn [fst snd]. unfold has. apply eq_true_iff_eq.
  rewrite !orb_true_iff, !bool_decide_eq_true, fmap_cons, elem_of_cons. cbn [fst]. tauto.
Qed.

Lemma NoDup_keys_spread o source : NoDup o.*1 → NoDup (spread o source).*1.
Proof.
  unfold spread. revert o. induction source as [|[k v] source IH]; intros o Hnd; [done|].
  cbn [fold_left]. by apply IH, NoDup_keys_set.
Qed.

(** Reading a property of [{ ...o, ...source }]: from [source] when it
    has the property, else from [o]. *)
Lemma get_spread key o source :
  NoDup source.*1 →
  get key (spread o source) = if has key source then get key source else get key o.
Proof.
  unfold spread. revert o.
  induction source as [|[k v] source IH]; intros o Hnd; cbn [fold_left].
  { unfold has. rewrite fmap_nil, (bool_decide_eq_false_2 (key ∈ [])); [done|].
    apply not_elem_of_nil. }
  rewrite fmap_cons in Hnd. cbn [fst] in Hnd. apply NoDup_cons in Hnd as [Hk Hnd].
  rewrite IH by done. cbn [fst snd get]. unfold has. rewrite fmap_cons. cbn [fst].
  destruct (decide (k = key)) as [->|Hne].
  - rewrite (bool_decide_eq_false_2 (key ∈ source.*1)) by done.
    rewrite (bool_decide_eq_true_2 (key ∈ key :: source.*1)) by left.
    rewrite (bool_decide_eq_true_2 (key = key)) by done. apply get_set_eq.
  - rewrite (bool_decide_eq_false_2 (k = key)) by done.
    rewrite get_set_ne by done.
    rewrite (bool_decide_ext (key ∈ k :: source.*1) (key ∈ source.*1)); [done|].
    rewrite elem_of_cons. split; [intros [?|?]; [congruence|done]|by right].
Qed.

Lemma get_absent key o : key ∉ o.*1 → get key o = Undefined.
Proof.
  induction o as [|[k v] o IH]; [done|]. rewrite fmap_cons, not_elem_of_cons. cbn [fst get].
  intros [Hne Hin]. rewrite bool_decide_eq_false_2 by congruence. by apply IH.
Qed.

Lemma spread_nil_get key source :
  NoDup source.*1 → get key (spread [] source) = get key source.
Proof.
  intros Hnd. rewrite get_spread by done. unfold has.
  case_bool_decide as Hin; [done|]. by rewrite (get_absent key source).
Qed.

Lemma get_makeNode_kind kind payload : get "kind" (makeNode kind payload) = Str kind.
Proof. apply get_set_eq. Qed.

Lemma get_makeNode kind payload key :
  NoDup payload.*1 → key ≠ "kind"%string →
  get key (makeNode kind payload) = get key payload ∧
  has key (makeNode kind payload) = has key payload.
Proof.
  intros Hnd Hne. unfold makeNode. split.
  - rewrite get_set_ne by done. by apply spread_nil_get.
  - rewrite has_set, has_spread. by rewrite bool_decide_eq_false_2.
Qed.

Lemma NoDup_keys_spreadOptional o payload :
  NoDup o.*1 → NoDup (spreadOptional o payload).*1.
Proof. destruct payload; [apply NoDup_keys_spread|done]. Qed.

(** A builder that spreads its payload over its defaults. *)
Lemma get_defaults kind defaults payload key :
  NoDup defaults.*1 → NoDup payload.*1 → key ≠ "kind"%string →
  get key (makeNode kind (spreadOptional defaults (Some payload)))
  = if has key payload then get key payload
    else get key (makeNode kind (spreadOptional defaults None)).
Proof.
  intros Hd Hp Hne.
  rewrite (proj1 (get_makeNode _ _ _ (NoDup_keys_spreadOptional _ (Some payload) Hd) Hne)).
  rewrite (proj1 (get_makeNode _ _ _ (NoDup_keys_spreadOptional _ None Hd) Hne)).
  simpl. by apply get_spread.
Qed.
Lemma keys_omit key key' o : key' ∈ (omit key o).*1 ↔ key' ≠ key ∧ key' ∈ o.*1.
Proof.
  induction o as [|[k v] o IH]; cbn [omit].
  { rewrite fmap_nil, elem_of_nil. tauto. }
  rewrite fmap_cons, elem_of_cons. cbn [fst]. case_bool_decide as Hk.
  - rewrite IH. split; [tauto|]. intros [Hne [->|?]]; [congruence|done].
  - rewrite fmap_cons, elem_of_cons, IH. cbn [fst]. split; [|tauto].
    intros [->|[? ?]]; [|tauto]. split; [congruence|by left].
Qed.

Lemma has_omit key o : has key (omit key o) = false.
Proof. unfold has. apply bool_decide_eq_false_2. rewrite keys_omit. tauto. Qed.

Lemma has_omit_ne key key' o : key ≠ key' → has key' (omit key o) = has key' o.
Proof.
  intros Hne. unfold has. apply bool_decide_ext. rewrite keys_omit.
  split; [tauto|]. intros ?. split; [congruence|done].
Qed.

Lemma get_omit key key' o : key ≠ key' → get key' (omit key o) = get key' o.
Proof.
  intros Hne. induction o as [|[k v] o IH]; [done|]. cbn [omit get].
  case_bool_decide as Hk.
  - subst k. by rewrite bool_decide_eq_false_2.
  - cbn [get]. by rewrite IH.
Qed.

Lemma NoDup_keys_omit key o : NoDup o.*1 → NoDup (omit key o).*1.
Proof.
  induction o as [|[k v] o IH]; [done|]. rewrite fmap_cons. cbn [fst omit].
  intros [Hk Hnd]%NoDup_cons. case_bool_decide; [by apply IH|].
  rewrite fmap_cons. cbn [fst]. apply NoDup_cons. split; [|by apply IH].
  rewrite keys_omit. tauto.
Qed.

Ltac keys_NoDup := refine (bool_decide_unpack _ _); vm_compute; exact I.

(** Every builder of a node gives the node its own kind, whatever the
    payload says: a [kind] in the payload does not survive. *)
Theorem builders_kind (kind name : string) (payload : Object) (optional : option Object)
    (node other : Object) (nodes : list Object) (someNodes : option (list Object))
    (someNode : option Object) (someName : option string) (value : Value) :
  get "kind" (makeNode kind payload) = Str kind ∧
  get "kind" (Reference name) = Str "Reference" ∧
  get "kind" (Parameter' name optional) = Str "Parameter" ∧
  get "kind" (NamedArgument name node) = Str "NamedArgument" ∧
  get "kind" (Import node optional) = Str "Import" ∧
  get "kind" (Body nodes) = Str "Body" ∧
  get "kind" (Package name optional nodes) = Str "Package" ∧
  get "kind" (Class name optional nodes) = Str "Class" ∧
  get "kind" (Singleton someName optional nodes) = Str "Singleton" ∧
  get "kind" (Mixin name optional nodes) = Str "Mixin" ∧
  get "kind" (Program name optional nodes) = Str "Program" ∧
  get "kind" (Test name optional nodes) = Str "Test" ∧
  get "kind" (Describe name optional nodes) = Str "Describe" ∧
  get "kind" (Field name optional) = Str "Field" ∧
  get "kind" (Method name optional nodes) = Str "Method" ∧
  get "kind" (Constructor optional nodes) = Str "Constructor" ∧
  get "kind" (Fixture optional nodes) = Str "Fixture" ∧
  get "kind" (Variable' name optional) = Str "Variable" ∧
  get "kind" (Return someNode) = Str "Return" ∧
  get "kind" (Assignment node other) = Str "Assignment" ∧
  get "kind" Self = Str "Self" ∧
  get "kind" (Literal value) = Str "Literal" ∧
  get "kind" (Send node name someNodes) = Str "Send" ∧
  get "kind" (Super someNodes) = Str "Super" ∧
  get "kind" (New node nodes) = Str "New" ∧
  get "kind" (If node nodes someNodes) = Str "If" ∧
  get "kind" (Throw node) = Str "Throw" ∧
  get "kind" (Try nodes someNodes someNodes) = Str "Try" ∧
  get "kind" (Catch node optional nodes) = Str "Catch" ∧
  get "kind" (Closure nodes nodes) = Str "Literal" ∧
  get "kind" (ListOf nodes) = Str "New" ∧
  get "kind" (SetOf nodes) = Str "New" ∧
  get "kind" (Environment nodes) = Str "Environment".
Proof.
  repeat split; try apply get_makeNode_kind; reflexivity.
Qed.

(** A builder spreads its payload over its defaults and over what it was
    given by position: a property of the payload wins over both, the name
    included; a property the payload does not have is as without any
    payload. *)
Theorem payload_overrides (key name : string) (payload : Object) (node : Object)
    (nodes : list Object) (someName : option string) :
  NoDup payload.*1 → key ≠ "kind"%string →
  let overrides (given plain : Object) :=
    get key given = if has key payload then get key payload else get key plain in
  overrides (Parameter' name (Some payload)) (Parameter' name None) ∧
  overrides (Import node (Some payload)) (Import node None) ∧
  overrides (Package name (Some payload) nodes) (Package name None nodes) ∧
  overrides (Class name (Some payload) nodes) (Class name None nodes) ∧
  overrides (Singleton someName (Some payload) nodes) (Singleton someName None nodes) ∧
  overrides (Mixin name (Some payload) nodes) (Mixin name None nodes) ∧
  overrides (Program name (Some payload) nodes) (Program name None nodes) ∧
  overrides (Test name (Some payload) nodes) (Test name None nodes) ∧
  overrides (Describe name (Some payload) nodes) (Describe name None nodes) ∧
  overrides (Field name (Some payload)) (Field name None) ∧
  overrides (Constructor (Some payload) nodes) (Constructor None nodes) ∧
  overrides (Variable' name (Some payload)) (Variable' name None) ∧
  overrides (Catch node (Some payload) nodes) (Catch node None nodes) ∧
  get key (Frame payload) = if has key payload then get key payload else get key (Frame []).
Proof.
  intros Hnd Hne overrides. unfold overrides.
  repeat split; try (apply get_defaults; [keys_NoDup|done..]).
  - apply get_defaults; [|done..]. apply NoDup_keys_spread. keys_NoDup.
  - unfold Frame. by apply get_spread.
Qed.

Lemma payload_overrides_witness :
  get "name" (Parameter' "x" (Some [("name", Str "y")]%string)) = Str "y" ∧
  get "isVarArg" (Parameter' "x" (Some [("name", Str "y")]%string)) = Bool false.
Proof.
  split.
  - exact (proj1 (payload_overrides "name" "x" [("name", Str "y")]%string [] [] None
                    (NoDup_singleton _) (λ H, eq_ind "name"%string
                       (λ s, match s with String "n" _ => True | _ => False end) I _ H))).
  - exact (proj1 (payload_overrides "isVarArg" "x" [("name", Str "y")]%string [] [] None
                    (NoDup_singleton _) (λ H, eq_ind "isVarArg"%string
                       (λ s, match s with String "i" _ => True | _ => False end) I _ H))).
Defined.

Lemma Method_unfold name payload sentences :
  Method name (Some payload) sentences =
    makeNode "Method"
      (spread
         (spread
            [("name", Str name); ("isOverride", Bool false); ("isNative", Bool false);
             ("parameters", Arr [])]%string
            (if has "body" payload && isUndefined (get "body" payload)
             then [] else [("body", Obj (Body sentences))]%string))
         (omit "body" payload)).
Proof. reflexivity. Qed.

(** [Method] makes the body of its sentences, whatever body the payload
    brings — unless the payload has a [body] property that is [undefined],
    in which case the method has no body at all; [Constructor] lets the
    body of the payload win.  The other properties of the payload win over
    the defaults as everywhere. *)
Theorem method_body (name : string) (payload : Object) (sentences : list Object) :
  NoDup payload.*1 →
  get "body" (Method name None sentences) = Obj (Body sentences) ∧
  (if has "body" payload && isUndefined (get "body" payload)
   then has "body" (Method name (Some payload) sentences) = false
   else get "body" (Method name (Some payload) sentences) = Obj (Body sentences)) ∧
  (has "body" payload = true →
   get "body" (Constructor (Some payload) sentences) = get "body" payload) ∧
  ∀ key, key ≠ "kind"%string → key ≠ "body"%string →
    get key (Method name (Some payload) sentences)
    = if has key payload then get key payload else get key (Method name None sentences).
Proof.
  intros Hnd. split; [reflexivity|].
  set (base := [("name", Str name); ("isOverride", Bool false); ("isNative", Bool false);
                ("parameters", Arr [])]%string).
  assert (∀ bodyPart : Object, NoDup bodyPart.*1 →
            NoDup (spread (spread base bodyPart) (omit "body" payload)).*1) as Hkeys.
  { intros bodyPart Hb. do 2 apply NoDup_keys_spread. keys_NoDup. }
  assert (∀ key, key ≠ "body"%string →
            get key (spread base [("body", Obj (Body sentences))]%string) = get key base)
    as Hbase.
  { intros key Hbody. rewrite get_spread by apply NoDup_singleton. unfold has.
    rewrite bool_decide_eq_false_2; [done|].
    rewrite fmap_cons, fmap_nil, list_elem_of_singleton. cbn [fst]. congruence. }
  rewrite Method_unfold. fold base. split; [|split].
  - destruct (has "body" payload && isUndefined (get "body" payload)).
    + rewrite (proj2 (get_makeNode "Method" _ "body" (Hkeys [] (NoDup_nil_2)) ltac:(done))).
      rewrite has_spread, has_omit. reflexivity.
    + rewrite (proj1 (get_makeNode "Method" _ "body"
                        (Hkeys [("body", Obj (Body sentences))]%string (NoDup_singleton _))
                        ltac:(done))).
      rewrite get_spread by (by apply NoDup_keys_omit). by rewrite has_omit.
  - intros Hhas. unfold Constructor.
    rewrite get_defaults; [by rewrite Hhas|keys_NoDup|done..].
  - intros key Hkind Hbody.
    assert (get key (Method name None sentences) = get key base) as ->.
    { change (Method name None sentences)
        with (makeNode "Method"
                (spread (spread base [("body", Obj (Body sentences))]%string) [])).
      assert (NoDup (spread (spread base [("body", Obj (Body sentences))]%string) []).*1)
        as Hplain by keys_NoDup.
      rewrite (proj1 (get_makeNode "Method" _ key Hplain Hkind)).
      by apply Hbase. }
    assert (∀ bodyPart : Object, NoDup bodyPart.*1 →
              get key (spread base bodyPart) = get key base →
              get key (makeNode "Method"
                         (spread (spread base bodyPart) (omit "body" payload)))
              = if has key payload then get key payload else get key base) as Hgen.
    { intros bodyPart Hb Hsame.
      rewrite (proj1 (get_makeNode "Method" _ key (Hkeys bodyPart Hb) Hkind)).
      rewrite get_spread by (by apply NoDup_keys_omit).
      rewrite has_omit_ne, get_omit by done. by rewrite Hsame. }
    destruct (has "body" payload && isUndefined (get "body" payload)).
    + apply Hgen; [apply NoDup_nil_2|done].
    + apply Hgen; [apply NoDup_singleton|by apply Hbase].
Qed.

Lemma method_body_witness :
  has "body" (Method "m" (Some [("body", Undefined)]%string) []) = false ∧
  get "body" (Method "m" (Some [("body", Obj (Body [Self]))]%string) [])
    = Obj (Body []).
Proof.
  split.
  - exact (proj1 (proj2 (method_body "m" [("body", Undefined)]%string []
                           (NoDup_singleton _)))).
  - exact (proj1 (proj2 (method_body "m" [("body", Obj (Body [Self]))]%string []
                           (NoDup_singleton _)))).
Defined.

(** A singleton is named only when it is given a name that counts as true:
    without payload, [Singleton] sets no [name] property for a missing name
    and for the empty name, and sets the name it is given otherwise; the
    payload may bring a name of its own. *)
Theorem singleton_name (name : option string) (payload : option Object)
    (members : list Object) :
  has "name" (Singleton name payload members)
  = match name with
    | Some n => negb (bool_decide (n = EmptyString))
    | None => false
    end
    || match payload with
       | Some payload => has "name" payload
       | None => false
       end ∧
  (∀ n, n ≠ EmptyString → get "name" (Singleton (Some n) None members) = Str n) ∧
  get "name" (Singleton None None members) = Undefined ∧
  get "name" (Singleton (Some EmptyString) None members) = Undefined.
Proof.
  split; [|split; [|split; reflexivity]].
  - unfold Singleton, makeNode. rewrite has_set, has_spread. cbn [orb bool_decide].
    rewrite (bool_decide_eq_false_2 ("name"%string = "kind"%string)) by done.
    rewrite orb_false_l.
    assert (has "name" [] = false) as Hnil by reflexivity.
    destruct payload as [payload|]; cbn [spreadOptional].
    + rewrite has_spread, has_spread, Hnil, orb_false_l. f_equal.
      destruct name as [n|]; [|reflexivity]. unfold truthy.
      destruct (negb (bool_decide (n = EmptyString))); reflexivity.
    + rewrite has_spread, Hnil, orb_false_l, orb_false_r.
      destruct name as [n|]; [|reflexivity]. unfold truthy.
      destruct (negb (bool_decide (n = EmptyString))); reflexivity.
  - intros n Hn. unfold Singleton, truthy.
    rewrite (bool_decide_eq_false_2 (n = EmptyString)) by done. reflexivity.
Qed.

(** The synthetic builders, composed of the others: a closure is a literal
    of an unnamed singleton that extends [wollok.lang.Closure] and has the
    one method [<apply>], with the given parameters and the body of the
    given sentences; a getter is a method without parameters that returns
    the reference of its own name, a setter a method with the one parameter
    [value] that assigns it to the reference of its own name. *)
Theorem synthetic_builders (name : string) (parameters body : list Object) :
  Closure parameters body =
    [("value",
      Obj [("members",
            objects
              [[("name", Str "<apply>"); ("isOverride", Bool false);
                ("isNative", Bool false); ("parameters", objects parameters);
                ("body", Obj [("sentences", objects body); ("kind", Str "Body")]);
                ("kind", Str "Method")]]);
           ("mixins", Arr []);
           ("superCall",
            Obj [("superclass",
                  Obj [("name", Str "wollok.lang.Closure"); ("kind", Str "Reference")]);
                 ("args", Arr [])]);
           ("kind", Str "Singleton")]);
     ("kind", Str "Literal")]%string ∧
  getter name =
    [("name", Str name); ("isOverride", Bool false); ("isNative", Bool false);
     ("parameters", Arr []);
     ("body",
      Obj [("sentences",
            objects [[("value", Obj [("name", Str name); ("kind", Str "Reference")]);
                      ("kind", Str "Return")]]);
           ("kind", Str "Body")]);
     ("kind", Str "Method")]%string ∧
  setter name =
    [("name", Str name); ("isOverride", Bool false); ("isNative", Bool false);
     ("parameters",
      objects [[("name", Str "value"); ("isVarArg", Bool false);
                ("kind", Str "Parameter")]]);
     ("body",
      Obj [("sentences",
            objects [[("reference", Obj [("name", Str name); ("kind", Str "Reference")]);
                      ("value", Obj [("name", Str "value"); ("kind", Str "Reference")]);
                      ("kind", Str "Assignment")]]);
           ("kind", Str "Body")]);
     ("kind", Str "Method")]%string.
Proof. repeat split. Qed.
End BuildersFacts.
